(** * Verification of the setlist normalisation pipeline

    A shallow embedding of [scripts/normalize_data.py] (with the replacement
    table of [scripts/config.py]): the title tokenizer, the display-title
    canonicalizer, the song catalog builder, the sequence matcher, the show
    resolver, the setlist linker and the batch driver; and of the workflow
    of [scripts/run_workflow.py] that runs the script.

    Modelling conventions.
    - A Python [str] is a [string]; the character classes ([str.lower],
      [str.isspace], the regular-expression classes [\w] and [\s]) are
      written out for the 7-bit range, characters above it are treated as
      caseless non-word, non-space characters; a statement that speaks of
      the characters of a token is made for 7-bit titles.
    - What the library reads from a date cell and from a position cell
      ([pd.to_datetime], [pd.to_numeric]) differs between its versions and,
      for dates, with the clock; these readings are a parameter [library]
      of the run, and the concrete runs use readings on which the versions
      agree.
    - A DataFrame is the list of its rows, a text cell is a [cell] ([NaN] or
      a string), the position cell is a [value].
    - A [dict] that the code iterates is an association list in insertion
      order; a [set] or [dict] that is only probed is a [gset] / [gmap].
    - A [set] of strings that the code iterates is kept as the list of its
      elements in insertion order, and read through the iteration order of
      the running interpreter, a parameter [set_order] of the run.
    - An uncaught exception is the [None] result of the function or of
      the loop that raises it. *)

From Stdlib Require Import ZArith Ascii String List Permutation Sorted Lia.
From stdpp Require Import base list strings sorting gmap.

Local Open Scope Z_scope.

(** ** Characters and strings *)

Module Py.

Definition code (c : ascii) : N := N_of_ascii c.

Definition between (lo hi : N) (c : ascii) : bool :=
  ((lo <=? code c) && (code c <=? hi))%N.

(** [str.isspace] / [\s]: tab, line feed, vertical tab, form feed, carriage
    return, the four separators 0x1c-0x1f, and the space. *)
Definition is_space (c : ascii) : bool :=
  between 9 13 c || between 28 31 c || (code c =? 32)%N.

Definition is_upper (c : ascii) : bool := between 65 90 c.
Definition is_lower (c : ascii) : bool := between 97 122 c.
Definition is_digit (c : ascii) : bool := between 48 57 c.

(** [\w]: letters, digits and the underscore. *)
Definition is_word (c : ascii) : bool :=
  is_upper c || is_lower c || is_digit c || (code c =? 95)%N.

Definition apostrophe : ascii := ascii_of_N 39.
Definition is_apostrophe (c : ascii) : bool := (code c =? 39)%N.

Definition to_lower (c : ascii) : ascii :=
  if is_upper c then ascii_of_N (code c + 32) else c.
Definition to_upper (c : ascii) : ascii :=
  if is_lower c then ascii_of_N (code c - 32) else c.

Fixpoint smap (f : ascii -> ascii) (s : string) : string :=
  match s with
  | EmptyString => EmptyString
  | String c s' => String (f c) (smap f s')
  end.

(** [s.lower()] *)
Definition lower (s : string) : string := smap to_lower s.

(** [s.isascii()] *)
Fixpoint isascii (s : string) : bool :=
  match s with
  | EmptyString => true
  | String c s' => (code c <? 128)%N && isascii s'
  end.

(** [s.capitalize()] *)
Definition capitalize (s : string) : string :=
  match s with
  | EmptyString => EmptyString
  | String c s' => String (to_upper c) (lower s')
  end.

(** [not s] *)
Definition is_empty (s : string) : bool :=
  match s with EmptyString => true | _ => false end.

Fixpoint lstrip (s : string) : string :=
  match s with
  | EmptyString => EmptyString
  | String c s' => if is_space c then lstrip s' else s
  end.

Fixpoint rstrip (s : string) : string :=
  match s with
  | EmptyString => EmptyString
  | String c s' =>
      let r := rstrip s' in
      if is_empty r && is_space c then EmptyString else String c r
  end.

(** [s.strip()] *)
Definition strip (s : string) : string := rstrip (lstrip s).

Fixpoint is_prefix (p s : string) : bool :=
  match p, s with
  | EmptyString, _ => true
  | String a p', String b s' => if Ascii.eqb a b then is_prefix p' s' else false
  | String _ _, EmptyString => false
  end.

(** [s.replace(old, new)] for a non-empty [old]: left to right, without
    overlap.  [skip] counts the characters of a match still to be dropped. *)
Fixpoint replace_go (old new : string) (skip : nat) (s : string) : string :=
  match s with
  | EmptyString => EmptyString
  | String c s' =>
      match skip with
      | S k => replace_go old new k s'
      | O =>
          if is_prefix old s
          then new +:+ replace_go old new (String.length old - 1) s'
          else String c (replace_go old new O s')
      end
  end.

(** For the empty [old], Python puts [new] before every character and at
    the end. *)
Fixpoint replace_empty (new s : string) : string :=
  match s with
  | EmptyString => new
  | String c s' => new +:+ String c (replace_empty new s')
  end.

Definition replace (old new s : string) : string :=
  if is_empty old then replace_empty new s else replace_go old new O s.

(** [sep.join(l)] *)
Fixpoint join (sep : string) (l : list string) : string :=
  match l with
  | [] => EmptyString
  | [x] => x
  | x :: l' => x +:+ sep +:+ join sep l'
  end.

Definition of_rev (l : list ascii) : string := string_of_list_ascii (rev l).

(** [RE_WHITESPACE.split(s)], the pattern being [\s+]: the pieces between
    the maximal runs of white space, empty pieces at the two ends kept.
    [cur] is the piece being read (reversed), [in_ws] tells that the
    previous character was white space. *)
Fixpoint ws_split_go (cur : list ascii) (in_ws : bool) (s : string)
  : list string :=
  match s with
  | EmptyString => [of_rev cur]
  | String c s' =>
      if is_space c
      then if in_ws then ws_split_go cur true s'
           else of_rev cur :: ws_split_go [] true s'
      else ws_split_go (c :: cur) false s'
  end.

Definition ws_split (s : string) : list string := ws_split_go [] false s.

(** [RE_WHITESPACE.sub(' ', s)]: each maximal run of white space becomes
    one space. *)
Fixpoint ws_sub_go (in_ws : bool) (s : string) : string :=
  match s with
  | EmptyString => EmptyString
  | String c s' =>
      if is_space c
      then if in_ws then ws_sub_go true s' else String " " (ws_sub_go true s')
      else String c (ws_sub_go false s')
  end.

Definition ws_sub (s : string) : string := ws_sub_go false s.

(** [re.findall(r'\b[\w\']+\b', s)].  A match lies inside one maximal run
    of characters of the class [[\w']]; the two [\b] force it to start and
    to end at a word character, the greedy [+] makes it reach from the
    first word character of the run to the last one, and a run of
    apostrophes alone has no match.  [tok] is the match read so far
    (reversed, empty before the first word character), [pend] the
    apostrophes read since its last word character. *)
Definition flush (tok : list ascii) : list string :=
  match tok with [] => [] | _ => [of_rev tok] end.

Fixpoint findall_go (tok pend : list ascii) (s : string) : list string :=
  match s with
  | EmptyString => flush tok
  | String c s' =>
      if is_word c then findall_go (c :: pend ++ tok) [] s'
      else if is_apostrophe c then
        match tok with
        | [] => findall_go [] [] s'
        | _ => findall_go tok (c :: pend) s'
        end
      else flush tok ++ findall_go [] [] s'
  end.

Definition findall_words (s : string) : list string := findall_go [] [] s.

End Py.

(** ** Configuration ([config.py]) *)

Definition dquote : string := String (ascii_of_N 34) EmptyString.

(** [MINIMAL_REPLACEMENTS], in the order of the dictionary literal. *)
Definition MINIMAL_REPLACEMENTS : list (string * string) :=
  [ ("(", " "); (")", " "); ("[", " "); ("]", " "); ("{", " "); ("}", " ");
    ("!", ""); ("?", ""); (".", "");
    ("&", " and "); ("+", " and ");
    ("/", " "); ("\", " ");
    (" - ", " "); ("-", " "); ("_", " ");
    (":", ""); (";", ""); (dquote, "") ].

Definition REUNION_TOUR_RAW_NAMES : list string := ["reunion tour"; "reunion"].

(** ** Cells *)

(** A text cell of a DataFrame: a string, or the missing value. *)
Inductive cell := NaN | Str (s : string).

(** [pd.isna(x)] *)
Definition isna (x : cell) : bool :=
  match x with NaN => true | Str _ => false end.

(** [not x]: the missing value is a float that is not zero, hence true. *)
Definition falsy (x : cell) : bool :=
  match x with NaN => false | Str s => Py.is_empty s end.

(** [str(x)] *)
Definition py_str (x : cell) : string :=
  match x with NaN => "nan" | Str s => s end.

#[global] Instance cell_eq_dec : EqDecision cell.
Proof. solve_decision. Defined.

(** ** Helper functions of [normalize_data.py] *)

Definition apply_replacements (s : string) : string :=
  fold_left (fun acc '(old, new) => Py.replace old new acc) MINIMAL_REPLACEMENTS s.

Definition preprocess_title_for_matching (title : cell) : list string :=
  if isna title || falsy title then []
  else Py.findall_words (apply_replacements (Py.lower (py_str title))).

Definition get_canonical_display_title (title : cell) : string :=
  if isna title || falsy title then "Unknown Title"
  else
    let title_str := apply_replacements (py_str title) in
    let words := Py.ws_split (Py.strip title_str) in
    let display_title :=
      Py.join " "
        (map Py.capitalize (List.filter (fun w => negb (Py.is_empty w)) words)) in
    let display_title := Py.strip (Py.ws_sub display_title) in
    let display_title :=
      if String.eqb display_title "4Th Of July Asbury Park Sandy"
      then "4th Of July Asbury Park (Sandy)" else display_title in
    let display_title :=
      if String.eqb display_title "Born In The Usa"
      then "Born In The U.S.A." else display_title in
    if Py.is_empty display_title then "Unknown Title" else display_title.

Definition get_album_from_session (session : cell) : string :=
  if isna session then "Unknown"
  else
    let album_name := Py.strip (Py.ws_sub (py_str session)) in
    if String.eqb (Py.lower album_name) "born in the usa"
    then "Born in the U.S.A." else album_name.

(** ** Sequence matcher *)

(** [c in it] on an iterator: the iterator is advanced until an element
    equal to [c] has been read, or to its end.  The result is the answer
    and what is left of the iterator. *)
Fixpoint iter_contains (c : string) (it : list string) : bool * list string :=
  match it with
  | [] => (false, [])
  | x :: it' => if String.eqb x c then (true, it') else iter_contains c it'
  end.

(** [all(c in it for c in needle)] with [it = iter(haystack)] *)
Fixpoint is_subsequence (needle haystack : list string) : bool :=
  match needle with
  | [] => true
  | c :: needle' =>
      let '(found, it') := iter_contains c haystack in
      if found then is_subsequence needle' it' else false
  end.

Definition is_nil {A} (l : list A) : bool :=
  match l with [] => true | _ => false end.

(** The loop over [canonical_map.items()] that fills [matches]. *)
Fixpoint collect_matches (raw_title_words : list string)
    (items : list (Z * list string)) : list (nat * Z) :=
  match items with
  | [] => []
  | (song_id, canonical_words) :: rest =>
      if is_nil canonical_words then collect_matches raw_title_words rest
      else if is_subsequence canonical_words raw_title_words
      then (length canonical_words, song_id) :: collect_matches raw_title_words rest
      else collect_matches raw_title_words rest
  end.

(** [matches.sort(key=lambda x: x[0], reverse=True)]: a stable sort on the
    first component, largest first; elements with equal keys keep their
    order. *)
Fixpoint insert_desc (x : nat * Z) (l : list (nat * Z)) : list (nat * Z) :=
  match l with
  | [] => [x]
  | y :: l' => if (fst y <=? fst x)%nat then x :: l else y :: insert_desc x l'
  end.

Fixpoint sort_desc (l : list (nat * Z)) : list (nat * Z) :=
  match l with
  | [] => []
  | x :: l' => insert_desc x (sort_desc l')
  end.

Definition find_match_by_sequence (raw_title_words : list string)
    (canonical_map : list (Z * list string)) : option Z :=
  if is_nil raw_title_words then None
  else
    match sort_desc (collect_matches raw_title_words canonical_map) with
    | [] => None
    | m :: _ => Some (snd m)
    end.

(** The candidate relation in the words of the specification: every token
    of [c] occurs in [q], in the same relative order, other tokens of [q]
    in between allowed. *)
Inductive OrderedSubseq : list string -> list string -> Prop :=
  | subseq_nil q : OrderedSubseq [] q
  | subseq_take x c q : OrderedSubseq c q -> OrderedSubseq (x :: c) (x :: q)
  | subseq_skip x c q : OrderedSubseq c q -> OrderedSubseq c (x :: q).

(** ** Song catalog builder *)

(** Iteration order of the sets of strings of one run of the interpreter:
    the elements of the set (given in insertion order) come out in some
    order that the run fixes. *)
Record set_order := {
  set_iter : list string -> list string;
  set_iter_perm : forall l, Permutation (set_iter l) l
}.

Record session_row := {
  s_session : cell;
  s_type : cell;
  s_song : cell
}.

(** The position cell: a string or a number, as the reader of the raw file
    left it. *)
Inductive value := VNaN | VStr (s : string) | VInt (z : Z).

Record setlist_row := {
  r_date : cell;
  r_venue : cell;
  r_tour : cell;
  r_city : cell;
  r_statecode : cell;
  r_statename : cell;
  r_countrycode : cell;
  r_countryname : cell;
  r_shownotes : cell;
  r_song : cell;
  r_position : value;
  r_notes : cell
}.

(** An element of [all_songs_data] / [new_songs_data]. *)
Record song_data := {
  sd_title : string;
  sd_album : string;
  sd_is_outtake : Z;
  sd_processed_words : list string
}.

(** A row of the songs table. *)
Record song := {
  song_id : Z;
  title : string;
  album : string;
  is_outtake : Z
}.

(** Body of the loop over the session rows; the state is
    [(all_songs_data, seen_preprocessed_words)]. *)
Definition session_step (st : list song_data * gset (list string))
    (row : session_row) : list song_data * gset (list string) :=
  let '(all_songs_data, seen) := st in
  let title_raw := s_song row in
  if isna title_raw || falsy title_raw then st
  else
    let processed_words := preprocess_title_for_matching title_raw in
    let display_title := get_canonical_display_title title_raw in
    if is_nil processed_words || Py.is_empty display_title then st
    else if bool_decide (processed_words ∈ seen) then st
    else
      let album_name := get_album_from_session (s_session row) in
      let outtake :=
        if String.eqb (Py.lower (py_str (s_type row))) "outtake" then 1 else 0 in
      (all_songs_data ++
         [ {| sd_title := display_title; sd_album := album_name;
              sd_is_outtake := outtake; sd_processed_words := processed_words |} ],
       {[ processed_words ]} ∪ seen).

(** [Series.drop_duplicates()] and [DataFrame.drop_duplicates(subset=..,
    keep='first')]: the first row of each key stays. *)
Fixpoint drop_duplicates_go {A K} `{EqDecision K} (key : A -> K)
    (seen : list K) (l : list A) : list A :=
  match l with
  | [] => []
  | x :: l' =>
      if bool_decide (key x ∈ seen) then drop_duplicates_go key seen l'
      else x :: drop_duplicates_go key (key x :: seen) l'
  end.

Definition drop_duplicates {A K} `{EqDecision K} (key : A -> K) (l : list A)
  : list A := drop_duplicates_go key [] l.

(** [s.add(t)] on a set kept in insertion order *)
Definition set_add (t : string) (s : list string) : list string :=
  if bool_decide (t ∈ s) then s else s ++ [t].

(** [missing_songs_map[k].add(t)] on the [defaultdict(set)]: a new key goes
    to the end of the dictionary. *)
Fixpoint group_add (k : list string) (t : string)
    (m : list (list string * list string)) : list (list string * list string) :=
  match m with
  | [] => [(k, set_add t [])]
  | (k', ts) :: m' =>
      if bool_decide (k' = k) then (k', set_add t ts) :: m'
      else (k', ts) :: group_add k t m'
  end.

(** Body of the loop over [unique_setlist_titles]. *)
Definition missing_step (known : gset (list string))
    (m : list (list string * list string)) (title_raw : cell)
  : list (list string * list string) :=
  if isna title_raw || falsy title_raw then m
  else
    let processed_words := preprocess_title_for_matching title_raw in
    if is_nil processed_words then m
    else if bool_decide (processed_words ∈ known) then m
    else group_add processed_words (py_str title_raw) m.

(** [min(it, key=len)]: the first of the shortest elements in the order
    the iterable yields them; [None] is the [ValueError] on an empty one. *)
Fixpoint min_by_len_go (best : string) (l : list string) : string :=
  match l with
  | [] => best
  | x :: l' =>
      if (String.length x <? String.length best)%nat
      then min_by_len_go x l' else min_by_len_go best l'
  end.

Definition min_by_len (l : list string) : option string :=
  match l with
  | [] => None
  | x :: l' => Some (min_by_len_go x l')
  end.

(** The loop over [missing_songs_map.items()]; the state is
    [new_songs_data] (the two sets it also extends are not read again). *)
Fixpoint cover_loop (o : set_order) (m : list (list string * list string))
    (new_songs_data : list song_data) : option (list song_data) :=
  match m with
  | [] => Some new_songs_data
  | (processed_words, original_titles) :: m' =>
      match min_by_len (set_iter o original_titles) with
      | None => None
      | Some representative_raw =>
          let display_title := get_canonical_display_title (Str representative_raw) in
          if Py.is_empty display_title then cover_loop o m' new_songs_data
          else cover_loop o m'
                 (new_songs_data ++
                    [ {| sd_title := display_title; sd_album := "Cover";
                         sd_is_outtake := 0; sd_processed_words := processed_words |} ])
      end
  end.

(** [range(1, n + 1)] *)
Definition range1 (n : nat) : list Z := map (fun i => Z.of_nat i + 1) (seq 0 n).

Definition create_final_songs_table (o : set_order)
    (songs_sessions_df : list session_row) (setlists_input_df : list setlist_row)
  : option (list song * list (Z * list string)) :=
  let '(all_songs_data, seen) :=
    fold_left session_step songs_sessions_df ([], ∅) in
  let initial_songs_df := all_songs_data in
  (* initial_songs_df['_processed_words'] is a KeyError on a frame
     without rows *)
  if is_nil initial_songs_df then None
  else
    let known : gset (list string) :=
      list_to_set (map sd_processed_words initial_songs_df) in
    let unique_setlist_titles :=
      drop_duplicates id (map r_song setlists_input_df) in
    let missing_songs_map :=
      fold_left (missing_step known) unique_setlist_titles [] in
    match cover_loop o missing_songs_map [] with
    | None => None
    | Some new_songs_data =>
        let final_songs_df :=
          drop_duplicates sd_processed_words (initial_songs_df ++ new_songs_data) in
        let ids := range1 (length final_songs_df) in
        let songs_table_final :=
          zip_with (fun i d => {| song_id := i; title := sd_title d;
                                  album := sd_album d;
                                  is_outtake := sd_is_outtake d |})
                   ids final_songs_df in
        let matching_map :=
          zip_with (fun i d => (i, sd_processed_words d)) ids final_songs_df in
        Some (songs_table_final, matching_map)
    end.

(** ** The library *)

(** What [pd.to_numeric(x, errors='coerce')] gives for a position cell:
    [NaN] (also when the call raises one of the two exceptions that the
    linker catches), a finite number, of which the model keeps what [int]
    makes of it, or an infinity. *)
Inductive numeric :=
  | NumNaN
  | NumInt (z : Z)
  | NumInf.

(** The readings of the library in one run.  They differ between the
    versions of the library, and the reading of a date can depend on the
    clock of the run, so the model takes them as the run finds them:
    - [to_datetime s] is [pd.to_datetime(s, format='%m/%d/%Y',
      errors='coerce')] followed by the two [strftime] calls: the pair
      [(db_date_str, output_year)], or [None] for [NaT];
    - [to_numeric x] is the reading of a position cell.
    One string is read the same way throughout one run: a run is taken to
    be short enough for the clock not to change the reading of a date. *)
Record library := {
  to_datetime : string -> option (string * string);
  to_numeric : value -> numeric
}.

(** [0 if pd.isna(numeric_pos) else int(numeric_pos)]; [int] raises an
    [OverflowError] on an infinity, which is [None] here. *)
Definition position_of (n : numeric) : option Z :=
  match n with
  | NumNaN => Some 0
  | NumInt z => Some z
  | NumInf => None
  end.

(** [for x in l: st = f(st, x)], where a pass of the loop can raise. *)
Fixpoint foldl_opt {A B} (f : B -> A -> option B) (l : list A) (st : B) : option B :=
  match l with
  | [] => Some st
  | x :: l' =>
      match f st x with
      | Some st' => foldl_opt f l' st'
      | None => None
      end
  end.

(** *** The library of the concrete runs *)


Definition digit_val (c : ascii) : option Z :=
  if Py.is_digit c then Some (Z.of_N (Py.code c) - 48) else None.

(** Value of a string of decimal digits; [None] when another character
    occurs or the string is empty. *)
Fixpoint digits_go (acc : Z) (s : string) : option Z :=
  match s with
  | EmptyString => Some acc
  | String c s' =>
      match digit_val c with
      | Some d => digits_go (10 * acc + d) s'
      | None => None
      end
  end.

Definition digits (s : string) : option Z :=
  if Py.is_empty s then None else digits_go 0 s.

(** The pieces of [s] between the occurrences of [sep]. *)
Fixpoint split_char_go (sep : ascii) (cur : list ascii) (s : string) : list string :=
  match s with
  | EmptyString => [Py.of_rev cur]
  | String c s' =>
      if Ascii.eqb c sep then Py.of_rev cur :: split_char_go sep [] s'
      else split_char_go sep (c :: cur) s'
  end.

Definition split_char (sep : ascii) (s : string) : list string :=
  split_char_go sep [] s.

Definition is_leap (y : Z) : bool :=
  ((y mod 4 =? 0) && negb (y mod 100 =? 0)) || (y mod 400 =? 0).

Definition days_in_month (y m : Z) : Z :=
  if m =? 2 then (if is_leap y then 29 else 28)
  else if (m =? 4) || (m =? 6) || (m =? 9) || (m =? 11) then 30
  else 31.

(** The directive [%m]: [1[0-2]|0[1-9]|[1-9]]. *)
Definition parse_month (s : string) : option Z :=
  match digits s with
  | Some m =>
      if ((String.length s =? 1)%nat && (1 <=? m))
         || ((String.length s =? 2)%nat && (1 <=? m) && (m <=? 12))
      then Some m else None
  | None => None
  end.

(** The directive [%d]: [3[0-1]|[1-2]\d|0[1-9]|[1-9]| [1-9]]. *)
Definition parse_day (s : string) : option Z :=
  let s' := match s with String " " t => t | _ => s end in
  match digits s' with
  | Some d =>
      if ((String.length s' =? 1)%nat && (1 <=? d))
         || ((String.length s =? 2)%nat && (String.length s' =? 2)%nat
             && (1 <=? d) && (d <=? 31))
      then Some d else None
  | None => None
  end.

(** The directive [%Y]: four digits. *)
Definition parse_year (s : string) : option Z :=
  if (String.length s =? 4)%nat then digits s else None.

Definition date_leb (a b : Z * Z * Z) : bool :=
  let '(y1, m1, d1) := a in
  let '(y2, m2, d2) := b in
  (y1 <? y2) || ((y1 =? y2) && ((m1 <? m2) || ((m1 =? m2) && (d1 <=? d2)))).

Definition pad2 (s : string) : string :=
  match s with
  | String " " t => "0" +:+ t
  | String _ EmptyString => "0" +:+ s
  | _ => s
  end.

(** The reading of a date by the format [%m/%d/%Y]: the whole string has
    to match the format, the day has to exist in the calendar, and the date
    has to lie in the span of nanosecond timestamps (1677-09-22 ..
    2262-04-11), inside which the versions of the library agree.  The
    result is the pair of the date as [%Y-%m-%d] and the year.  This is
    what the library reads from the date cells of the concrete runs: dates
    of that span and strings that are no dates.  The words [now] and
    [today], which the library reads by the clock, are left to
    [clock_library]. *)
Definition strict_to_datetime (s : string) : option (string * string) :=
  match split_char "/" s with
  | [ms; ds; ys] =>
      match parse_month ms, parse_day ds, parse_year ys with
      | Some m, Some d, Some y =>
          if (d <=? days_in_month y m)
             && date_leb (1677, 9, 22) (y, m, d) && date_leb (y, m, d) (2262, 4, 11)
          then Some (ys +:+ "-" +:+ pad2 ms +:+ "-" +:+ pad2 ds, ys)
          else None
      | _, _, _ => None
      end
  | _ => None
  end.

(** The reading of a position cell that is a number, an integer literal
    (an optional sign, then decimal digits), the string [inf], or a string
    without a digit, which is no number; these are the position cells of
    the concrete runs. *)
Definition literal_to_numeric (x : value) : numeric :=
  let of_digits (r : option Z) :=
    match r with Some z => NumInt z | None => NumNaN end in
  match x with
  | VNaN => NumNaN
  | VInt z => NumInt z
  | VStr (String "-" t) => of_digits (option_map Z.opp (digits t))
  | VStr (String "+" t) => of_digits (digits t)
  | VStr s => if String.eqb s "inf" then NumInf else of_digits (digits s)
  end.

(** The library of the concrete runs: on their cells it reads what every
    version of the library reads. *)
Definition demo_library : library :=
  {| to_datetime := strict_to_datetime; to_numeric := literal_to_numeric |}.

(** A library that reads the cells [now] and [today] as the day of the
    run, as the versions of the library from 2.0 on do, and every other
    cell as [demo_library] does. *)
Definition clock_library (today : string * string) : library :=
  {| to_datetime := fun s =>
       if String.eqb s "now" || String.eqb s "today" then Some today
       else strict_to_datetime s;
     to_numeric := literal_to_numeric |}.

(** ** Show resolver and setlist linker *)

Section Run.

Context (lib : library).

Record show := {
  show_id : Z;
  date : option string;
  tour : string;
  venue : string;
  city : string;
  state_name : option string;
  state_code : option string;
  country_name : option string;
  country_code : option string;
  show_notes : option string
}.

Record setlist_entry := {
  setlist_entry_id : Z;
  e_show_id : Z;
  e_song_id : Z;
  position : Z;
  notes : string
}.

(** [x if x else None] *)
Definition or_none (x : string) : option string :=
  if Py.is_empty x then None else Some x.

(** [x if x else d] *)
Definition or_default (d x : string) : string :=
  if Py.is_empty x then d else x.

(** State of the loop that identifies the shows. *)
Record show_state := {
  shows_data : list show;
  show_keys : gset (option string * string);
  original_show_key_to_id_map : gmap (string * string) Z;
  show_id_counter : Z
}.

Definition show_state_init : show_state :=
  {| shows_data := []; show_keys := ∅;
     original_show_key_to_id_map := ∅; show_id_counter := 1 |}.

(** The identity key of a row, [(db_date_str, venue_str)]. *)
Definition unique_show_key (row : setlist_row) : option string * string :=
  let original_date_str := Py.strip (py_str (r_date row)) in
  let original_venue_str := Py.strip (py_str (r_venue row)) in
  (option_map fst (to_datetime lib original_date_str),
   or_default "Unknown Venue" original_venue_str).

(** The key of a row in the map handed to the linker. *)
Definition original_input_key (row : setlist_row) : string * string :=
  (Py.strip (py_str (r_date row)), Py.strip (py_str (r_venue row))).

Definition show_step (st : show_state) (row : setlist_row) : show_state :=
  let original_date_str := Py.strip (py_str (r_date row)) in
  let original_venue_str := Py.strip (py_str (r_venue row)) in
  if Py.is_empty original_date_str || Py.is_empty original_venue_str then st
  else
    let parsed := to_datetime lib original_date_str in
    let db_date_str := option_map fst parsed in
    let output_year := option_map snd parsed in
    let venue_str := or_default "Unknown Venue" original_venue_str in
    let key := (db_date_str, venue_str) in
    if bool_decide (key ∈ show_keys st) then st
    else
      let current_show_id := show_id_counter st in
      let raw_tour_name := Py.strip (py_str (r_tour row)) in
      let raw_city := Py.strip (py_str (r_city row)) in
      let raw_state_code := Py.strip (py_str (r_statecode row)) in
      let raw_state_name := Py.strip (py_str (r_statename row)) in
      let raw_country_code := Py.strip (py_str (r_countrycode row)) in
      let raw_country_name := Py.strip (py_str (r_countryname row)) in
      let raw_show_notes := Py.strip (py_str (r_shownotes row)) in
      let final_tour_name :=
        if Py.is_empty raw_tour_name then
          match output_year with
          | Some y => if Py.is_empty y then "Unknown Tour" else y
          | None => "Unknown Tour"
          end
        else raw_tour_name in
      let sh :=
        {| show_id := current_show_id; date := db_date_str;
           tour := final_tour_name; venue := venue_str;
           city := or_default "Unknown City" raw_city;
           state_name := or_none raw_state_name;
           state_code := or_none raw_state_code;
           country_name := or_none raw_country_name;
           country_code := or_none raw_country_code;
           show_notes := or_none raw_show_notes |} in
      let okey := (original_date_str, original_venue_str) in
      {| shows_data := shows_data st ++ [sh];
         show_keys := {[ key ]} ∪ show_keys st;
         original_show_key_to_id_map :=
           match original_show_key_to_id_map st !! okey with
           | Some _ => original_show_key_to_id_map st
           | None => <[ okey := current_show_id ]> (original_show_key_to_id_map st)
           end;
         show_id_counter := show_id_counter st + 1 |}.

(** The first loop of [create_shows_setlists_tables]: the shows and the
    map from original keys to show ids. *)
Definition resolve_shows (setlists_input_df : list setlist_row) : show_state :=
  fold_left show_step setlists_input_df show_state_init.

Definition standard_bitusa_words : list string :=
  preprocess_title_for_matching (Str "Born In The USA").
Definition reunion_bitusa_words : list string :=
  preprocess_title_for_matching (Str "Born In The USA (Acoustic)").

(** The loop that looks the two monitored songs up in the catalog index;
    the state is [(standard_bitusa_id, reunion_bitusa_id)]. *)
Definition bitusa_step (st : option Z * option Z) (item : Z * list string)
  : option Z * option Z :=
  let '(s_id, words_list) := item in
  if bool_decide (words_list = standard_bitusa_words) then (Some s_id, snd st)
  else if bool_decide (words_list = reunion_bitusa_words) then (fst st, Some s_id)
  else st.

Definition bitusa_ids (canonical_matching_map : list (Z * list string))
  : option Z * option Z :=
  fold_left bitusa_step canonical_matching_map (None, None).

(** Truth value of an optional identifier: [None] and [0] are false. *)
Definition truthy (x : option Z) : bool :=
  match x with Some z => negb (z =? 0) | None => false end.

Definition is_some {A} (x : option A) : bool :=
  match x with Some _ => true | None => false end.

(** The sequence matching of one row, with the label it is counted
    under. *)
Definition sequence_choice (canonical_matching_map : list (Z * list string))
    (raw_title_words : list string) : option Z * string :=
  let found := find_match_by_sequence raw_title_words canonical_matching_map in
  if truthy found then (found, "Sequence Match (Success)")
  else (found, "Sequence Match (Fail)").

(** The choice of the song of one row: the contextual logic, then the
    sequence matching if the former left [song_id_to_use] at [None].  The
    result is [(song_id_to_use, match_method)]. *)
Definition choose_song (canonical_matching_map : list (Z * list string))
    (ids : option Z * option Z) (tour_name : string)
    (raw_title_words : list string) : option Z * string :=
  let '(standard_bitusa_id, reunion_bitusa_id) := ids in
  let '(song_id_to_use, match_method) :=
    if bool_decide (raw_title_words = standard_bitusa_words)
       && is_some standard_bitusa_id
    then
      if bool_decide (Py.lower tour_name ∈ REUNION_TOUR_RAW_NAMES)
         && is_some reunion_bitusa_id
      then (reunion_bitusa_id, "Contextual (Reunion Tour)")
      else (standard_bitusa_id, "Contextual (Standard BITUSA)")
    else (None, "Sequence Match") in
  if is_some song_id_to_use then (song_id_to_use, match_method)
  else sequence_choice canonical_matching_map raw_title_words.

(** [match_stats[m] += 1] on the [defaultdict(int)] *)
Definition bump (m : string) (stats : gmap string Z) : gmap string Z :=
  <[ m := default 0 (stats !! m) + 1 ]> stats.

(** State of the loop that creates the setlist entries. *)
Record link_state := {
  setlists : list setlist_entry;
  setlist_entry_id_counter : Z;
  setlist_keys : gset (Z * Z * Z);
  match_stats : gmap string Z
}.

Definition link_state_init : link_state :=
  {| setlists := []; setlist_entry_id_counter := 1;
     setlist_keys := ∅; match_stats := ∅ |}.

Definition link_step (canonical_matching_map : list (Z * list string))
    (ids : option Z * option Z)
    (final_show_mapping : gmap (string * string) Z)
    (show_id_to_tour_map : gmap Z string)
    (st : link_state) (row : setlist_row) : option link_state :=
  let show_id_opt := final_show_mapping !! original_input_key row in
  let song_title_raw := Py.strip (py_str (r_song row)) in
  match show_id_opt with
  | None => Some st
  | Some sid =>
      if sid =? 0 then Some st
      else if Py.is_empty song_title_raw then Some st
      else
        let raw_title_words := preprocess_title_for_matching (Str song_title_raw) in
        if is_nil raw_title_words then Some st
        else
          let tour_name := default "" (show_id_to_tour_map !! sid) in
          let '(song_id_to_use, match_method) :=
            choose_song canonical_matching_map ids tour_name raw_title_words in
          let stats := bump match_method (match_stats st) in
          match song_id_to_use with
          | None =>
              Some {| setlists := setlists st;
                      setlist_entry_id_counter := setlist_entry_id_counter st;
                      setlist_keys := setlist_keys st; match_stats := stats |}
          | Some song =>
              if song =? 0 then
                Some {| setlists := setlists st;
                        setlist_entry_id_counter := setlist_entry_id_counter st;
                        setlist_keys := setlist_keys st; match_stats := stats |}
              else
                match position_of (to_numeric lib (r_position row)) with
                | None => None   (* the OverflowError is not caught *)
                | Some pos =>
                    let setlist_key := (sid, song, pos) in
                    if bool_decide (setlist_key ∈ setlist_keys st) then
                      Some {| setlists := setlists st;
                              setlist_entry_id_counter := setlist_entry_id_counter st;
                              setlist_keys := setlist_keys st; match_stats := stats |}
                    else
                      Some {| setlists := setlists st ++
                                [ {| setlist_entry_id := setlist_entry_id_counter st;
                                     e_show_id := sid; e_song_id := song;
                                     position := pos;
                                     notes := Py.strip (py_str (r_notes row)) |} ];
                              setlist_entry_id_counter := setlist_entry_id_counter st + 1;
                              setlist_keys := {[ setlist_key ]} ∪ setlist_keys st;
                              match_stats := stats |}
                end
          end
  end.

(** The second loop of [create_shows_setlists_tables]; [None] when a pass
    of the loop raises. *)
Definition link_rows (canonical_matching_map : list (Z * list string))
    (res : show_state) (setlists_input_df : list setlist_row) : option link_state :=
  let show_id_to_tour_map : gmap Z string :=
    fold_left (fun m sh => <[ show_id sh := tour sh ]> m) (shows_data res) ∅ in
  foldl_opt
    (link_step canonical_matching_map (bitusa_ids canonical_matching_map)
       (original_show_key_to_id_map res) show_id_to_tour_map)
    setlists_input_df link_state_init.

Definition create_shows_setlists_tables (setlists_input_df : list setlist_row)
    (canonical_matching_map : list (Z * list string))
  : option (list show * list setlist_entry) :=
  let res := resolve_shows setlists_input_df in
  (* shows_df.set_index('show_id') is a KeyError on a frame without rows *)
  if is_nil (shows_data res) then None
  else
    match link_rows canonical_matching_map res setlists_input_df with
    | None => None
    | Some st => Some (shows_data res, setlists st)
    end.

(** ** Batch driver *)

(** An input file: absent, present but not loadable, or loaded. *)
Inductive input_file (A : Type) :=
  | Missing
  | Unreadable
  | Loaded (rows : A).
#[global] Arguments Missing {A}.
#[global] Arguments Unreadable {A}.
#[global] Arguments Loaded {A} rows.

(** The output directory and the three output files. *)
Record outputs := {
  output_dir : bool;
  songs_csv : option (list song);
  shows_csv : option (list show);
  setlists_csv : option (list setlist_entry)
}.

Inductive outcome :=
  | Exited (msg : string)      (* sys.exit *)
  | Crashed                    (* uncaught exception *)
  | Returned.

(** The three [to_csv] calls inside one [try]; [fail_at] is the call that
    raises, if one does ([0] stands for the [mkdir] before them).  The
    handler logs the exception and the function returns. *)
Definition save_outputs (fail_at : option nat) (songs : list song)
    (shows : list show) (entries : list setlist_entry) (fs : outputs) : outputs :=
  match fail_at with
  | Some 0%nat => fs
  | Some 1%nat =>
      {| output_dir := true; songs_csv := songs_csv fs;
         shows_csv := shows_csv fs; setlists_csv := setlists_csv fs |}
  | Some 2%nat =>
      {| output_dir := true; songs_csv := Some songs;
         shows_csv := shows_csv fs; setlists_csv := setlists_csv fs |}
  | Some 3%nat =>
      {| output_dir := true; songs_csv := Some songs;
         shows_csv := Some shows; setlists_csv := setlists_csv fs |}
  | _ =>
      {| output_dir := true; songs_csv := Some songs;
         shows_csv := Some shows; setlists_csv := Some entries |}
  end.

(** The two calls between loading and saving: the three tables, or
    [None] when one of the calls raises. *)
Definition build_tables (o : set_order) (songs_sessions_df : list session_row)
    (setlists_input_df : list setlist_row)
  : option (list song * list show * list setlist_entry) :=
  match create_final_songs_table o songs_sessions_df setlists_input_df with
  | None => None
  | Some (songs_table_final, canonical_matching_map) =>
      match create_shows_setlists_tables setlists_input_df canonical_matching_map with
      | None => None
      | Some (shows_table, setlists_table) =>
          Some (songs_table_final, shows_table, setlists_table)
      end
  end.

Definition normalize_database_schema (o : set_order)
    (songs_sessions_file : input_file (list session_row))
    (setlists_raw_file : input_file (list setlist_row))
    (fail_at : option nat) (fs : outputs) : outcome * outputs :=
  match songs_sessions_file, setlists_raw_file with
  | Missing, _ => (Exited "Exiting: Songs/Sessions file not found", fs)
  | _, Missing => (Exited "Exiting: Raw Setlists file not found", fs)
  | Unreadable, _ => (Exited "Exiting due to load error.", fs)
  | _, Unreadable => (Exited "Exiting due to load error.", fs)
  | Loaded songs_sessions_df, Loaded setlists_input_df =>
      match build_tables o songs_sessions_df setlists_input_df with
      | None => (Crashed, fs)
      | Some (songs_table_final, shows_table, setlists_table) =>
          (Returned,
           save_outputs fail_at songs_table_final shows_table setlists_table fs)
      end
  end.

(** Running the script: the module creates the output directory when it
    is loaded, then calls the driver. *)
Definition run_script (o : set_order)
    (songs_sessions_file : input_file (list session_row))
    (setlists_raw_file : input_file (list setlist_row))
    (fail_at : option nat) (fs : outputs) : outcome * outputs :=
  normalize_database_schema o songs_sessions_file setlists_raw_file fail_at
    {| output_dir := true; songs_csv := songs_csv fs;
       shows_csv := shows_csv fs; setlists_csv := setlists_csv fs |}.

(** ** Workflow ([run_workflow.py]) *)

(** The exit status of the interpreter that ran [normalize_data.py]:
    [sys.exit] with a message and an uncaught exception both give 1. *)
Definition exit_status (r : outcome) : Z :=
  match r with
  | Returned => 0
  | Exited _ => 1
  | Crashed => 1
  end.

(** [run_script] of the workflow: [subprocess.run] with [check=True] raises
    on a status other than 0, and every exception is answered by [False].
    [None] is a script that could not be started. *)
Definition workflow_run_script (status : option Z) : bool :=
  match status with
  | Some z => z =? 0
  | None => false
  end.

Inductive workflow_end :=
  | StoppedInNormalize      (* sys.exit(1) after the first step *)
  | StoppedInPopulate       (* sys.exit(1) after the second step *)
  | WorkflowCompleted.

(** What a run of the workflow leaves: how it ended, the output files, and
    the files that [populate_database.py] was started on, if it was
    started. *)
Record workflow_result := {
  w_end : workflow_end;
  w_files : outputs;
  w_populate_input : option outputs
}.

(** The main block of [run_workflow.py], up to the summary that it logs at
    the end.  The first script is taken to start; [populate] stands for the
    run of [populate_database.py] on the output files: it gives the exit
    status, or [None] when the script cannot be started. *)
Definition run_workflow (o : set_order)
    (songs_sessions_file : input_file (list session_row))
    (setlists_raw_file : input_file (list setlist_row))
    (fail_at : option nat) (populate : outputs -> option Z) (fs : outputs)
  : workflow_result :=
  let '(r, fs') := run_script o songs_sessions_file setlists_raw_file fail_at fs in
  if negb (workflow_run_script (Some (exit_status r))) then
    {| w_end := StoppedInNormalize; w_files := fs'; w_populate_input := None |}
  else if negb (workflow_run_script (populate fs')) then
    {| w_end := StoppedInPopulate; w_files := fs'; w_populate_input := Some fs' |}
  else
    {| w_end := WorkflowCompleted; w_files := fs'; w_populate_input := Some fs' |}.

(** * Notions used in the statements *)

Definition order_id : set_order :=
  {| set_iter := fun l => l; set_iter_perm := fun l => Permutation_refl l |}.

Definition order_rev : set_order :=
  {| set_iter := @rev string; set_iter_perm := fun l => Permutation_sym (Permutation_rev l) |}.

Definition srow (session type song : string) : session_row :=
  {| s_session := Str session; s_type := Str type; s_song := Str song |}.

Definition lrow (date venue tour song : string) (pos : value) : setlist_row :=
  {| r_date := Str date; r_venue := Str venue; r_tour := Str tour;
     r_city := Str ""; r_statecode := Str ""; r_statename := Str "";
     r_countrycode := Str ""; r_countryname := Str ""; r_shownotes := Str "";
     r_song := Str song; r_position := pos; r_notes := Str "" |}.

(** A candidate of a query, as the matcher sees it: a non-empty token
    sequence that is an ordered subsequence of the query. *)
Definition candidate (q ws : list string) : Prop :=
  ws <> [] /\ OrderedSubseq ws q.

(** The token sequence of a session row, and the entry made of it. *)
Definition session_tokens (row : session_row) : list string :=
  preprocess_title_for_matching (s_song row).

Definition session_entry (row : session_row) : song_data :=
  {| sd_title := get_canonical_display_title (s_song row);
     sd_album := get_album_from_session (s_session row);
     sd_is_outtake :=
       if String.eqb (Py.lower (py_str (s_type row))) "outtake" then 1 else 0;
     sd_processed_words := session_tokens row |}.

Definition has_tokens (k : list string) : bool := negb (is_nil k).

(** The session songs: the first row of each non-empty token sequence. *)
Definition session_songs (ses : list session_row) : list song_data :=
  drop_duplicates sd_processed_words
    (map session_entry (List.filter (fun r => has_tokens (session_tokens r)) ses)).

(** The token sequences of the session songs, in catalog order. *)
Definition session_token_sequences (ses : list session_row) : list (list string) :=
  drop_duplicates id (List.filter has_tokens (map session_tokens ses)).

(** The setlist titles that become covers: a non-empty token sequence
    that no session song has. *)
Definition eligible (known : list (list string)) (k : list string) : bool :=
  has_tokens k && negb (bool_decide (k ∈ known)).

(** Every group of the map is non-empty and holds only strings that
    satisfy [P] for the key of the group. *)
Definition group_good (P : list string -> string -> Prop)
    (e : list string * list string) : Prop :=
  e.2 <> [] /\ forall s, s ∈ e.2 -> P e.1 s.

(** The representative of a group in a run, and the cover made of it. *)
Definition representative (o : set_order) (ts : list string) : string :=
  default "" (min_by_len (set_iter o ts)).

Definition cover_entry (o : set_order) (e : list string * list string) : song_data :=
  {| sd_title := get_canonical_display_title (Str (representative o e.2));
     sd_album := "Cover"; sd_is_outtake := 0; sd_processed_words := e.1 |}.

Definition setlist_token_sequences (sets : list setlist_row) : list (list string) :=
  map (fun r => preprocess_title_for_matching (r_song r)) sets.

(** The token sequences of the covers, in catalog order: the first
    occurrences, in the order of the setlist rows, of the non-empty token
    sequences that no session song has. *)
Definition cover_token_sequences (ses : list session_row)
    (sets : list setlist_row) : list (list string) :=
  drop_duplicates id
    (List.filter (eligible (session_token_sequences ses)) (setlist_token_sequences sets)).

Definition known_set (ses : list session_row) : gset (list string) :=
  list_to_set (map sd_processed_words (session_songs ses)).

Definition missing_map (ses : list session_row) (sets : list setlist_row)
  : list (list string * list string) :=
  fold_left (missing_step (known_set ses))
    (drop_duplicates id (map r_song sets)) [].

(** A raw spelling of a token sequence among the setlist titles. *)
Definition spelling (sets : list setlist_row) (k : list string) (s : string) : Prop :=
  Str s ∈ map r_song sets /\ preprocess_title_for_matching (Str s) = k.

(** The rows of the catalog before they are numbered. *)
Definition catalog_data (o : set_order) (ses : list session_row)
    (sets : list setlist_row) : list song_data :=
  session_songs ses ++ map (cover_entry o) (missing_map ses sets).

Definition number_songs (data : list song_data) : list song :=
  zip_with (fun i d => {| song_id := i; title := sd_title d;
                          album := sd_album d; is_outtake := sd_is_outtake d |})
           (range1 (length data)) data.

Definition number_tokens (data : list song_data) : list (Z * list string) :=
  zip_with (fun i d => (i, sd_processed_words d)) (range1 (length data)) data.

(** Numbering from a given position; the catalog of a concatenation. *)
Definition number_songs_from (start : nat) (data : list song_data) : list song :=
  zip_with (fun i d => {| song_id := i; title := sd_title d;
                          album := sd_album d; is_outtake := sd_is_outtake d |})
           (map (fun i => Z.of_nat i + 1) (seq start (length data))) data.

(** What the builder makes of one group of spellings. *)
Definition cover_of (sets : list setlist_row) (sg : song) (k : list string) : Prop :=
  album sg = "Cover" /\ is_outtake sg = 0 /\
  exists rep, title sg = get_canonical_display_title (Str rep) /\
    spelling sets k rep /\
    forall s, spelling sets k s -> (String.length rep <= String.length s)%nat.

(** A string of white space only (the empty string included). *)
Fixpoint all_space (s : string) : bool :=
  match s with
  | EmptyString => true
  | String c s' => Py.is_space c && all_space s'
  end.

(** A song without its title. *)
Definition untitled (sg : song) : Z * string * Z :=
  (song_id sg, album sg, is_outtake sg).

(** Spellings of one cover that have the same length have the same
    display form. *)
Definition cover_ties_agree (ses : list session_row) (sets : list setlist_row) : Prop :=
  forall k s1 s2, k ∈ cover_token_sequences ses sets ->
    spelling sets k s1 -> spelling sets k s2 ->
    String.length s1 = String.length s2 ->
    get_canonical_display_title (Str s1) = get_canonical_display_title (Str s2).

(** A row that names a show: its trimmed date and venue are not empty. *)
Definition names_show (row : setlist_row) : bool :=
  negb (Py.is_empty (Py.strip (py_str (r_date row)))
        || Py.is_empty (Py.strip (py_str (r_venue row)))).

(** The normalized date of a row ([None] when the date does not parse)
    and its venue without surrounding white space. *)
Definition normalized_date (row : setlist_row) : option string :=
  option_map fst (to_datetime lib (Py.strip (py_str (r_date row)))).

Definition trimmed_venue (row : setlist_row) : string :=
  Py.strip (py_str (r_venue row)).

(** The identity key of a show. *)
Definition show_key (sh : show) : option string * string := (date sh, venue sh).

(** The identity key that belongs to an original key. *)
Definition key_of_original (ok : string * string) : option string * string :=
  (option_map fst (to_datetime lib ok.1), or_default "Unknown Venue" ok.2).

(** What holds of the state of the show loop after the rows [pre]. *)
Record show_inv (st : show_state) (pre : list setlist_row) : Prop := {
  inv_map : forall ok id, original_show_key_to_id_map st !! ok = Some id ->
      exists sh, sh ∈ shows_data st /\ show_id sh = id /\
                 show_key sh = key_of_original ok;
  inv_keys : forall k, k ∈ show_keys st <-> k ∈ map show_key (shows_data st);
  inv_nodup : NoDup (map show_key (shows_data st));
  inv_seen : forall row, row ∈ pre -> names_show row = true ->
      unique_show_key row ∈ show_keys st;
  inv_ids : map show_id (shows_data st) = range1 (length (shows_data st));
  inv_counter : show_id_counter st = Z.of_nat (length (shows_data st)) + 1
}.

(** The title tokens of a setlist row, as the linker reads them. *)
Definition row_words (row : setlist_row) : list string :=
  preprocess_title_for_matching (Str (Py.strip (py_str (r_song row)))).

(** The identity key of a setlist entry. *)
Definition entry_key (e : setlist_entry) : Z * Z * Z :=
  (e_show_id e, e_song_id e, position e).

(** [shows_df.set_index('show_id')['tour'].to_dict()] *)
Definition tour_map (shows : list show) : gmap Z string :=
  fold_left (fun m sh => <[ show_id sh := tour sh ]> m) shows ∅.

(** A row that reaches the position step of the linker: the map of
    original keys gives it the show [sid], its title has tokens, and the
    song chosen for these tokens on the tour of the show is [song]. *)
Definition reaches_position (items : list (Z * list string))
    (ids : option Z * option Z) (fmap : gmap (string * string) Z)
    (tmap : gmap Z string) (row : setlist_row) (sid song : Z) : Prop :=
  fmap !! original_input_key row = Some sid /\ sid <> 0 /\
  row_words row <> [] /\
  (choose_song items ids (default "" (tmap !! sid)) (row_words row)).1 = Some song /\
  song <> 0.

(** The entry that the linker makes of a row. *)
Definition entry_of (n sid song pos : Z) (row : setlist_row) : setlist_entry :=
  {| setlist_entry_id := n; e_show_id := sid; e_song_id := song;
     position := pos;
     notes := Py.strip (py_str (r_notes row)) |}.

(** What [int] makes of a reading that is not an infinity, 0 standing
    for NaN. *)
Definition position_value (n : numeric) : Z :=
  match n with NumInt z => z | _ => 0 end.

(** The entry [e] is made by the row [row] of [rows]: the pass of the
    linking loop on this row, after the passes on the rows before it,
    appends [e] to the entries. *)
Definition made_by (step : link_state -> setlist_row -> option link_state)
    (rows : list setlist_row) (e : setlist_entry) (row : setlist_row) : Prop :=
  exists pre post st0 st1,
    rows = pre ++ row :: post /\
    foldl_opt step pre link_state_init = Some st0 /\
    step st0 row = Some st1 /\
    setlists st1 = setlists st0 ++ [e].

(** The row [row] of [rows] is routed to the song [song] of the show
    [sid]: the setlists table has an entry with this show, this song and the
    position of the row, and an entry that the row makes is of this show and
    this song. *)
Definition routed_to (step : link_state -> setlist_row -> option link_state)
    (rows : list setlist_row) (entries : list setlist_entry)
    (row : setlist_row) (sid song : Z) : Prop :=
  (exists e, e ∈ entries /\ e_show_id e = sid /\ e_song_id e = song /\
     position_of (to_numeric lib (r_position row)) = Some (position e)) /\
  (forall e, made_by step rows e row -> e_show_id e = sid /\ e_song_id e = song).

(** What holds of the entries after the rows [pre]: every entry is the
    entry of a row that reached the position step with the show and the
    song of the entry, and carries the position and the notes of that
    row. *)
Record link_inv (items : list (Z * list string)) (ids : option Z * option Z)
    (fmap : gmap (string * string) Z) (tmap : gmap Z string)
    (st : link_state) (pre : list setlist_row) : Prop := {
  linv_entries : forall e, e ∈ setlists st ->
      exists row,
        row ∈ pre /\
        reaches_position items ids fmap tmap row (e_show_id e) (e_song_id e) /\
        position_of (to_numeric lib (r_position row)) = Some (position e) /\
        notes e = Py.strip (py_str (r_notes row));
  linv_ids : map setlist_entry_id (setlists st) = range1 (length (setlists st));
  linv_counter : setlist_entry_id_counter st = Z.of_nat (length (setlists st)) + 1;
  linv_keys : forall k, k ∈ setlist_keys st <-> k ∈ map entry_key (setlists st);
  linv_nodup : NoDup (map entry_key (setlists st))
}.

(** The order of token sequences: lexicographic, tokens compared as
    strings. *)
Fixpoint tokens_compare (a b : list string) : comparison :=
  match a, b with
  | [], [] => Eq
  | [], _ :: _ => Lt
  | _ :: _, [] => Gt
  | x :: a', y :: b' =>
      match String.compare x y with
      | Eq => tokens_compare a' b'
      | c => c
      end
  end.

Definition demo_sessions : list session_row :=
  [ srow "Born To Run" "Album" "Thunder Road";
    srow "Born in the USA" "Album" "Born in the U.S.A.";
    srow "Born To Run" "Outtake" "thunder road!" ].

Definition demo_setlists : list setlist_row :=
  [ lrow "08/15/1975" "The Bottom Line" "" "Thunder Road" (VStr "1");
    lrow "08/15/1975" " The Bottom Line " "" "Zebra" (VStr "2");
    lrow "08/15/1975" "The Bottom Line" "" "Apple Pie" (VStr "x");
    lrow "08/15/1975" "The Bottom Line" "" "Apple-Pie!" (VInt 4);
    lrow "08/16/1975" "The Bottom Line" "Reunion Tour" "Born In The USA" (VStr "1") ].

Definition demo_songs : list song :=
  [ {| song_id := 1; title := "Thunder Road"; album := "Born To Run"; is_outtake := 0 |};
    {| song_id := 2; title := "Born In The U.S.A."; album := "Born in the U.S.A.";
       is_outtake := 0 |};
    {| song_id := 3; title := "Zebra"; album := "Cover"; is_outtake := 0 |};
    {| song_id := 4; title := "Apple Pie"; album := "Cover"; is_outtake := 0 |} ].

Definition demo_index : list (Z * list string) :=
  [ (1, ["thunder"; "road"]); (2, ["born"; "in"; "the"; "usa"]);
    (3, ["zebra"]); (4, ["apple"; "pie"]) ].

(** Two listings of one show: the venue differs in surrounding white
    space, the date has the same normalized form. *)
Definition listing1 : setlist_row :=
  lrow "08/15/1975" "The Bottom Line" "" "Thunder Road" (VStr "1").
Definition listing2 : setlist_row :=
  lrow "08/15/1975" " The Bottom Line " "" "Born To Run" (VStr "2").
Definition listing3 : setlist_row :=
  lrow "8/15/1975" "The Bottom Line" "" "Born To Run" (VStr "2").
Definition listing4 : setlist_row :=
  lrow "08/15/1975" "THE BOTTOM LINE" "" "Born To Run" (VStr "2").

(** Two listings with dates that do not parse. *)
Definition listing5 : setlist_row :=
  lrow "August 1975" "The Roxy" "" "Thunder Road" (VStr "1").
Definition listing6 : setlist_row :=
  lrow "Summer 1975" "The Roxy" "" "Born To Run" (VStr "2").

Definition tie_sessions : list session_row :=
  [ srow "Born To Run" "Album" "Thunder Road" ].
Definition tie_setlists : list setlist_row :=
  [ lrow "08/15/1975" "The Bottom Line" "" "Rockin' All Over The World" (VStr "1");
    lrow "08/16/1975" "The Bottom Line" "" "Rockin All Over The World," (VStr "1") ].

(** The rows of a show listed under the date [now]. *)
Definition now_setlists : list setlist_row :=
  [ lrow "now" "The Bottom Line" "" "Thunder Road" (VStr "1") ].

(** A catalog with the standard and the acoustic song, and listings of the
    standard title on the Reunion tour and on another tour. *)
Definition reunion_sessions : list session_row :=
  [ srow "Born in the USA" "Album" "Born in the U.S.A.";
    srow "Tracks" "Outtake" "Born In The USA (Acoustic)" ].

Definition reunion_row : setlist_row :=
  lrow "04/09/1999" "Palau Sant Jordi" "REUNION TOUR" "Born In The USA" (VStr "1").
Definition other_tour_row : setlist_row :=
  lrow "08/05/1984" "Brendan Byrne Arena" "Born in the U.S.A. Tour"
    "Born in the U.S.A." (VStr "1").
Definition reunion_setlists : list setlist_row := [reunion_row; other_tour_row].

Definition reunion_songs : list song :=
  [ {| song_id := 1; title := "Born In The U.S.A."; album := "Born in the U.S.A.";
       is_outtake := 0 |};
    {| song_id := 2; title := "Born In The Usa Acoustic"; album := "Tracks";
       is_outtake := 1 |} ].

Definition reunion_index : list (Z * list string) :=
  [ (1, ["born"; "in"; "the"; "usa"]);
    (2, ["born"; "in"; "the"; "usa"; "acoustic"]) ].

Definition reunion_entries : list setlist_entry :=
  [ {| setlist_entry_id := 1; e_show_id := 1; e_song_id := 2; position := 1;
       notes := "" |};
    {| setlist_entry_id := 2; e_show_id := 2; e_song_id := 1; position := 1;
       notes := "" |} ].


(** The show that the resolver makes of a row under a given id. *)
Definition minted_show (id : Z) (row : setlist_row) : show :=
  let parsed := to_datetime lib (Py.strip (py_str (r_date row))) in
  let raw_tour_name := Py.strip (py_str (r_tour row)) in
  {| show_id := id;
     date := option_map fst parsed;
     tour :=
       if Py.is_empty raw_tour_name then
         match option_map snd parsed with
         | Some y => if Py.is_empty y then "Unknown Tour" else y
         | None => "Unknown Tour"
         end
       else raw_tour_name;
     venue := or_default "Unknown Venue" (Py.strip (py_str (r_venue row)));
     city := or_default "Unknown City" (Py.strip (py_str (r_city row)));
     state_name := or_none (Py.strip (py_str (r_statename row)));
     state_code := or_none (Py.strip (py_str (r_statecode row)));
     country_name := or_none (Py.strip (py_str (r_countryname row)));
     country_code := or_none (Py.strip (py_str (r_countrycode row)));
     show_notes := or_none (Py.strip (py_str (r_shownotes row))) |}.

(** The rows that mint a show: of the rows that name a show, the first of
    each identity key. *)
Definition minting_rows (rows : list setlist_row) : list setlist_row :=
  drop_duplicates unique_show_key (List.filter names_show rows).

(** The entries of [MINIMAL_REPLACEMENTS] whose key is one character, and
    the replacements with these entries alone. *)
Definition char_replacements : list (string * string) :=
  List.filter (fun p => (String.length p.1 =? 1)%nat) MINIMAL_REPLACEMENTS.

Definition apply_char_replacements (s : string) : string :=
  fold_left (fun acc '(old, new) => Py.replace old new acc) char_replacements s.

(** [ws_thin a b]: the string [a] is [b] without some white space
    characters that stand before another white space character. *)
Inductive ws_thin : string -> string -> Prop :=
  | ws_thin_nil : ws_thin "" ""
  | ws_thin_cons (c : ascii) (a b : string) :
      ws_thin a b -> ws_thin (String c a) (String c b)
  | ws_thin_drop (c c' : ascii) (a b : string) :
      Py.is_space c = true -> Py.is_space c' = true ->
      ws_thin a (String c' b) -> ws_thin a (String c (String c' b)).

(** The shape of a token: it begins and ends with a lower-case letter or a
    digit, and holds only such characters and apostrophes. *)
Definition token_char (c : ascii) : bool := Py.is_lower c || Py.is_digit c.

Definition token_ok_list (l : list ascii) : Prop :=
  (exists c, head l = Some c /\ token_char c = true) /\
  (exists c, last l = Some c /\ token_char c = true) /\
  Forall (fun c => token_char c = true \/ Py.is_apostrophe c = true) l.

Definition token_ok (w : string) : Prop := token_ok_list (list_ascii_of_string w).

(** A character that is neither an upper-case letter nor an underscore. *)
Definition clean_char (c : ascii) : bool :=
  negb (Py.is_upper c) && negb (Ascii.eqb c "_").

(** The output files with the output directory made. *)
Definition with_output_dir (fs : outputs) : outputs :=
  {| output_dir := true; songs_csv := songs_csv fs;
     shows_csv := shows_csv fs; setlists_csv := setlists_csv fs |}.

(** A string in which every white space character is a single space
    between two other characters or at an end; [prev] tells that the
    character before the string is white space. *)
Fixpoint single_spaced (prev : bool) (s : string) : bool :=
  match s with
  | EmptyString => true
  | String c s' =>
      if Py.is_space c
      then Ascii.eqb c " " && negb prev && single_spaced true s'
      else single_spaced false s'
  end.

(** * Properties *)

(** ** The sequence matcher *)

Section Matcher.

Implicit Types (q c ws : list string) (items : list (Z * list string)).

Lemma iter_contains_found (t : string) it rest :
  iter_contains t it = (true, rest) -> exists pre, it = pre ++ t :: rest.
Proof.
  induction it as [|x it IH]; simpl; [discriminate|].
  destruct (String.eqb_spec x t) as [->|Hne].
  - intros [= <-]. by exists [].
  - intros H. destruct (IH H) as [pre ->]. by exists (x :: pre).
Qed.

Lemma OrderedSubseq_app_l pre c q :
  OrderedSubseq c q -> OrderedSubseq c (pre ++ q).
Proof. intros H. induction pre; simpl; [done|by constructor]. Qed.

Lemma OrderedSubseq_tail x c q :
  OrderedSubseq (x :: c) q -> OrderedSubseq c q.
Proof.
  intros H. remember (x :: c) as xc eqn:E. revert x c E.
  induction H as [q|y c' q H IH|y c' q H IH]; intros x c E.
  - discriminate.
  - injection E as -> ->. by constructor.
  - constructor. by eapply IH.
Qed.

Lemma OrderedSubseq_length c q :
  OrderedSubseq c q -> (length c <= length q)%nat.
Proof. induction 1; simpl; lia. Qed.

Lemma OrderedSubseq_full c q :
  OrderedSubseq c q -> (length q <= length c)%nat -> c = q.
Proof.
  induction 1 as [q|y c q H IH|y c q H IH]; simpl; intros Hlen.
  - destruct q; [done|simpl in Hlen; lia].
  - f_equal. apply IH. lia.
  - apply OrderedSubseq_length in H. lia.
Qed.

Lemma OrderedSubseq_refl q : OrderedSubseq q q.
Proof. induction q; by constructor. Qed.

Lemma is_subsequence_cons (x t : string) needle haystack :
  is_subsequence (t :: needle) (x :: haystack) =
  if String.eqb x t then is_subsequence needle haystack
  else is_subsequence (t :: needle) haystack.
Proof. simpl. by destruct (String.eqb x t). Qed.

(** The iterator idiom decides the candidate relation. *)
Lemma is_subsequence_spec needle haystack :
  is_subsequence needle haystack = true <-> OrderedSubseq needle haystack.
Proof.
  split.
  - revert haystack. induction needle as [|t needle IH]; intros haystack H.
    + constructor.
    + simpl in H. destruct (iter_contains t haystack) as [found rest] eqn:E.
      destruct found; [|discriminate].
      apply iter_contains_found in E as [pre ->].
      apply OrderedSubseq_app_l. constructor. by apply IH.
  - intros H. revert needle H.
    induction haystack as [|x haystack IH]; intros needle H.
    + by inversion H.
    + destruct needle as [|t needle]; [done|].
      rewrite is_subsequence_cons.
      destruct (String.eqb_spec x t) as [->|Hne].
      * apply IH. inversion H; subst; [done|by eapply OrderedSubseq_tail].
      * apply IH. inversion H; subst; [congruence|done].
Qed.

Lemma insert_desc_head x l :
  head (insert_desc x l) =
  Some match head l with
       | Some y => if (fst y <=? fst x)%nat then x else y
       | None => x
       end.
Proof. destruct l as [|y l]; simpl; [done|]. by destruct (fst y <=? fst x)%nat. Qed.

(** [sort_desc] is the stable sort of the source: its result is ordered by
    decreasing key and keeps, for every key, the elements of that key in
    their order. *)
Lemma insert_desc_stable (n : nat) (x : nat * Z) (l : list (nat * Z)) :
  List.filter (fun y => (fst y =? n)%nat) (insert_desc x l) =
  List.filter (fun y => (fst y =? n)%nat) (x :: l).
Proof.
  induction l as [|y l IH]; [done|].
  cbn [insert_desc]. destruct (Nat.leb_spec (fst y) (fst x)) as [Hle|Hlt]; [done|].
  cbn [List.filter] in *. rewrite IH.
  destruct (Nat.eqb_spec (fst y) n), (Nat.eqb_spec (fst x) n); try done. lia.
Qed.

Lemma sort_desc_stable (n : nat) (l : list (nat * Z)) :
  List.filter (fun y => (fst y =? n)%nat) (sort_desc l) =
  List.filter (fun y => (fst y =? n)%nat) l.
Proof.
  induction l as [|x l IH]; [done|].
  cbn [sort_desc]. rewrite insert_desc_stable. cbn [List.filter]. by rewrite IH.
Qed.

Lemma insert_desc_sorted (x : nat * Z) (l : list (nat * Z)) :
  StronglySorted (fun a b => (fst b <= fst a)%nat) l ->
  StronglySorted (fun a b => (fst b <= fst a)%nat) (insert_desc x l).
Proof.
  induction 1 as [|y l Hl IH Hy]; cbn [insert_desc].
  - repeat constructor.
  - destruct (Nat.leb_spec (fst y) (fst x)) as [Hle|Hlt].
    + constructor; [by constructor|]. constructor; [done|].
      eapply Forall_impl; [exact Hy|]. simpl. intros z Hz. lia.
    + constructor; [done|].
      assert (Hins : forall z, z ∈ insert_desc x l -> z = x \/ z ∈ l).
      { clear. induction l as [|w l IH]; simpl; intros z.
        - intros ->%list_elem_of_singleton. by left.
        - destruct (fst w <=? fst x)%nat.
          + intros [->|?]%elem_of_cons; [by left|by right].
          + intros [->|[->|?]%IH]%elem_of_cons;
              [right; by left|by left|right; by right]. }
      apply Forall_forall. intros z [->|Hz]%Hins; [lia|].
      rewrite Forall_forall in Hy. by apply Hy.
Qed.

Lemma sort_desc_sorted (l : list (nat * Z)) :
  StronglySorted (fun a b => (fst b <= fst a)%nat) (sort_desc l).
Proof.
  induction l as [|x l IH]; [constructor|]. by apply insert_desc_sorted.
Qed.

(** The head of the sorted list of matches: the first of the longest
    candidates, in the order of the items. *)
Lemma sort_collect_head q items :
  match head (sort_desc (collect_matches q items)) with
  | Some (n, id) =>
      exists pre ws post,
        items = pre ++ (id, ws) :: post /\ n = length ws /\ candidate q ws /\
        (forall id' ws', (id', ws') ∈ pre -> candidate q ws' ->
           (length ws' < length ws)%nat) /\
        (forall id' ws', (id', ws') ∈ post -> candidate q ws' ->
           (length ws' <= length ws)%nat)
  | None => forall id ws, (id, ws) ∈ items -> ~ candidate q ws
  end.
Proof.
  induction items as [|[id0 cw] items IH]; simpl.
  - intros id ws H. by apply elem_of_nil in H.
  - assert (Hskip : ~ candidate q cw ->
      match head (sort_desc (collect_matches q items)) with
      | Some (n, id) =>
          exists pre ws post,
            (id0, cw) :: items = pre ++ (id, ws) :: post /\ n = length ws /\
            candidate q ws /\
            (forall id' ws', (id', ws') ∈ pre -> candidate q ws' ->
               (length ws' < length ws)%nat) /\
            (forall id' ws', (id', ws') ∈ post -> candidate q ws' ->
               (length ws' <= length ws)%nat)
      | None => forall id ws, (id, ws) ∈ (id0, cw) :: items -> ~ candidate q ws
      end).
    { intros Hnc. destruct (head (sort_desc (collect_matches q items))) as [[n id]|].
      - destruct IH as (pre & ws & post & -> & Hn & Hc & Hpre & Hpost).
        exists ((id0, cw) :: pre), ws, post. repeat split; try done.
        + apply Hc.
        + apply Hc.
        + intros id' ws' [[= -> ->]|Hin]%elem_of_cons Hc'; [done|by eapply Hpre].
      - intros id ws [[= -> ->]|Hin]%elem_of_cons; [done|by eapply IH]. }
    destruct cw as [|w cw]; [apply Hskip; by intros [? _]|]. simpl is_nil. cbv iota.
    destruct (is_subsequence (w :: cw) q) eqn:Hsub.
    2:{ apply Hskip. intros [_ H%is_subsequence_spec]. congruence. }
    apply is_subsequence_spec in Hsub.
    change (sort_desc ((length (w :: cw), id0) :: collect_matches q items))
      with (insert_desc (length (w :: cw), id0) (sort_desc (collect_matches q items))).
    rewrite insert_desc_head.
    destruct (head (sort_desc (collect_matches q items))) as [[n id]|].
    + destruct IH as (pre & ws & post & -> & -> & Hc & Hpre & Hpost).
      cbn [fst]. destruct (Nat.leb_spec (length ws) (length (w :: cw))) as [Hle|Hlt].
      * exists [], (w :: cw), (pre ++ (id, ws) :: post). repeat split; try done.
        -- intros id' ws' H. by apply elem_of_nil in H.
        -- intros id' ws' Hin Hc'. apply elem_of_app in Hin as [Hin|Hin].
           ++ specialize (Hpre _ _ Hin Hc'). lia.
           ++ apply elem_of_cons in Hin as [[= -> ->]|Hin]; [lia|].
              specialize (Hpost _ _ Hin Hc'). lia.
      * exists ((id0, w :: cw) :: pre), ws, post. repeat split; try done.
        -- apply Hc.
        -- apply Hc.
        -- intros id' ws' [[= -> ->]|Hin]%elem_of_cons Hc'; [done|by eapply Hpre].
    + exists [], (w :: cw), items. repeat split; try done.
      * intros id' ws' H. by apply elem_of_nil in H.
      * intros id' ws' Hin Hc'. by destruct (IH _ _ Hin).
Qed.

(** The matcher in terms of the items of the index. *)
Lemma find_match_by_sequence_spec q items :
  match find_match_by_sequence q items with
  | Some id =>
      exists pre ws post,
        items = pre ++ (id, ws) :: post /\ candidate q ws /\
        (forall id' ws', (id', ws') ∈ pre -> candidate q ws' ->
           (length ws' < length ws)%nat) /\
        (forall id' ws', (id', ws') ∈ post -> candidate q ws' ->
           (length ws' <= length ws)%nat)
  | None => forall id ws, (id, ws) ∈ items -> ~ candidate q ws
  end.
Proof.
  unfold find_match_by_sequence. destruct q as [|t q]; simpl is_nil; cbv iota.
  { intros id ws _ [Hne H]. inversion H; by subst. }
  pose proof (sort_collect_head (t :: q) items) as H.
  destruct (sort_desc (collect_matches (t :: q) items)) as [|[n id] l]; simpl in *.
  - done.
  - destruct H as (pre & ws & post & -> & _ & Hc & Hpre & Hpost).
    by exists pre, ws, post.
Qed.

End Matcher.

(** ** Lists without repetition *)

Section DropDuplicates.

Context {A K : Type} `{EqDecision K} (key : A -> K).

Lemma drop_duplicates_go_ext (seen1 seen2 : list K) (l : list A) :
  (forall k, k ∈ seen1 <-> k ∈ seen2) ->
  drop_duplicates_go key seen1 l = drop_duplicates_go key seen2 l.
Proof.
  revert seen1 seen2. induction l as [|x l IH]; intros seen1 seen2 H; simpl; [done|].
  rewrite (bool_decide_ext _ _ (H (key x))).
  destruct (bool_decide (key x ∈ seen2)); [by apply IH|].
  f_equal. apply IH. intros k. rewrite !elem_of_cons. by rewrite H.
Qed.

Lemma elem_of_drop_duplicates_go (seen : list K) (l : list A) (x : A) :
  x ∈ drop_duplicates_go key seen l -> x ∈ l /\ key x ∉ seen.
Proof.
  revert seen. induction l as [|y l IH]; intros seen; simpl.
  - by intros ?%elem_of_nil.
  - case_bool_decide as Hy.
    + intros [? ?]%IH. split; [by right|done].
    + intros [->|[? Hn]%IH]%elem_of_cons; [split; [by left|done]|].
      split; [by right|]. intros ?. apply Hn. by right.
Qed.

Lemma drop_duplicates_go_keys (seen : list K) (l : list A) (k : K) :
  k ∈ map key l -> k ∉ seen -> k ∈ map key (drop_duplicates_go key seen l).
Proof.
  revert seen. induction l as [|y l IH]; intros seen; simpl.
  - by intros ?%elem_of_nil.
  - intros Hin Hn. case_bool_decide as Hy.
    + apply IH; [|done]. apply elem_of_cons in Hin as [->|?]; done.
    + simpl. destruct (decide (k = key y)) as [->|Hne]; [by left|].
      right. apply IH.
      * apply elem_of_cons in Hin as [?|?]; done.
      * intros [?|?]%elem_of_cons; done.
Qed.

Lemma NoDup_drop_duplicates_go (seen : list K) (l : list A) :
  NoDup (map key (drop_duplicates_go key seen l)).
Proof.
  revert seen. induction l as [|y l IH]; intros seen; simpl.
  - constructor.
  - case_bool_decide as Hy; [apply IH|].
    simpl. constructor; [|apply IH].
    intros (x & Hx & [_ Hn]%elem_of_drop_duplicates_go)%list_elem_of_fmap.
    apply Hn. rewrite Hx. by left.
Qed.

Lemma drop_duplicates_go_id (seen : list K) (l : list A) :
  NoDup (map key l) -> (forall x, x ∈ l -> key x ∉ seen) ->
  drop_duplicates_go key seen l = l.
Proof.
  revert seen. induction l as [|y l IH]; intros seen Hnd Hs; simpl; [done|].
  simpl in Hnd. apply NoDup_cons in Hnd as [Hy Hnd].
  rewrite bool_decide_eq_false_2; [|apply Hs; by left].
  f_equal. apply IH; [done|].
  intros x Hx [Heq|?]%elem_of_cons.
  - apply Hy. rewrite <- Heq. by apply (list_elem_of_fmap_2 key).
  - eapply Hs; [by right|done].
Qed.

Lemma drop_duplicates_go_map (seen : list K) (l : list A) :
  drop_duplicates_go id seen (map key l) = map key (drop_duplicates_go key seen l).
Proof.
  revert seen. induction l as [|y l IH]; intros seen; simpl; [done|].
  destruct (bool_decide (key y ∈ seen)); simpl; by rewrite IH.
Qed.

End DropDuplicates.

(** Removing duplicate cells first does not change the first occurrences
    of the keys of the cells that pass a test. *)
Lemma drop_duplicates_go_nested {C K : Type} `{EqDecision C} `{EqDecision K}
    (f : C -> K) (P : C -> bool) (seen_c : list C) (seen_k : list K) (l : list C) :
  (forall c, c ∈ seen_c -> P c = true -> f c ∈ seen_k) ->
  drop_duplicates_go id seen_k
    (map f (List.filter P (drop_duplicates_go id seen_c l))) =
  drop_duplicates_go id seen_k (map f (List.filter P l)).
Proof.
  revert seen_c seen_k. induction l as [|c l IH]; intros seen_c seen_k H; simpl; [done|].
  case_bool_decide as Hc.
  - rewrite (IH _ _ H). destruct (P c) eqn:HP; simpl; [|done].
    by rewrite bool_decide_eq_true_2; [|apply H].
  - simpl. destruct (P c) eqn:HP; simpl.
    + case_bool_decide as Hk.
      * apply IH. intros c' [->|?]%elem_of_cons ?; [done|by apply H].
      * f_equal. apply IH. intros c' [->|?]%elem_of_cons ?; [by left|right; by apply H].
    + apply IH. intros c' [->|?]%elem_of_cons ?; [congruence|by apply H].
Qed.

(** ** The catalog builder in closed form *)

Lemma fold_left_inv {A B} (f : B -> A -> B) (P : B -> list A -> Prop)
    (init : B) (l : list A) :
  P init [] ->
  (forall st pre x post, l = pre ++ x :: post -> P st pre -> P (f st x) (pre ++ [x])) ->
  P (fold_left f l init) l.
Proof.
  intros H0 Hstep.
  cut (forall suf pre st, l = pre ++ suf -> P st pre -> P (fold_left f suf st) l).
  { intros H. by apply (H l [] init). }
  induction suf as [|x suf IH]; intros pre st E H; simpl.
  - by rewrite E, app_nil_r.
  - apply (IH (pre ++ [x])); [by rewrite <- app_assoc|by eapply Hstep].
Qed.

Lemma filter_map_comm {A B} (f : A -> B) (P : B -> bool) (l : list A) :
  map f (List.filter (fun x => P (f x)) l) = List.filter P (map f l).
Proof.
  induction l as [|x l IH]; simpl; [done|].
  destruct (P (f x)); simpl; by rewrite IH.
Qed.

Lemma get_canonical_display_title_nonempty (t : cell) :
  Py.is_empty (get_canonical_display_title t) = false.
Proof.
  unfold get_canonical_display_title.
  destruct (isna t || falsy t); [done|]. cbv zeta.
  match goal with
  | |- Py.is_empty (if Py.is_empty ?d then _ else _) = false =>
      destruct (Py.is_empty d) eqn:E; [done|exact E]
  end.
Qed.

Lemma preprocess_missing (t : cell) :
  isna t || falsy t = true -> preprocess_title_for_matching t = [].
Proof. intros H. unfold preprocess_title_for_matching. by rewrite H. Qed.

(** A cell with a non-empty token sequence is a non-empty string. *)
Lemma preprocess_nonempty_str (t : cell) :
  is_nil (preprocess_title_for_matching t) = false -> exists s, t = Str s.
Proof.
  destruct t as [|s]; [|by exists s].
  by rewrite preprocess_missing.
Qed.

Lemma session_step_eq (st : list song_data * gset (list string)) (row : session_row) :
  session_step st row =
  if has_tokens (session_tokens row) then
    if bool_decide (session_tokens row ∈ st.2) then st
    else (st.1 ++ [session_entry row], {[ session_tokens row ]} ∪ st.2)
  else st.
Proof.
  destruct st as [acc seen]. unfold session_step, has_tokens, session_tokens.
  destruct (isna (s_song row) || falsy (s_song row)) eqn:E.
  - by rewrite (preprocess_missing _ E).
  - rewrite get_canonical_display_title_nonempty, orb_false_r.
    destruct (is_nil (preprocess_title_for_matching (s_song row))); simpl; [done|].
    by destruct (bool_decide _).
Qed.

Lemma session_fold (l : list session_row) (acc : list song_data)
    (seen : gset (list string)) (S : list (list string)) :
  (forall k, k ∈ seen <-> k ∈ S) ->
  (fold_left session_step l (acc, seen)).1 =
  acc ++ drop_duplicates_go sd_processed_words S
           (map session_entry (List.filter (fun r => has_tokens (session_tokens r)) l)).
Proof.
  revert acc seen S. induction l as [|row l IH]; intros acc seen S H.
  - simpl. by rewrite app_nil_r.
  - cbn [fold_left List.filter]. rewrite session_step_eq. cbn [fst snd].
    destruct (has_tokens (session_tokens row)) eqn:E; [|by apply IH].
    cbn [map drop_duplicates_go sd_processed_words session_entry].
    rewrite (bool_decide_ext _ _ (H (session_tokens row))).
    case_bool_decide as Hin; [by apply IH|].
    rewrite (IH _ _ (session_tokens row :: S)).
    + by rewrite <- app_assoc.
    + intros k. rewrite elem_of_union, elem_of_singleton, elem_of_cons. by rewrite H.
Qed.

Lemma session_fold_init (ses : list session_row) :
  (fold_left session_step ses ([], ∅)).1 = session_songs ses.
Proof.
  rewrite (session_fold ses [] ∅ []); [done|].
  intros k. split; [by intros ?%not_elem_of_empty|by intros ?%elem_of_nil].
Qed.

Lemma session_songs_tokens (ses : list session_row) :
  map sd_processed_words (session_songs ses) = session_token_sequences ses.
Proof.
  unfold session_songs, session_token_sequences, drop_duplicates.
  rewrite <- drop_duplicates_go_map, map_map. simpl.
  by rewrite <- (filter_map_comm session_tokens has_tokens).
Qed.

Lemma missing_step_eq (known_set : gset (list string)) (known : list (list string))
    (m : list (list string * list string)) (t : cell) :
  (forall k, k ∈ known_set <-> k ∈ known) ->
  missing_step known_set m t =
  if eligible known (preprocess_title_for_matching t)
  then group_add (preprocess_title_for_matching t) (py_str t) m else m.
Proof.
  intros H. unfold missing_step, eligible, has_tokens.
  destruct (isna t || falsy t) eqn:E.
  - by rewrite (preprocess_missing _ E).
  - destruct (is_nil (preprocess_title_for_matching t)); simpl; [done|].
    rewrite (bool_decide_ext _ _ (H _)). by destruct (bool_decide _).
Qed.

Lemma elem_of_set_add (s t : string) (ts : list string) :
  s ∈ set_add t ts <-> s = t \/ s ∈ ts.
Proof.
  unfold set_add. case_bool_decide as H.
  - split; [intros; by right|]. by intros [->|?].
  - rewrite elem_of_app, list_elem_of_singleton. tauto.
Qed.

Lemma set_add_nonempty (t : string) (ts : list string) : set_add t ts <> [].
Proof.
  intros E. assert (H : t ∈ set_add t ts) by (apply elem_of_set_add; by left).
  rewrite E in H. by apply elem_of_nil in H.
Qed.

Lemma group_add_keys (k : list string) (t : string)
    (m : list (list string * list string)) :
  map fst (group_add k t m) =
  map fst m ++ (if bool_decide (k ∈ map fst m) then [] else [k]).
Proof.
  induction m as [|[k' ts] m IH]; simpl; [done|].
  destruct (bool_decide_reflect (k' = k)) as [->|Hk]; simpl.
  - rewrite bool_decide_eq_true_2 by by left. by rewrite app_nil_r.
  - rewrite IH. f_equal. f_equal.
    rewrite (bool_decide_ext (k ∈ k' :: map fst m) (k ∈ map fst m)); [done|].
    rewrite elem_of_cons. split; [intros [?|?]; congruence|by right].
Qed.

Lemma missing_fold_keys (known_set : gset (list string)) (known : list (list string))
    (l : list cell) (m : list (list string * list string)) :
  (forall k, k ∈ known_set <-> k ∈ known) ->
  map fst (fold_left (missing_step known_set) l m) =
  map fst m ++
  drop_duplicates_go id (map fst m)
    (map preprocess_title_for_matching
       (List.filter (fun t => eligible known (preprocess_title_for_matching t)) l)).
Proof.
  intros H. revert m. induction l as [|t l IH]; intros m.
  - simpl. by rewrite app_nil_r.
  - cbn [fold_left List.filter]. rewrite (missing_step_eq _ _ _ _ H).
    destruct (eligible known (preprocess_title_for_matching t)); [|apply IH].
    rewrite IH, group_add_keys. cbn [map drop_duplicates_go id].
    case_bool_decide as Hk.
    + by rewrite app_nil_r.
    + rewrite <- app_assoc. simpl. f_equal. f_equal.
      apply drop_duplicates_go_ext. intros k.
      rewrite elem_of_app, list_elem_of_singleton, elem_of_cons. tauto.
Qed.

Lemma group_add_good (P : list string -> string -> Prop) (k : list string)
    (t : string) (m : list (list string * list string)) :
  Forall (group_good P) m -> P k t -> Forall (group_good P) (group_add k t m).
Proof.
  intros Hm Hk. induction Hm as [|[k' ts] m [Hne Hts] Hm IH]; simpl.
  - constructor; [|constructor]. split; [apply set_add_nonempty|].
    intros s [->|[]%elem_of_nil]%elem_of_set_add. done.
  - case_bool_decide as E.
    + subst. constructor; [|done]. split; [apply set_add_nonempty|].
      intros s [->|?]%elem_of_set_add; [done|by apply Hts].
    + constructor; [by split|done].
Qed.

Lemma group_add_mono (k : list string) (t : string)
    (m : list (list string * list string)) (k' : list string)
    (ts : list string) (s : string) :
  (k', ts) ∈ m -> s ∈ ts ->
  exists ts', (k', ts') ∈ group_add k t m /\ s ∈ ts'.
Proof.
  induction m as [|[k0 ts0] m IH]; simpl.
  - by intros ?%elem_of_nil.
  - intros [[= -> ->]|Hin]%elem_of_cons Hs.
    + case_bool_decide as E.
      * exists (set_add t ts0). split; [by left|]. apply elem_of_set_add. by right.
      * exists ts0. split; [by left|done].
    + case_bool_decide as E.
      * exists ts. split; [by right|done].
      * destruct (IH Hin Hs) as (ts' & ? & ?). exists ts'. split; [by right|done].
Qed.

Lemma group_add_self (k : list string) (t : string)
    (m : list (list string * list string)) :
  exists ts', (k, ts') ∈ group_add k t m /\ t ∈ ts'.
Proof.
  induction m as [|[k0 ts0] m IH]; simpl.
  - exists (set_add t []). split; [by left|]. apply elem_of_set_add. by left.
  - case_bool_decide as E.
    + subst. exists (set_add t ts0). split; [by left|]. apply elem_of_set_add. by left.
    + destruct IH as (ts' & ? & ?). exists ts'. split; [by right|done].
Qed.

(** [min(.., key=len)] returns an element of least length. *)
Lemma min_by_len_go_spec (best : string) (l : list string) :
  min_by_len_go best l ∈ best :: l /\
  forall x, x ∈ best :: l ->
    (String.length (min_by_len_go best l) <= String.length x)%nat.
Proof.
  revert best. induction l as [|y l IH]; intros best; simpl.
  - split; [by left|]. by intros x ->%list_elem_of_singleton.
  - destruct (Nat.ltb_spec (String.length y) (String.length best)) as [Hlt|Hge].
    + destruct (IH y) as [Hin Hmin]. split; [by right|].
      intros x [->|Hx]%elem_of_cons; [|by apply Hmin].
      specialize (Hmin y (list_elem_of_here _ _)). lia.
    + destruct (IH best) as [Hin Hmin]. split.
      * apply elem_of_cons in Hin as [->|?]; [by left|by do 2 right].
      * intros x [->|[->|Hx]%elem_of_cons]%elem_of_cons.
        -- apply Hmin. by left.
        -- specialize (Hmin best (list_elem_of_here _ _)). lia.
        -- apply Hmin. by right.
Qed.

Lemma min_by_len_spec (l : list string) :
  l <> [] ->
  exists rep, min_by_len l = Some rep /\ rep ∈ l /\
    forall x, x ∈ l -> (String.length rep <= String.length x)%nat.
Proof.
  destruct l as [|x l]; [done|]. intros _. simpl.
  exists (min_by_len_go x l). split; [done|]. apply min_by_len_go_spec.
Qed.

Lemma set_iter_elem (o : set_order) (ts : list string) (s : string) :
  s ∈ set_iter o ts <-> s ∈ ts.
Proof. by rewrite (set_iter_perm o ts). Qed.

Lemma representative_spec (o : set_order) (ts : list string) :
  ts <> [] ->
  min_by_len (set_iter o ts) = Some (representative o ts) /\
  representative o ts ∈ ts /\
  forall x, x ∈ ts -> (String.length (representative o ts) <= String.length x)%nat.
Proof.
  intros Hne. destruct (min_by_len_spec (set_iter o ts)) as (rep & E & Hin & Hmin).
  { intros E. apply Hne. apply Permutation_nil. by rewrite <- (set_iter_perm o ts), E. }
  unfold representative. rewrite E. simpl. split; [done|]. split.
  - by apply (proj1 (set_iter_elem o ts rep)).
  - intros x Hx. apply Hmin. by apply (proj2 (set_iter_elem o ts x)).
Qed.

Lemma cover_loop_closed (o : set_order) (m : list (list string * list string))
    (acc : list song_data) :
  Forall (fun e => e.2 <> []) m ->
  cover_loop o m acc = Some (acc ++ map (cover_entry o) m).
Proof.
  intros H. revert acc. induction H as [|[k ts] m Hne Hm IH]; intros acc; simpl.
  - by rewrite app_nil_r.
  - destruct (representative_spec o ts Hne) as (-> & _).
    rewrite get_canonical_display_title_nonempty, IH.
    by rewrite <- app_assoc.
Qed.

Lemma known_set_spec (ses : list session_row) (k : list string) :
  k ∈ known_set ses <-> k ∈ session_token_sequences ses.
Proof. unfold known_set. by rewrite elem_of_list_to_set, session_songs_tokens. Qed.

Lemma missing_map_keys (ses : list session_row) (sets : list setlist_row) :
  map fst (missing_map ses sets) = cover_token_sequences ses sets.
Proof.
  unfold missing_map.
  rewrite (missing_fold_keys _ (session_token_sequences ses))
    by apply known_set_spec.
  simpl. unfold drop_duplicates at 1.
  rewrite (drop_duplicates_go_nested preprocess_title_for_matching
             (fun t => eligible (session_token_sequences ses)
                         (preprocess_title_for_matching t)) [] []).
  2:{ by intros c ?%elem_of_nil. }
  rewrite (filter_map_comm preprocess_title_for_matching
             (eligible (session_token_sequences ses))).
  by rewrite map_map.
Qed.

Lemma elem_of_List_filter {A} (P : A -> bool) (l : list A) (x : A) :
  x ∈ List.filter P l <-> x ∈ l /\ P x = true.
Proof. rewrite !list_elem_of_In. apply filter_In. Qed.

Lemma elem_of_drop_duplicates {A} `{EqDecision A} (l : list A) (x : A) :
  x ∈ drop_duplicates id l <-> x ∈ l.
Proof.
  split.
  - by intros [? _]%elem_of_drop_duplicates_go.
  - intros H. unfold drop_duplicates.
    rewrite <- (map_id (drop_duplicates_go id [] l)).
    apply (drop_duplicates_go_keys id); [by rewrite map_id|by intros ?%elem_of_nil].
Qed.

Lemma NoDup_drop_duplicates {A} `{EqDecision A} (l : list A) :
  NoDup (drop_duplicates id l).
Proof.
  rewrite <- (map_id (drop_duplicates id l)). apply NoDup_drop_duplicates_go.
Qed.

Lemma cover_token_sequences_eligible (ses : list session_row)
    (sets : list setlist_row) (k : list string) :
  k ∈ cover_token_sequences ses sets <->
  k ∈ setlist_token_sequences sets /\ k <> [] /\ k ∉ session_token_sequences ses.
Proof.
  unfold cover_token_sequences.
  rewrite elem_of_drop_duplicates, elem_of_List_filter.
  unfold eligible, has_tokens.
  rewrite andb_true_iff, !negb_true_iff, bool_decide_eq_false.
  destruct k; simpl; intuition congruence.
Qed.

Lemma missing_map_groups (ses : list session_row) (sets : list setlist_row) :
  Forall (group_good (spelling sets)) (missing_map ses sets) /\
  forall s, Str s ∈ map r_song sets ->
    eligible (session_token_sequences ses)
      (preprocess_title_for_matching (Str s)) = true ->
    exists ts, (preprocess_title_for_matching (Str s), ts) ∈ missing_map ses sets /\ s ∈ ts.
Proof.
  unfold missing_map.
  set (titles := drop_duplicates id (map r_song sets)).
  assert (Hinv :
    Forall (group_good (spelling sets))
      (fold_left (missing_step (known_set ses)) titles []) /\
    forall t, t ∈ titles ->
      eligible (session_token_sequences ses) (preprocess_title_for_matching t) = true ->
      exists ts, (preprocess_title_for_matching t, ts)
                   ∈ fold_left (missing_step (known_set ses)) titles [] /\
                 py_str t ∈ ts).
  { apply (fold_left_inv (missing_step (known_set ses))
             (fun m pre =>
                Forall (group_good (spelling sets)) m /\
                forall t, t ∈ pre ->
                  eligible (session_token_sequences ses)
                    (preprocess_title_for_matching t) = true ->
                  exists ts, (preprocess_title_for_matching t, ts) ∈ m /\ py_str t ∈ ts)).
    - split; [constructor|]. by intros t ?%elem_of_nil.
    - intros m pre x post E [Hgood Hcomp].
      assert (Hx : x ∈ map r_song sets).
      { apply (elem_of_drop_duplicates (map r_song sets)). fold titles. rewrite E.
        apply elem_of_app. right. by left. }
      rewrite (missing_step_eq _ (session_token_sequences ses))
        by apply known_set_spec.
      destruct (eligible (session_token_sequences ses)
                  (preprocess_title_for_matching x)) eqn:El.
      + assert (exists s, x = Str s) as [s ->].
        { apply preprocess_nonempty_str. unfold eligible, has_tokens in El.
          apply andb_true_iff in El as [El _]. by apply negb_true_iff in El. }
        split.
        * apply group_add_good; [done|]. by split.
        * intros t [Ht| ->%list_elem_of_singleton]%elem_of_app Hel.
          -- destruct (Hcomp t Ht Hel) as (ts & Hin & Hs).
             by eapply group_add_mono.
          -- apply group_add_self.
      + split; [done|].
        intros t [Ht| ->%list_elem_of_singleton]%elem_of_app Hel; [by apply Hcomp|congruence]. }
  destruct Hinv as [Hgood Hcomp]. split; [done|].
  intros s Hs Hel. apply (Hcomp (Str s)); [|done].
  by apply elem_of_drop_duplicates.
Qed.

Lemma catalog_data_tokens (o : set_order) (ses : list session_row)
    (sets : list setlist_row) :
  map sd_processed_words (catalog_data o ses sets) =
  session_token_sequences ses ++ cover_token_sequences ses sets.
Proof.
  unfold catalog_data. rewrite map_app, session_songs_tokens, map_map. simpl.
  by rewrite <- missing_map_keys.
Qed.

Lemma NoDup_catalog_tokens (ses : list session_row) (sets : list setlist_row) :
  NoDup (session_token_sequences ses ++ cover_token_sequences ses sets).
Proof.
  apply NoDup_app. split; [apply NoDup_drop_duplicates|]. split.
  - intros k Hk (_ & _ & Hn)%cover_token_sequences_eligible. done.
  - apply NoDup_drop_duplicates.
Qed.

(** The builder fails on an input without session songs and otherwise
    numbers the session songs followed by the covers. *)
Lemma create_final_songs_table_closed (o : set_order) (ses : list session_row)
    (sets : list setlist_row) :
  create_final_songs_table o ses sets =
  if is_nil (session_songs ses) then None
  else Some (number_songs (catalog_data o ses sets),
             number_tokens (catalog_data o ses sets)).
Proof.
  unfold create_final_songs_table.
  pose proof (session_fold_init ses) as Hs.
  destruct (fold_left session_step ses ([], ∅)) as [all seen]. simpl in Hs. subst all.
  destruct (is_nil (session_songs ses)); [done|].
  fold (known_set ses). fold (missing_map ses sets).
  rewrite cover_loop_closed.
  2:{ eapply Forall_impl; [apply missing_map_groups|]. by intros e [? _]. }
  simpl app. fold (catalog_data o ses sets).
  unfold drop_duplicates. rewrite drop_duplicates_go_id.
  - done.
  - rewrite catalog_data_tokens. apply NoDup_catalog_tokens.
  - by intros x _ ?%elem_of_nil.
Qed.

Lemma map_zip_with_l {A B C D} (f : A -> B -> C) (g : C -> D) (h : A -> D)
    (l : list A) (k : list B) :
  (forall x y, g (f x y) = h x) -> (length l <= length k)%nat ->
  map g (zip_with f l k) = map h l.
Proof.
  intros Hg. revert k. induction l as [|x l IH]; intros [|y k] Hlen; simpl in *;
    try done; try lia.
  rewrite Hg. f_equal. apply IH. lia.
Qed.

Lemma map_zip_with_r {A B C D} (f : A -> B -> C) (g : C -> D) (h : B -> D)
    (l : list A) (k : list B) :
  (forall x y, g (f x y) = h y) -> (length k <= length l)%nat ->
  map g (zip_with f l k) = map h k.
Proof.
  intros Hg. revert l. induction k as [|y k IH]; intros [|x l] Hlen; simpl in *;
    try done; try lia.
  rewrite Hg. f_equal. apply IH. lia.
Qed.

Lemma length_range1 (n : nat) : length (range1 n) = n.
Proof. unfold range1. by rewrite length_map, length_seq. Qed.

Lemma number_tokens_fst (data : list song_data) :
  map fst (number_tokens data) = range1 (length data).
Proof.
  unfold number_tokens. rewrite (map_zip_with_l _ fst id); [apply map_id|done|].
  by rewrite length_range1.
Qed.

Lemma number_tokens_snd (data : list song_data) :
  map snd (number_tokens data) = map sd_processed_words data.
Proof.
  unfold number_tokens. apply map_zip_with_r; [done|]. by rewrite length_range1.
Qed.

Lemma number_songs_id (data : list song_data) :
  map song_id (number_songs data) = range1 (length data).
Proof.
  unfold number_songs. rewrite (map_zip_with_l _ song_id id); [apply map_id|done|].
  by rewrite length_range1.
Qed.

Lemma length_number_tokens (data : list song_data) :
  length (number_tokens data) = length data.
Proof. by rewrite <- (length_map snd), number_tokens_snd, length_map. Qed.

Lemma length_number_songs (data : list song_data) :
  length (number_songs data) = length data.
Proof. by rewrite <- (length_map song_id), number_songs_id, length_range1. Qed.

Lemma create_final_songs_table_Some (o : set_order) (ses : list session_row)
    (sets : list setlist_row) (songs : list song) (index : list (Z * list string)) :
  create_final_songs_table o ses sets = Some (songs, index) ->
  songs = number_songs (catalog_data o ses sets) /\
  index = number_tokens (catalog_data o ses sets).
Proof.
  rewrite create_final_songs_table_closed.
  destruct (is_nil (session_songs ses)); [done|]. by intros [= <- <-].
Qed.

(** C2.  In the catalog that the builder returns, the token sequences of
    two different entries differ, the song_ids are 1, 2, .., n in the order
    of the entries, and the entries are the session songs (the first
    occurrences of the token sequences of the session rows) followed by
    the covers (token sequences of setlist titles that no session song
    has). *)
Theorem catalog_unique_dense (o : set_order) (ses : list session_row)
    (sets : list setlist_row) (songs : list song) (index : list (Z * list string)) :
  create_final_songs_table o ses sets = Some (songs, index) ->
  (forall i j e1 e2, index !! i = Some e1 -> index !! j = Some e2 ->
     i <> j -> e1.2 <> e2.2) /\
  map fst index = range1 (length index) /\
  map song_id songs = map fst index /\
  map snd index = session_token_sequences ses ++ cover_token_sequences ses sets /\
  (forall k, k ∈ session_token_sequences ses -> k ∈ map session_tokens ses) /\
  (forall k, k ∈ cover_token_sequences ses sets ->
     k ∈ setlist_token_sequences sets /\ k ∉ map session_tokens ses).
Proof.
  intros [-> ->]%create_final_songs_table_Some.
  assert (Hsnd : map snd (number_tokens (catalog_data o ses sets)) =
                 session_token_sequences ses ++ cover_token_sequences ses sets).
  { by rewrite number_tokens_snd, catalog_data_tokens. }
  assert (Hsess : forall k, k ∈ session_token_sequences ses <->
                    k ∈ map session_tokens ses /\ k <> []).
  { intros k. unfold session_token_sequences.
    rewrite elem_of_drop_duplicates, elem_of_List_filter. unfold has_tokens.
    rewrite negb_true_iff. destruct k; simpl; intuition congruence. }
  split_and!.
  - intros i j e1 e2 H1 H2 Hij E.
    pose proof (NoDup_catalog_tokens ses sets) as Hnd. rewrite <- Hsnd in Hnd.
    apply Hij. eapply NoDup_lookup; [exact Hnd| |].
    + apply (list_lookup_fmap_Some_2 snd). exact H1.
    + rewrite E. apply (list_lookup_fmap_Some_2 snd). exact H2.
  - by rewrite number_tokens_fst, length_number_tokens.
  - by rewrite number_songs_id, number_tokens_fst.
  - done.
  - intros k Hk. by apply Hsess.
  - intros k (? & Hne & Hn)%cover_token_sequences_eligible. split; [done|].
    intros Hin. apply Hn, Hsess. by split.
Qed.

Lemma number_songs_from_app (start : nat) (a b : list song_data) :
  number_songs_from start (a ++ b) =
  number_songs_from start a ++ number_songs_from (start + length a) b.
Proof.
  revert start. induction a as [|x a IH]; intros start.
  - simpl. by rewrite Nat.add_0_r.
  - unfold number_songs_from in *. simpl. f_equal.
    rewrite IH. by replace (S start + length a)%nat with (start + S (length a))%nat by lia.
Qed.

Lemma number_songs_split (s c : list song_data) :
  number_songs (s ++ c) = number_songs_from 0 s ++ number_songs_from (length s) c.
Proof. apply (number_songs_from_app 0). Qed.

Lemma length_number_songs_from (start : nat) (data : list song_data) :
  length (number_songs_from start data) = length data.
Proof.
  unfold number_songs_from. rewrite length_zip_with, length_map, length_seq. lia.
Qed.

Lemma length_session_songs (ses : list session_row) :
  length (session_songs ses) = length (session_token_sequences ses).
Proof. by rewrite <- session_songs_tokens, length_map. Qed.

Lemma cover_entries_spec (o : set_order) (sets : list setlist_row) (start : nat)
    (m : list (list string * list string)) :
  Forall (fun e => e.2 <> [] /\ (forall s, s ∈ e.2 <-> spelling sets e.1 s)) m ->
  Forall2 (cover_of sets) (number_songs_from start (map (cover_entry o) m)) (map fst m) /\
  map song_id (number_songs_from start (map (cover_entry o) m)) =
  map (fun j => Z.of_nat (start + j) + 1) (seq 0 (length m)).
Proof.
  intros H. revert start. induction H as [|[k ts] m [Hne Hts] Hm IH]; intros start.
  - split; [constructor|done].
  - destruct (IH (S start)) as [IH1 IH2]. simpl in Hne, Hts.
    destruct (representative_spec o ts Hne) as (_ & Hin & Hmin).
    unfold number_songs_from in *. simpl. split.
    + constructor; [|exact IH1]. split; [done|]. split; [done|].
      exists (representative o ts). split; [done|]. split; [by apply Hts|].
      intros s Hs. by apply Hmin, Hts.
    + f_equal; [lia|]. rewrite IH2, <- seq_shift, map_map.
      apply map_ext. intros j. lia.
Qed.

Lemma NoDup_fst_unique {A B} (l : list (A * B)) (x : A) (y1 y2 : B) :
  NoDup (map fst l) -> (x, y1) ∈ l -> (x, y2) ∈ l -> y1 = y2.
Proof.
  induction l as [|[a b] l IH]; simpl; intros Hnd H1 H2.
  - by apply elem_of_nil in H1.
  - apply NoDup_cons in Hnd as [Ha Hnd].
    apply elem_of_cons in H1 as [[= -> ->]|H1];
      apply elem_of_cons in H2 as [[= ->]|H2].
    + done.
    + destruct Ha. by apply (list_elem_of_fmap_2 fst) in H2.
    + subst. destruct Ha. by apply (list_elem_of_fmap_2 fst) in H1.
    + by apply IH.
Qed.

Lemma missing_map_complete (ses : list session_row) (sets : list setlist_row) :
  Forall (fun e => e.2 <> [] /\ (forall s, s ∈ e.2 <-> spelling sets e.1 s))
    (missing_map ses sets).
Proof.
  destruct (missing_map_groups ses sets) as [Hgood Hcomp].
  apply Forall_forall. intros [k ts] Hin.
  rewrite Forall_forall in Hgood. destruct (Hgood _ Hin) as [Hne Hts].
  simpl in *. split; [done|]. intros s. split; [by apply Hts|].
  intros [Hs Hk].
  assert (Hel : k ∈ cover_token_sequences ses sets).
  { rewrite <- missing_map_keys. by apply (list_elem_of_fmap_2 fst) in Hin. }
  apply cover_token_sequences_eligible in Hel as (_ & Hk1 & Hk2).
  destruct (Hcomp s Hs) as (ts' & Hin' & Hs').
  { rewrite Hk. unfold eligible, has_tokens.
    rewrite bool_decide_eq_false_2 by done. by destruct k. }
  rewrite Hk in Hin'.
  assert (NoDup (map fst (missing_map ses sets))) as Hnd.
  { rewrite missing_map_keys. apply NoDup_drop_duplicates. }
  by rewrite (NoDup_fst_unique _ _ _ _ Hnd Hin Hin').
Qed.

(** C5 (as amended).  The setlist titles whose token sequence is
    non-empty and is not the token sequence of a session song are grouped
    by token sequence.  Each group gives one entry after the session
    songs: its title is the display form of a shortest raw spelling of the
    group, its album is "Cover", its outtake flag is 0.  The covers are
    numbered in the order in which their token sequences first occur in
    the setlist rows. *)
Theorem covers_first_seen_shortest (o : set_order) (ses : list session_row)
    (sets : list setlist_row) (songs : list song) (index : list (Z * list string)) :
  create_final_songs_table o ses sets = Some (songs, index) ->
  let n := length (session_token_sequences ses) in
  let keys :=
    drop_duplicates id
      (List.filter
         (fun k => negb (is_nil k)
                   && negb (bool_decide (k ∈ session_token_sequences ses)))
         (map (fun r => preprocess_title_for_matching (r_song r)) sets)) in
  map snd (drop n index) = keys /\
  map song_id (drop n songs) = map (fun j => Z.of_nat (n + j) + 1) (seq 0 (length keys)) /\
  Forall2 (cover_of sets) (drop n songs) keys.
Proof.
  intros [-> ->]%create_final_songs_table_Some. intros n keys.
  change keys with (cover_token_sequences ses sets). clear keys.
  unfold catalog_data. rewrite number_songs_split.
  rewrite drop_app_length'
    by by rewrite length_number_songs_from, length_session_songs.
  destruct (cover_entries_spec o sets (length (session_songs ses))
              (missing_map ses sets) (missing_map_complete ses sets)) as [H1 H2].
  rewrite missing_map_keys in H1. subst n. rewrite <- length_session_songs.
  split_and!.
  - rewrite (fmap_drop snd). fold (catalog_data o ses sets).
    rewrite number_tokens_snd, catalog_data_tokens.
    apply drop_app_length'. apply length_session_songs.
  - rewrite H2. by rewrite <- missing_map_keys, length_map.
  - exact H1.
Qed.

(** ** The matcher on the index of the catalog *)

Lemma catalog_index_tokens (o : set_order) (ses : list session_row)
    (sets : list setlist_row) (k : list string) :
  k ∈ map snd (number_tokens (catalog_data o ses sets)) <->
  k <> [] /\ (k ∈ map session_tokens ses \/ k ∈ setlist_token_sequences sets).
Proof.
  rewrite number_tokens_snd, catalog_data_tokens, elem_of_app.
  rewrite cover_token_sequences_eligible.
  assert (Hsess : k ∈ session_token_sequences ses <->
                  k ∈ map session_tokens ses /\ k <> []).
  { unfold session_token_sequences.
    rewrite elem_of_drop_duplicates, elem_of_List_filter. unfold has_tokens.
    rewrite negb_true_iff. destruct k; simpl; intuition congruence. }
  rewrite Hsess.
  destruct (decide (k ∈ map session_tokens ses)); intuition.
Qed.

Lemma range1_lookup (n i : nat) :
  (i < n)%nat -> range1 n !! i = Some (Z.of_nat i + 1).
Proof.
  intros Hi. unfold range1.
  change (map ?f ?l) with (f <$> l). rewrite list_lookup_fmap.
  by rewrite lookup_seq_lt.
Qed.

Lemma NoDup_range1 (n : nat) : NoDup (range1 n).
Proof.
  assert (Inj (=) (=) (fun i : nat => Z.of_nat i + 1)) by (intros i j H; lia).
  unfold range1. apply (NoDup_fmap_2 (fun i : nat => Z.of_nat i + 1)), NoDup_seq.
Qed.

Lemma range1_lookup_Some (n i : nat) (x : Z) :
  range1 n !! i = Some x -> x = Z.of_nat i + 1.
Proof.
  intros H. pose proof (lookup_lt_Some _ _ _ H) as Hlt.
  rewrite length_range1 in Hlt. rewrite range1_lookup in H by done.
  by injection H.
Qed.

(** The song_ids of the index grow with the position: the iteration order
    of the index is the order of the song_ids. *)
Lemma number_tokens_ordered (data : list song_data) (pre post : list (Z * list string))
    (id id' : Z) (ws ws' : list string) :
  number_tokens data = pre ++ (id, ws) :: post -> (id', ws') ∈ post -> id < id'.
Proof.
  intros E [j Hj]%list_elem_of_lookup.
  pose proof (number_tokens_fst data) as Hf. rewrite E in Hf.
  assert (H1 : (pre ++ (id, ws) :: post) !! length pre = Some (id, ws))
    by by rewrite list_lookup_middle.
  assert (H2 : (pre ++ (id, ws) :: post) !! (length pre + S j)%nat = Some (id', ws')).
  { rewrite lookup_app_r by lia.
    by replace (length pre + S j - length pre)%nat with (S j) by lia. }
  apply (list_lookup_fmap_Some_2 fst) in H1, H2.
  change (fst <$> ?l) with (map fst l) in H1, H2. rewrite Hf in H1, H2.
  apply range1_lookup_Some in H1, H2. simpl in *. lia.
Qed.

(** C1.  On the index of every catalog that the builder returns, and for
    every query, the matcher returns the song_id of an entry whose token
    sequence is an ordered subsequence of the query and is longest among
    all the entries of that kind; of several longest ones it returns the
    first in the iteration order of the index, which is the one with the
    smallest song_id; it returns no match exactly when no entry is an
    ordered subsequence of the query. *)
Theorem find_match_by_sequence_longest_first (o : set_order) (ses : list session_row)
    (sets : list setlist_row) (songs : list song) (index : list (Z * list string))
    (q : list string) :
  create_final_songs_table o ses sets = Some (songs, index) ->
  match find_match_by_sequence q index with
  | Some id =>
      exists pre ws post,
        index = pre ++ (id, ws) :: post /\ OrderedSubseq ws q /\
        (forall id' ws', (id', ws') ∈ index -> OrderedSubseq ws' q ->
           (length ws' <= length ws)%nat) /\
        (forall id' ws', (id', ws') ∈ pre -> OrderedSubseq ws' q ->
           (length ws' < length ws)%nat) /\
        (forall id' ws', (id', ws') ∈ index -> OrderedSubseq ws' q ->
           length ws' = length ws -> id <= id')
  | None => forall id ws, (id, ws) ∈ index -> ~ OrderedSubseq ws q
  end.
Proof.
  intros [_ ->]%create_final_songs_table_Some.
  set (index := number_tokens (catalog_data o ses sets)).
  assert (Hne : forall id ws, (id, ws) ∈ index -> ws <> []).
  { intros id ws Hin. apply (list_elem_of_fmap_2 snd) in Hin. simpl in Hin.
    apply catalog_index_tokens in Hin. by destruct Hin. }
  pose proof (find_match_by_sequence_spec q index) as H.
  destruct (find_match_by_sequence q index) as [id|].
  2:{ intros id ws Hin Hs. apply (H id ws Hin). split; [by eapply Hne|done]. }
  destruct H as (pre & ws & post & E & [_ Hs] & Hpre & Hpost).
  assert (Hpre' : forall id' ws', (id', ws') ∈ pre -> OrderedSubseq ws' q ->
                    (length ws' < length ws)%nat).
  { intros id' ws' Hin Hs'. apply (Hpre id' ws' Hin). split; [|done].
    apply (Hne id'). rewrite E. apply elem_of_app. by left. }
  assert (Hpost' : forall id' ws', (id', ws') ∈ post -> OrderedSubseq ws' q ->
                     (length ws' <= length ws)%nat).
  { intros id' ws' Hin Hs'. apply (Hpost id' ws' Hin). split; [|done].
    apply (Hne id'). rewrite E. apply elem_of_app. right. by right. }
  exists pre, ws, post. split_and!; try done.
  - intros id' ws'. rewrite E.
    intros [Hin|[[= -> ->]|Hin]%elem_of_cons]%elem_of_app Hs'; [|done|by eapply Hpost'].
    specialize (Hpre' _ _ Hin Hs'). lia.
  - intros id' ws'. rewrite E.
    intros [Hin|[[= -> ->]|Hin]%elem_of_cons]%elem_of_app Hs' Hlen; [|lia|].
    + specialize (Hpre' _ _ Hin Hs'). lia.
    + pose proof (number_tokens_ordered _ _ _ _ _ _ _ E Hin). lia.
Qed.

(** ** Display titles and album labels *)

Lemma lstrip_all_space (s : string) :
  Py.is_empty (Py.lstrip s) = all_space s.
Proof.
  induction s as [|c s IH]; simpl; [done|].
  by destruct (Py.is_space c).
Qed.

Lemma rstrip_empty (s : string) :
  Py.is_empty (Py.rstrip s) = all_space s.
Proof.
  induction s as [|c s IH]; simpl; [done|].
  rewrite IH. destruct (all_space s), (Py.is_space c); done.
Qed.

Lemma all_space_lstrip (s : string) :
  all_space (Py.lstrip s) = all_space s.
Proof.
  induction s as [|c s IH]; simpl; [done|].
  destruct (Py.is_space c) eqn:E; simpl; [done|by rewrite E].
Qed.

Lemma strip_empty (s : string) : Py.is_empty (Py.strip s) = all_space s.
Proof. unfold Py.strip. by rewrite rstrip_empty, all_space_lstrip. Qed.

Lemma is_empty_true (s : string) : Py.is_empty s = true <-> s = "".
Proof. by destruct s. Qed.

Lemma all_space_ws_sub_go (b : bool) (s : string) :
  all_space (Py.ws_sub_go b s) = all_space s.
Proof.
  revert b. induction s as [|c s IH]; intros b; simpl; [done|].
  destruct (Py.is_space c) eqn:E; simpl.
  - destruct b; simpl; by rewrite IH.
  - by rewrite E.
Qed.

Lemma is_prefix_blank (old s : string) :
  all_space s = true -> all_space old = false -> Py.is_prefix old s = false.
Proof.
  revert s. induction old as [|a old IH]; intros s Hs Hold; simpl in *; [done|].
  destruct s as [|b s]; [done|]. simpl in Hs.
  apply andb_true_iff in Hs as [Hb Hs].
  destruct (Ascii.eqb_spec a b) as [->|]; [|done].
  rewrite Hb in Hold. by apply IH.
Qed.

Lemma replace_blank (old new s : string) :
  all_space s = true -> all_space old = false -> Py.replace old new s = s.
Proof.
  intros Hs Hold. unfold Py.replace.
  destruct old as [|a old']; [done|]. cbn [Py.is_empty].
  induction s as [|c s IH]; [done|].
  cbn [Py.replace_go]. rewrite (is_prefix_blank _ _ Hs Hold).
  simpl in Hs. apply andb_true_iff in Hs as [_ Hs]. by rewrite IH.
Qed.

Lemma apply_replacements_blank (s : string) :
  all_space s = true -> apply_replacements s = s.
Proof.
  intros Hs. unfold apply_replacements, MINIMAL_REPLACEMENTS. cbn [fold_left].
  by rewrite !(replace_blank _ _ s Hs).
Qed.

(** The display title of a missing, empty or blank title. *)
Lemma display_title_blank (t : cell) :
  match t with NaN => True | Str s => all_space s = true end ->
  get_canonical_display_title t = "Unknown Title".
Proof.
  destruct t as [|s]; [done|]. intros Hs.
  unfold get_canonical_display_title. simpl isna. simpl py_str.
  destruct (falsy (Str s)); [done|]. cbn [orb]. cbv zeta.
  rewrite (apply_replacements_blank s Hs).
  assert (E : Py.strip s = "").
  { apply is_empty_true. by rewrite strip_empty. }
  by rewrite E.
Qed.

(** The album label of a session cell. *)
Lemma album_label_spec (session : cell) :
  get_album_from_session session =
  match session with
  | NaN => "Unknown"
  | Str s =>
      if String.eqb (Py.lower (Py.strip (Py.ws_sub s))) "born in the usa"
      then "Born in the U.S.A." else Py.strip (Py.ws_sub s)
  end.
Proof. by destruct session. Qed.

Lemma album_label_empty (session : cell) :
  get_album_from_session session = "" <->
  exists s, session = Str s /\ all_space s = true.
Proof.
  rewrite album_label_spec. destruct session as [|s].
  - split; [done|]. by intros (s & ? & _).
  - destruct (String.eqb _ _) eqn:E.
    + split; [done|]. intros (s' & [= <-] & Hs).
      assert (Py.strip (Py.ws_sub s) = "") as E'.
      { apply is_empty_true. rewrite strip_empty. unfold Py.ws_sub.
        by rewrite all_space_ws_sub_go. }
      by rewrite E' in E.
    + rewrite <- is_empty_true, strip_empty. unfold Py.ws_sub.
      rewrite all_space_ws_sub_go. split; [by exists s|by intros (s' & [= <-] & ?)].
Qed.

(** C10.  The display canonicalizer never returns the empty string, and
    the album mapper gives "Unknown" for a missing session cell; but for a
    session name that is empty or blank, where the canonicalizer gives its
    fallback "Unknown Title", the mapper gives the empty label: a session
    row with an empty session name, which is what an empty cell of the
    sessions file is read as, gives a catalog entry with an empty album
    label. *)
Theorem blank_session_gives_empty_album (o : set_order) :
  create_final_songs_table o [ srow "" "Album" "Thunder Road" ] []
  = Some ([ {| song_id := 1; title := "Thunder Road"; album := ""; is_outtake := 0 |} ],
          [ (1, ["thunder"; "road"]) ]) /\
  get_album_from_session NaN = "Unknown" /\
  (forall t, get_canonical_display_title t <> "") /\
  forall s, all_space s = true ->
    get_album_from_session (Str s) = "" /\
    get_canonical_display_title (Str s) = "Unknown Title".
Proof.
  split; [vm_compute; reflexivity|]. split; [reflexivity|]. split.
  - intros t E%is_empty_true. by rewrite get_canonical_display_title_nonempty in E.
  - intros s Hs. split.
    + apply album_label_empty. by exists s.
    + by apply display_title_blank.
Qed.

(** ** Two runs on the same input *)

Lemma number_tokens_map (data : list song_data) :
  number_tokens data =
  zip_with pair (range1 (length (map sd_processed_words data)))
    (map sd_processed_words data).
Proof.
  unfold number_tokens. rewrite length_map.
  change (map sd_processed_words data) with (sd_processed_words <$> data).
  by rewrite zip_with_fmap_r.
Qed.

(** The catalog index does not depend on the iteration order of the sets. *)
Lemma index_order_independent (o1 o2 : set_order) (ses : list session_row)
    (sets : list setlist_row) :
  number_tokens (catalog_data o1 ses sets) = number_tokens (catalog_data o2 ses sets).
Proof. by rewrite !number_tokens_map, !catalog_data_tokens. Qed.

Lemma covers_untitled (o1 o2 : set_order) (start : nat)
    (m : list (list string * list string)) :
  map untitled (number_songs_from start (map (cover_entry o1) m)) =
  map untitled (number_songs_from start (map (cover_entry o2) m)).
Proof.
  revert start. induction m as [|e m IH]; intros start; [done|].
  unfold number_songs_from in *. simpl. f_equal. apply IH.
Qed.

Lemma map_ext_elem {A B} (f g : A -> B) (l : list A) :
  (forall x, x ∈ l -> f x = g x) -> map f l = map g l.
Proof.
  induction l as [|x l IH]; intros H; simpl; [done|].
  f_equal; [apply H; by left|]. apply IH. intros y Hy. apply H. by right.
Qed.

Lemma covers_equal (o1 o2 : set_order) (ses : list session_row)
    (sets : list setlist_row) :
  cover_ties_agree ses sets ->
  map (cover_entry o1) (missing_map ses sets) =
  map (cover_entry o2) (missing_map ses sets).
Proof.
  intros Hties. pose proof (missing_map_complete ses sets) as Hm.
  rewrite Forall_forall in Hm.
  apply map_ext_elem. intros [k ts] Hin. destruct (Hm _ Hin) as [Hne Hts].
  simpl in Hne, Hts. unfold cover_entry. simpl. f_equal.
  destruct (representative_spec o1 ts Hne) as (_ & Hin1 & Hmin1).
  destruct (representative_spec o2 ts Hne) as (_ & Hin2 & Hmin2).
  apply (Hties k); [|by apply Hts|by apply Hts|].
  - rewrite <- missing_map_keys. by apply (list_elem_of_fmap_2 fst) in Hin.
  - specialize (Hmin1 _ Hin2). specialize (Hmin2 _ Hin1). lia.
Qed.

(** ** The show resolver *)

Lemma unique_show_key_original (row : setlist_row) :
  unique_show_key row = key_of_original (original_input_key row).
Proof. done. Qed.

Lemma show_step_skip (st : show_state) (row : setlist_row) :
  names_show row = false \/ unique_show_key row ∈ show_keys st ->
  show_step st row = st.
Proof.
  unfold show_step, names_show, unique_show_key.
  destruct (Py.is_empty (Py.strip (py_str (r_date row)))
            || Py.is_empty (Py.strip (py_str (r_venue row)))); [done|].
  intros [?|H]; [done|]. by rewrite bool_decide_eq_true_2.
Qed.

Lemma show_step_mint (st : show_state) (row : setlist_row) :
  names_show row = true -> unique_show_key row ∉ show_keys st ->
  exists sh,
    show_id sh = show_id_counter st /\ show_key sh = unique_show_key row /\
    shows_data (show_step st row) = shows_data st ++ [sh] /\
    show_keys (show_step st row) = {[ unique_show_key row ]} ∪ show_keys st /\
    show_id_counter (show_step st row) = show_id_counter st + 1 /\
    original_show_key_to_id_map (show_step st row) =
      match original_show_key_to_id_map st !! original_input_key row with
      | Some _ => original_show_key_to_id_map st
      | None => <[ original_input_key row := show_id_counter st ]>
                  (original_show_key_to_id_map st)
      end.
Proof.
  unfold show_step, names_show, unique_show_key, original_input_key.
  destruct (Py.is_empty (Py.strip (py_str (r_date row)))
            || Py.is_empty (Py.strip (py_str (r_venue row)))); [done|].
  intros _ H. rewrite bool_decide_eq_false_2 by done.
  eexists. split_and!.
  3: reflexivity.
  all: reflexivity.
Qed.

Lemma range1_S (n : nat) : range1 (S n) = range1 n ++ [Z.of_nat n + 1].
Proof. unfold range1. by rewrite seq_S, map_app. Qed.

Lemma show_inv_step (st : show_state) (pre : list setlist_row) (row : setlist_row) :
  show_inv st pre -> show_inv (show_step st row) (pre ++ [row]).
Proof.
  intros [Hmap Hkeys Hnd Hseen Hids Hcnt].
  destruct (names_show row) eqn:Hv;
    [destruct (decide (unique_show_key row ∈ show_keys st)) as [Hin|Hnin]|].
  - rewrite show_step_skip by by right. split; try done.
    intros r [?| ->%list_elem_of_singleton]%elem_of_app ?; [by apply Hseen|done].
  - destruct (show_step_mint st row Hv Hnin) as (sh & Hid & Hk & Es & Ek & Ec & Em).
    split; rewrite ?Es, ?Ek, ?Ec, ?Em.
    + intros ok id Hl.
      assert (Hcase : original_show_key_to_id_map st !! ok = Some id \/
                      (ok = original_input_key row /\ id = show_id_counter st)).
      { destruct (original_show_key_to_id_map st !! original_input_key row) eqn:E;
          [by left|].
        destruct (decide (original_input_key row = ok)) as [<-|Hne].
        - rewrite lookup_insert_eq in Hl. injection Hl as <-. by right.
        - rewrite lookup_insert_ne in Hl by done. by left. }
      destruct Hcase as [Hold|[-> ->]].
      * destruct (Hmap _ _ Hold) as (sh' & ? & ? & ?). exists sh'.
        split; [apply elem_of_app; by left|done].
      * exists sh. split; [apply elem_of_app; right; by left|].
        split; [done|]. by rewrite Hk.
    + intros k. rewrite map_app, elem_of_app, elem_of_union, elem_of_singleton.
      simpl. rewrite list_elem_of_singleton, Hk, Hkeys. tauto.
    + rewrite map_app. simpl. apply NoDup_app. split; [done|]. split.
      * intros k Hk1 ->%list_elem_of_singleton. apply Hnin, Hkeys. by rewrite <- Hk.
      * apply NoDup_singleton.
    + intros r [?| ->%list_elem_of_singleton]%elem_of_app ?.
      * apply elem_of_union. right. by apply Hseen.
      * apply elem_of_union. left. by apply elem_of_singleton.
    + rewrite map_app, length_app, Hids. simpl.
      rewrite Nat.add_1_r, range1_S. f_equal. by rewrite Hid, Hcnt.
    + rewrite length_app. simpl. lia.
  - rewrite show_step_skip by by left. split; try done.
    intros r [?| ->%list_elem_of_singleton]%elem_of_app ?; [by apply Hseen|congruence].
Qed.

Lemma show_inv_fold (rows : list setlist_row) (st : show_state) (pre : list setlist_row) :
  show_inv st pre -> show_inv (fold_left show_step rows st) (pre ++ rows).
Proof.
  revert st pre. induction rows as [|row rows IH]; intros st pre H; simpl.
  - by rewrite app_nil_r.
  - replace (pre ++ row :: rows) with ((pre ++ [row]) ++ rows)
      by by rewrite <- app_assoc.
    by apply IH, show_inv_step.
Qed.

Lemma show_inv_init : show_inv show_state_init [].
Proof.
  split; simpl; try done.
  - intros k. split; [by intros ?%not_elem_of_empty|by intros ?%elem_of_nil].
  - constructor.
  - by intros row ?%elem_of_nil.
Qed.

Lemma resolve_shows_inv (rows : list setlist_row) :
  show_inv (resolve_shows rows) rows.
Proof. apply (show_inv_fold rows show_state_init []), show_inv_init. Qed.

Lemma show_key_unique (st : show_state) (pre : list setlist_row) (sh1 sh2 : show) :
  show_inv st pre -> sh1 ∈ shows_data st -> sh2 ∈ shows_data st ->
  show_key sh1 = show_key sh2 -> sh1 = sh2.
Proof.
  intros [_ _ Hnd _ _ _] H1 H2 E.
  apply list_elem_of_lookup in H1 as [i Hi]. apply list_elem_of_lookup in H2 as [j Hj].
  assert (i = j) as ->; [|congruence].
  eapply NoDup_lookup; [exact Hnd| |].
  - apply (list_lookup_fmap_Some_2 show_key). exact Hi.
  - rewrite E. apply (list_lookup_fmap_Some_2 show_key). exact Hj.
Qed.

Lemma show_id_unique (st : show_state) (pre : list setlist_row) (sh1 sh2 : show) :
  show_inv st pre -> sh1 ∈ shows_data st -> sh2 ∈ shows_data st ->
  show_id sh1 = show_id sh2 -> sh1 = sh2.
Proof.
  intros [_ _ _ _ Hids _] H1 H2 E.
  apply list_elem_of_lookup in H1 as [i Hi]. apply list_elem_of_lookup in H2 as [j Hj].
  assert (i = j) as ->; [|congruence].
  apply (NoDup_lookup (map show_id (shows_data st)) i j (show_id sh1)).
  - rewrite Hids. apply NoDup_range1.
  - apply (list_lookup_fmap_Some_2 show_id). exact Hi.
  - rewrite E. apply (list_lookup_fmap_Some_2 show_id). exact Hj.
Qed.

(** The identity key of a row that names a show: its normalized date and
    its venue without surrounding white space. *)
Lemma unique_show_key_named (row : setlist_row) :
  names_show row = true ->
  unique_show_key row = (normalized_date row, trimmed_venue row).
Proof.
  unfold names_show, unique_show_key, normalized_date, trimmed_venue, or_default.
  intros [_ H]%negb_true_iff%orb_false_iff. by rewrite H.
Qed.

(** The show of a row of the input that names a show: the one show with
    the identity key of the row.  The map of original keys resolves the
    row to this show or not at all. *)
Lemma row_show (rows : list setlist_row) (row : setlist_row) :
  row ∈ rows -> names_show row = true ->
  exists sh, sh ∈ shows_data (resolve_shows rows) /\
    show_key sh = unique_show_key row /\
    (forall sh', sh' ∈ shows_data (resolve_shows rows) ->
       show_key sh' = unique_show_key row -> sh' = sh) /\
    (forall id, original_show_key_to_id_map (resolve_shows rows)
                  !! original_input_key row = Some id -> id = show_id sh).
Proof.
  intros Hin Hv. pose proof (resolve_shows_inv rows) as Hinv.
  pose proof (inv_seen _ _ Hinv _ Hin Hv) as Hk.
  apply (inv_keys _ _ Hinv) in Hk.
  apply list_elem_of_fmap in Hk as (sh & Hk & Hsh).
  assert (Huniq : forall sh', sh' ∈ shows_data (resolve_shows rows) ->
            show_key sh' = unique_show_key row -> sh' = sh).
  { intros sh' Hsh' Hk'. eapply show_key_unique; eauto. by rewrite Hk'. }
  exists sh. split_and!; try done.
  intros id Hid.
  destruct (inv_map _ _ Hinv _ _ Hid) as (sh' & Hsh' & <- & Hk').
  rewrite <- unique_show_key_original in Hk'. by rewrite (Huniq sh' Hsh' Hk').
Qed.

(** C3 (as amended).  Every raw row of the input that names a show
    belongs to exactly one show of the shows table, the show with the
    normalized date of the row and its venue without surrounding white
    space, and the map of original keys gives the row the show_id of this
    show or none.  Two such rows have the same show, and the same show_id,
    exactly when their normalized dates are identical and their venue
    strings are identical up to surrounding white space: rows whose venues
    differ, be it only in casing, are different shows with different
    show_ids. *)
Theorem same_key_same_show (rows : list setlist_row) (r1 r2 : setlist_row) :
  r1 ∈ rows -> r2 ∈ rows -> names_show r1 = true -> names_show r2 = true ->
  exists sh1 sh2,
    (sh1 ∈ shows_data (resolve_shows rows) /\
     date sh1 = normalized_date r1 /\ venue sh1 = trimmed_venue r1 /\
     (forall sh, sh ∈ shows_data (resolve_shows rows) ->
        show_key sh = unique_show_key r1 -> sh = sh1) /\
     (forall id, original_show_key_to_id_map (resolve_shows rows)
                   !! original_input_key r1 = Some id -> id = show_id sh1)) /\
    (sh2 ∈ shows_data (resolve_shows rows) /\
     date sh2 = normalized_date r2 /\ venue sh2 = trimmed_venue r2 /\
     (forall sh, sh ∈ shows_data (resolve_shows rows) ->
        show_key sh = unique_show_key r2 -> sh = sh2) /\
     (forall id, original_show_key_to_id_map (resolve_shows rows)
                   !! original_input_key r2 = Some id -> id = show_id sh2)) /\
    (show_id sh1 = show_id sh2 <->
     normalized_date r1 = normalized_date r2 /\ trimmed_venue r1 = trimmed_venue r2).
Proof.
  intros Hin1 Hin2 Hv1 Hv2.
  destruct (row_show rows r1 Hin1 Hv1) as (sh1 & Hs1 & Hk1 & Hu1 & Hm1).
  destruct (row_show rows r2 Hin2 Hv2) as (sh2 & Hs2 & Hk2 & Hu2 & Hm2).
  pose proof (unique_show_key_named r1 Hv1) as E1.
  pose proof (unique_show_key_named r2 Hv2) as E2.
  assert (Hf1 : date sh1 = normalized_date r1 /\ venue sh1 = trimmed_venue r1).
  { rewrite E1 in Hk1. unfold show_key in Hk1. by injection Hk1. }
  assert (Hf2 : date sh2 = normalized_date r2 /\ venue sh2 = trimmed_venue r2).
  { rewrite E2 in Hk2. unfold show_key in Hk2. by injection Hk2. }
  exists sh1, sh2. split_and!; try done; try apply Hf1; try apply Hf2.
  split.
  - intros E.
    assert (sh1 = sh2) as <-
      by (eapply show_id_unique; eauto using resolve_shows_inv).
    destruct Hf1 as [<- <-]. by destruct Hf2.
  - intros [Ed Ev]. f_equal. apply Hu2; [done|].
    by rewrite Hk1, E1, E2, Ed, Ev.
Qed.

(** C4 (as amended).  A raw row whose identity key equals that of an
    earlier row is dropped as a duplicate show and registers nothing: the
    shows and the map of original keys are those of the input without the
    row.  The map holds the original strings of the row only if a row that
    minted a show registered them; it then points at the show with the
    identity key of the row. *)
Theorem duplicate_show_row_dropped (pre post : list setlist_row) (r0 r : setlist_row) :
  r0 ∈ pre -> names_show r0 = true ->
  unique_show_key r0 = unique_show_key r ->
  resolve_shows (pre ++ r :: post) = resolve_shows (pre ++ post) /\
  forall id,
    original_show_key_to_id_map (resolve_shows (pre ++ r :: post))
      !! original_input_key r = Some id ->
    exists sh, sh ∈ shows_data (resolve_shows (pre ++ r :: post)) /\
               show_id sh = id /\ show_key sh = unique_show_key r.
Proof.
  intros Hin Hv E. split.
  - unfold resolve_shows. rewrite !fold_left_app. simpl. f_equal.
    apply show_step_skip. right. rewrite <- E.
    by apply (inv_seen _ _ (resolve_shows_inv pre)).
  - intros id H.
    destruct (inv_map _ _ (resolve_shows_inv (pre ++ r :: post)) _ _ H)
      as (sh & ? & ? & ?).
    by exists sh.
Qed.

(** ** The setlist linker *)

Lemma bitusa_words_differ : standard_bitusa_words <> reunion_bitusa_words.
Proof. vm_compute. discriminate. Qed.

Lemma standard_bitusa_words_eq :
  standard_bitusa_words = ["born"; "in"; "the"; "usa"].
Proof. vm_compute. reflexivity. Qed.

(** The two identifiers found by the lookup loop belong to entries of the
    index with the monitored token sequences; an identifier is missing
    exactly when the index has no entry with that token sequence. *)
Lemma bitusa_ids_spec (items : list (Z * list string)) :
  match (bitusa_ids items).1 with
  | Some id => (id, standard_bitusa_words) ∈ items
  | None => forall id ws, (id, ws) ∈ items -> ws <> standard_bitusa_words
  end /\
  match (bitusa_ids items).2 with
  | Some id => (id, reunion_bitusa_words) ∈ items
  | None => forall id ws, (id, ws) ∈ items -> ws <> reunion_bitusa_words
  end.
Proof.
  unfold bitusa_ids.
  apply (fold_left_inv bitusa_step
    (fun st pre =>
       match st.1 with
       | Some id => (id, standard_bitusa_words) ∈ pre
       | None => forall id ws, (id, ws) ∈ pre -> ws <> standard_bitusa_words
       end /\
       match st.2 with
       | Some id => (id, reunion_bitusa_words) ∈ pre
       | None => forall id ws, (id, ws) ∈ pre -> ws <> reunion_bitusa_words
       end)).
  - split; by intros id ws ?%elem_of_nil.
  - intros [st1 st2] pre [s_id ws] post _ [H1 H2]. unfold bitusa_step. simpl in *.
    case_bool_decide as E1; [|case_bool_decide as E2]; simpl.
    + subst ws. split; [apply elem_of_app; right; by left|].
      destruct st2 as [id|].
      * apply elem_of_app. by left.
      * intros id ws [?|[= _ ->]%list_elem_of_singleton]%elem_of_app;
          [by eapply H2|apply bitusa_words_differ].
    + subst ws. split; [|apply elem_of_app; right; by left].
      destruct st1 as [id|].
      * apply elem_of_app. by left.
      * intros id ws [?|[= _ ->]%list_elem_of_singleton]%elem_of_app;
          [by eapply H1|done].
    + split.
      * destruct st1 as [id|]; [apply elem_of_app; by left|].
        intros id ws' [?|[= _ ->]%list_elem_of_singleton]%elem_of_app;
          [by eapply H1|done].
      * destruct st2 as [id|]; [apply elem_of_app; by left|].
        intros id ws' [?|[= _ ->]%list_elem_of_singleton]%elem_of_app;
          [by eapply H2|done].
Qed.

Lemma find_match_in_index (q : list string) (items : list (Z * list string)) (id : Z) :
  find_match_by_sequence q items = Some id -> exists ws, (id, ws) ∈ items.
Proof.
  intros E. pose proof (find_match_by_sequence_spec q items) as H.
  rewrite E in H. destruct H as (pre & ws & post & -> & _).
  exists ws. apply elem_of_app. right. by left.
Qed.

(** With pairwise distinct token sequences in the index, the sequence
    matcher sends a query to the entry that has exactly its tokens. *)
Lemma find_match_exact (q : list string) (items : list (Z * list string)) (id : Z) :
  q <> [] -> NoDup (map snd items) -> (id, q) ∈ items ->
  find_match_by_sequence q items = Some id.
Proof.
  intros Hq Hnd Hin. pose proof (find_match_by_sequence_spec q items) as H.
  assert (Hc : candidate q q) by (split; [done|apply OrderedSubseq_refl]).
  destruct (find_match_by_sequence q items) as [id'|].
  2:{ by destruct (H _ _ Hin). }
  destruct H as (pre & ws & post & -> & [Hne Hsub] & Hpre & Hpost).
  apply elem_of_app in Hin as [Hin|Hin].
  - specialize (Hpre _ _ Hin Hc). apply OrderedSubseq_length in Hsub. lia.
  - apply elem_of_cons in Hin as [[= -> ->]|Hin]; [done|].
    specialize (Hpost _ _ Hin Hc).
    apply OrderedSubseq_full in Hsub; [|done]. subst ws.
    rewrite map_app in Hnd. simpl in Hnd.
    apply NoDup_app in Hnd as (_ & _ & Hnd). apply NoDup_cons in Hnd as [Hnd _].
    destruct Hnd. by apply (list_elem_of_fmap_2 snd) in Hin.
Qed.

Lemma foldl_opt_app {A B} (f : B -> A -> option B) (l1 l2 : list A) (st : B) :
  foldl_opt f (l1 ++ l2) st =
  match foldl_opt f l1 st with
  | Some st' => foldl_opt f l2 st'
  | None => None
  end.
Proof.
  revert st. induction l1 as [|x l1 IH]; intros st; simpl; [done|].
  destruct (f st x); [apply IH|done].
Qed.

(** Invariants of a loop that can raise, for the runs that come to their
    end. *)
Lemma foldl_opt_inv {A B} (f : B -> A -> option B) (P : B -> list A -> Prop)
    (init : B) (l : list A) (res : B) :
  P init [] ->
  (forall st pre x post st', l = pre ++ x :: post -> P st pre ->
     f st x = Some st' -> P st' (pre ++ [x])) ->
  foldl_opt f l init = Some res -> P res l.
Proof.
  intros H0 Hstep.
  assert (G : forall post pre st, l = pre ++ post -> P st pre ->
                foldl_opt f post st = Some res -> P res l).
  { induction post as [|x post IH]; intros pre st El HP; simpl.
    - intros [= <-]. by rewrite El, app_nil_r.
    - destruct (f st x) as [st'|] eqn:E; [|done]. apply (IH (pre ++ [x])).
      + by rewrite <- app_assoc.
      + by eapply Hstep. }
  by apply (G l [] init).
Qed.

(** A loop whose passes raise on certain elements, whatever the state,
    raises exactly when the list holds such an element. *)
Lemma foldl_opt_None {A B} (f : B -> A -> option B) (bad : A -> Prop)
    (l : list A) (st : B) :
  (forall st x, f st x = None <-> bad x) ->
  foldl_opt f l st = None <-> exists x, x ∈ l /\ bad x.
Proof.
  intros Hbad. revert st. induction l as [|x l IH]; intros st; simpl.
  - split; [done|]. by intros (x & ?%elem_of_nil & _).
  - destruct (f st x) as [st'|] eqn:E.
    + rewrite IH. split.
      * intros (y & ? & ?). exists y. split; [by right|done].
      * intros (y & [->|?]%elem_of_cons & Hy); [|by exists y].
        apply (proj2 (Hbad st x)) in Hy. congruence.
    + split; [|done]. intros _. exists x. split; [by left|].
      by apply (proj1 (Hbad st x)).
Qed.

Lemma range1_positive (n : nat) (x : Z) : x ∈ range1 n -> 1 <= x.
Proof. unfold range1. intros (i & -> & _)%list_elem_of_fmap. lia. Qed.

Lemma row_words_nonempty (row : setlist_row) :
  row_words row <> [] -> Py.is_empty (Py.strip (py_str (r_song row))) = false.
Proof.
  unfold row_words, preprocess_title_for_matching. simpl.
  by destruct (Py.is_empty (Py.strip (py_str (r_song row)))).
Qed.

Lemma reaches_position_unique (items : list (Z * list string))
    (ids : option Z * option Z) (fmap : gmap (string * string) Z)
    (tmap : gmap Z string) (row : setlist_row) (sid1 song1 sid2 song2 : Z) :
  reaches_position items ids fmap tmap row sid1 song1 ->
  reaches_position items ids fmap tmap row sid2 song2 ->
  sid1 = sid2 /\ song1 = song2.
Proof.
  intros (Hf1 & _ & _ & Hc1 & _) (Hf2 & _ & _ & Hc2 & _).
  assert (sid1 = sid2) as -> by congruence. split; [done|congruence].
Qed.

(** A pass of the linking loop on a row that does not reach the position
    step leaves the entries as they are. *)
Lemma link_step_skip (items : list (Z * list string)) (ids : option Z * option Z)
    (fmap : gmap (string * string) Z) (tmap : gmap Z string)
    (st : link_state) (row : setlist_row) :
  (exists sid song, reaches_position items ids fmap tmap row sid song) \/
  ((forall sid song, ~ reaches_position items ids fmap tmap row sid song) /\
   exists st', link_step items ids fmap tmap st row = Some st' /\
     setlists st' = setlists st /\
     setlist_entry_id_counter st' = setlist_entry_id_counter st /\
     setlist_keys st' = setlist_keys st).
Proof.
  unfold reaches_position, link_step. fold (row_words row).
  destruct (fmap !! original_input_key row) as [sid|];
    [|right; split; [by intros ? ? (? & _)|by eexists]].
  destruct (Z.eqb_spec sid 0) as [->|Hsid].
  { right. split; [|by eexists]. intros ? ? ([= <-] & ? & _). done. }
  destruct (Py.is_empty (Py.strip (py_str (r_song row)))) eqn:Ee.
  { right. split; [|by eexists]. intros ? ? (_ & _ & Hw & _).
    apply row_words_nonempty in Hw. congruence. }
  destruct (is_nil (row_words row)) eqn:En.
  { right. split; [|by eexists]. intros ? ? (_ & _ & Hw & _).
    by destruct (row_words row). }
  destruct (choose_song items ids (default "" (tmap !! sid)) (row_words row))
    as [[song|] method] eqn:E.
  2:{ right. split; [|by eexists]. intros ? ? ([= <-] & _ & _ & Hc & _).
      rewrite E in Hc. done. }
  destruct (Z.eqb_spec song 0) as [->|Hsong].
  { right. split; [|by eexists]. intros ? ? ([= <-] & _ & _ & Hc & Hs).
    rewrite E in Hc. simpl in Hc. congruence. }
  left. exists sid, song. split_and!; try done.
  - by destruct (row_words row).
  - by rewrite E.
Qed.

(** A pass of the linking loop on a row that reaches the position step:
    it raises when the position cell reads as an infinity; otherwise the
    position is the integer read, 0 for NaN, and the entry of the row is
    appended unless an entry with its key is there already. *)
Lemma link_step_reached (items : list (Z * list string)) (ids : option Z * option Z)
    (fmap : gmap (string * string) Z) (tmap : gmap Z string)
    (st : link_state) (row : setlist_row) (sid song : Z) :
  reaches_position items ids fmap tmap row sid song ->
  match position_of (to_numeric lib (r_position row)) with
  | None => link_step items ids fmap tmap st row = None
  | Some pos =>
      exists st', link_step items ids fmap tmap st row = Some st' /\
        if bool_decide ((sid, song, pos) ∈ setlist_keys st)
        then setlists st' = setlists st /\
             setlist_entry_id_counter st' = setlist_entry_id_counter st /\
             setlist_keys st' = setlist_keys st
        else setlists st' =
               setlists st ++ [entry_of (setlist_entry_id_counter st) sid song pos row] /\
             setlist_entry_id_counter st' = setlist_entry_id_counter st + 1 /\
             setlist_keys st' = {[ (sid, song, pos) ]} ∪ setlist_keys st
  end.
Proof.
  intros (Hf & Hsid & Hw & Hc & Hsong). unfold link_step. fold (row_words row).
  rewrite Hf, (proj2 (Z.eqb_neq sid 0) Hsid), (row_words_nonempty row Hw).
  destruct (is_nil (row_words row)) eqn:En; [by destruct (row_words row)|].
  destruct (choose_song items ids (default "" (tmap !! sid)) (row_words row))
    as [s method]. simpl in Hc. subst s.
  rewrite (proj2 (Z.eqb_neq song 0) Hsong).
  destruct (position_of (to_numeric lib (r_position row))) as [pos|]; [|done].
  case_bool_decide; by eexists.
Qed.

Lemma link_step_None (items : list (Z * list string)) (ids : option Z * option Z)
    (fmap : gmap (string * string) Z) (tmap : gmap Z string)
    (st : link_state) (row : setlist_row) :
  link_step items ids fmap tmap st row = None <->
  exists sid song, reaches_position items ids fmap tmap row sid song /\
    to_numeric lib (r_position row) = NumInf.
Proof.
  split.
  - intros E.
    destruct (link_step_skip items ids fmap tmap st row)
      as [(sid & song & Hr)|[_ (st' & E' & _)]]; [|congruence].
    exists sid, song. split; [done|].
    pose proof (link_step_reached items ids fmap tmap st row sid song Hr) as H.
    destruct (to_numeric lib (r_position row)); simpl in H; try done;
      destruct H as (st' & E' & _); congruence.
  - intros (sid & song & Hr & Ei).
    pose proof (link_step_reached items ids fmap tmap st row sid song Hr) as H.
    by rewrite Ei in H.
Qed.

Lemma link_inv_init (items : list (Z * list string)) (ids : option Z * option Z)
    (fmap : gmap (string * string) Z) (tmap : gmap Z string) :
  link_inv items ids fmap tmap link_state_init [].
Proof.
  split; simpl; try done.
  - by intros e ?%elem_of_nil.
  - intros k. split; [by intros ?%not_elem_of_empty|by intros ?%elem_of_nil].
  - constructor.
Qed.

Lemma link_inv_step (items : list (Z * list string)) (ids : option Z * option Z)
    (fmap : gmap (string * string) Z) (tmap : gmap Z string)
    (st st' : link_state) (pre : list setlist_row) (row : setlist_row) :
  link_inv items ids fmap tmap st pre ->
  link_step items ids fmap tmap st row = Some st' ->
  link_inv items ids fmap tmap st' (pre ++ [row]).
Proof.
  intros [Hent Hids Hcnt Hkeys Hnd] E.
  assert (Hold : forall e, e ∈ setlists st ->
    exists r, r ∈ pre ++ [row] /\
      reaches_position items ids fmap tmap r (e_show_id e) (e_song_id e) /\
      position_of (to_numeric lib (r_position r)) = Some (position e) /\
      notes e = Py.strip (py_str (r_notes r))).
  { intros e He. destruct (Hent e He) as (r & ? & ?).
    exists r. split; [apply elem_of_app; by left|done]. }
  destruct (link_step_skip items ids fmap tmap st row)
    as [(sid & song & Hr)|[_ (st1 & E1 & Es & Ec & Ek)]].
  2:{ rewrite E in E1. injection E1 as <-. split; by rewrite ?Es, ?Ec, ?Ek. }
  pose proof (link_step_reached items ids fmap tmap st row sid song Hr) as H.
  destruct (position_of (to_numeric lib (r_position row))) as [pos|] eqn:Ep;
    [|congruence].
  destruct H as (st1 & E1 & H). rewrite E in E1. injection E1 as <-.
  case_bool_decide as Hk; destruct H as (Es & Ec & Ek);
    split; rewrite ?Es, ?Ec, ?Ek; try done.
  - intros e [He| ->%list_elem_of_singleton]%elem_of_app; [by apply Hold|].
    exists row. split; [apply elem_of_app; right; by left|done].
  - rewrite map_app, length_app, Hids. simpl.
    rewrite Nat.add_1_r, range1_S. f_equal. by rewrite Hcnt.
  - rewrite length_app. simpl. lia.
  - intros k. rewrite map_app, elem_of_union, elem_of_singleton, elem_of_app. simpl.
    rewrite list_elem_of_singleton, Hkeys. unfold entry_key at 2. simpl. tauto.
  - rewrite map_app. apply NoDup_app. split_and!; [done| |apply NoDup_singleton].
    intros k Hin ->%list_elem_of_singleton. by apply Hk, Hkeys.
Qed.

Lemma link_inv_fold (items : list (Z * list string)) (ids : option Z * option Z)
    (fmap : gmap (string * string) Z) (tmap : gmap Z string)
    (rows : list setlist_row) (st : link_state) :
  foldl_opt (link_step items ids fmap tmap) rows link_state_init = Some st ->
  link_inv items ids fmap tmap st rows.
Proof.
  apply (foldl_opt_inv (link_step items ids fmap tmap)
           (link_inv items ids fmap tmap)).
  - apply link_inv_init.
  - intros st0 pre row post st' _. apply link_inv_step.
Qed.

(** The linking loop raises exactly when a row that reaches the position
    step has a position cell that reads as an infinity. *)
Lemma link_loop_None (items : list (Z * list string)) (ids : option Z * option Z)
    (fmap : gmap (string * string) Z) (tmap : gmap Z string)
    (rows : list setlist_row) :
  foldl_opt (link_step items ids fmap tmap) rows link_state_init = None <->
  exists row, row ∈ rows /\
    exists sid song, reaches_position items ids fmap tmap row sid song /\
      to_numeric lib (r_position row) = NumInf.
Proof.
  apply (foldl_opt_None (link_step items ids fmap tmap)).
  intros st row. apply link_step_None.
Qed.

(** Every row that reaches the position step has its entry in the end. *)
Lemma link_loop_complete (items : list (Z * list string)) (ids : option Z * option Z)
    (fmap : gmap (string * string) Z) (tmap : gmap Z string)
    (rows : list setlist_row) (st : link_state) (row : setlist_row) (sid song : Z) :
  foldl_opt (link_step items ids fmap tmap) rows link_state_init = Some st ->
  row ∈ rows ->
  reaches_position items ids fmap tmap row sid song ->
  exists e, e ∈ setlists st /\ e_show_id e = sid /\ e_song_id e = song /\
    position_of (to_numeric lib (r_position row)) = Some (position e).
Proof.
  intros E Hrow Hr.
  assert (H : exists pos, position_of (to_numeric lib (r_position row)) = Some pos /\
                (sid, song, pos) ∈ setlist_keys st).
  { revert Hrow. revert E.
    apply (foldl_opt_inv (link_step items ids fmap tmap)
      (fun st pre => row ∈ pre ->
         exists pos, position_of (to_numeric lib (r_position row)) = Some pos /\
           (sid, song, pos) ∈ setlist_keys st)).
    - by intros ?%elem_of_nil.
    - intros st0 pre x post st' _ IH E [Hin|Hx%list_elem_of_singleton]%elem_of_app.
      2: subst x.
      + destruct (IH Hin) as (pos & Hp & Hk). exists pos. split; [done|].
        destruct (link_step_skip items ids fmap tmap st0 x)
          as [(sid' & song' & Hr')|[_ (st1 & E1 & _ & _ & Ek)]].
        2:{ rewrite E in E1. injection E1 as <-. by rewrite Ek. }
        pose proof (link_step_reached items ids fmap tmap st0 x sid' song' Hr') as H.
        destruct (position_of (to_numeric lib (r_position x))) as [pos'|];
          [|congruence].
        destruct H as (st1 & E1 & H). rewrite E in E1. injection E1 as <-.
        case_bool_decide; destruct H as (_ & _ & ->); [done|].
        apply elem_of_union. by right.
      + pose proof (link_step_reached items ids fmap tmap st0 row sid song Hr) as H.
        destruct (position_of (to_numeric lib (r_position row))) as [pos|];
          [|congruence].
        exists pos. split; [done|].
        destruct H as (st1 & E1 & H). rewrite E in E1. injection E1 as <-.
        case_bool_decide; destruct H as (_ & _ & ->); [done|].
        apply elem_of_union. left. by apply elem_of_singleton. }
  destruct H as (pos & Hp & Hk).
  apply (linv_keys _ _ _ _ _ _ (link_inv_fold _ _ _ _ _ _ E)) in Hk.
  apply list_elem_of_fmap in Hk as (e & Ek & He).
  exists e. injection Ek as -> -> ->. by rewrite Hp.
Qed.

(** The map from show ids to tour names gives every show its tour. *)
Lemma tour_map_lookup (shows : list show) (sh : show) :
  NoDup (map show_id shows) -> sh ∈ shows ->
  tour_map shows !! show_id sh = Some (tour sh).
Proof.
  unfold tour_map.
  induction shows as [|x shows IH] using rev_ind; intros Hnd Hin.
  - by apply elem_of_nil in Hin.
  - rewrite fold_left_app. simpl. rewrite map_app in Hnd. simpl in Hnd.
    apply NoDup_app in Hnd as (Hnd & Hx & _).
    apply elem_of_app in Hin as [Hin| ->%list_elem_of_singleton].
    + rewrite lookup_insert_ne; [by apply IH|].
      intros E. apply (Hx (show_id sh)); [|rewrite E; by left].
      by apply (list_elem_of_fmap_2 show_id).
    + by rewrite lookup_insert_eq.
Qed.

(** Every song that the linker chooses is a song of the index. *)
Lemma choose_song_in_index (items : list (Z * list string)) (tour_name : string)
    (words : list string) (id : Z) (method : string) :
  choose_song items (bitusa_ids items) tour_name words = (Some id, method) ->
  id ∈ map fst items.
Proof.
  pose proof (bitusa_ids_spec items) as [H1 H2].
  unfold choose_song. destruct (bitusa_ids items) as [std reu]. simpl in H1, H2.
  destruct (bool_decide (words = standard_bitusa_words) && is_some std) eqn:E1.
  - destruct (bool_decide (Py.lower tour_name ∈ REUNION_TOUR_RAW_NAMES)
              && is_some reu) eqn:E2.
    + destruct reu as [r|]; [|by rewrite andb_false_r in E2]. simpl.
      intros [= <- _]. by apply (list_elem_of_fmap_2 fst) in H2.
    + destruct std as [s|]; [|by rewrite andb_false_r in E1]. simpl.
      intros [= <- _]. by apply (list_elem_of_fmap_2 fst) in H1.
  - simpl. unfold sequence_choice.
    destruct (find_match_by_sequence words items) as [id'|] eqn:Ef.
    + apply find_match_in_index in Ef as [ws Hin].
      destruct (truthy (Some id')); intros [= <- _];
        by apply (list_elem_of_fmap_2 fst) in Hin.
    + by destruct (truthy None).
Qed.

Lemma NoDup_snd_unique {A B} (l : list (A * B)) (x1 x2 : A) (y : B) :
  NoDup (map snd l) -> (x1, y) ∈ l -> (x2, y) ∈ l -> x1 = x2.
Proof.
  induction l as [|[a b] l IH]; simpl; intros Hnd H1 H2.
  - by apply elem_of_nil in H1.
  - apply NoDup_cons in Hnd as [Ha Hnd].
    apply elem_of_cons in H1 as [[= -> ->]|H1];
      apply elem_of_cons in H2 as [[= ->]|H2].
    + done.
    + destruct Ha. by apply (list_elem_of_fmap_2 snd) in H2.
    + subst. destruct Ha. by apply (list_elem_of_fmap_2 snd) in H1.
    + by apply IH.
Qed.

(** Invariants of a loop that can raise, with the state of each pass
    known as the state that the earlier passes leave. *)
Lemma foldl_opt_run_inv {A B} (f : B -> A -> option B) (P : B -> list A -> Prop)
    (init : B) (l : list A) (res : B) :
  P init [] ->
  (forall st pre x post st', l = pre ++ x :: post ->
     foldl_opt f pre init = Some st -> P st pre ->
     f st x = Some st' -> P st' (pre ++ [x])) ->
  foldl_opt f l init = Some res -> P res l.
Proof.
  intros H0 Hstep E.
  apply (foldl_opt_inv f (fun st pre => foldl_opt f pre init = Some st /\ P st pre)
           init l res); [done| |done].
  intros st pre x post st' El [Hrun HP] Ex. split.
  - by rewrite foldl_opt_app, Hrun; simpl; rewrite Ex.
  - by eapply Hstep.
Qed.

(** Every entry of the table is made by a row of the input. *)
Lemma link_entry_origin (items : list (Z * list string)) (ids : option Z * option Z)
    (fmap : gmap (string * string) Z) (tmap : gmap Z string)
    (rows : list setlist_row) (st : link_state) (e : setlist_entry) :
  foldl_opt (link_step items ids fmap tmap) rows link_state_init = Some st ->
  e ∈ setlists st ->
  exists row, made_by (link_step items ids fmap tmap) rows e row.
Proof.
  intros E. revert e. revert E.
  apply (foldl_opt_run_inv (link_step items ids fmap tmap)
    (fun st pre => forall e, e ∈ setlists st ->
       exists row, made_by (link_step items ids fmap tmap) pre e row)).
  - by intros e ?%elem_of_nil.
  - intros st0 pre x post st' _ Hrun IH E e He.
    assert (Hold : e ∈ setlists st0 ->
              exists row, made_by (link_step items ids fmap tmap) (pre ++ [x]) e row).
    { intros He0. destruct (IH e He0) as (row & pre' & post' & s0 & s1 & -> & ? & ? & ?).
      exists row, pre', (post' ++ [x]), s0, s1. by rewrite <- app_assoc. }
    assert (Hnew : setlists st' = setlists st0 ++ [e] ->
              exists row, made_by (link_step items ids fmap tmap) (pre ++ [x]) e row).
    { intros Es. by exists x, pre, [], st0, st'. }
    destruct (link_step_skip items ids fmap tmap st0 x)
      as [(sid & song & Hr)|[_ (st1 & E1 & Es & _)]].
    2:{ rewrite E in E1. injection E1 as <-. rewrite Es in He. by apply Hold. }
    pose proof (link_step_reached items ids fmap tmap st0 x sid song Hr) as H.
    destruct (position_of (to_numeric lib (r_position x))) as [pos|]; [|congruence].
    destruct H as (st1 & E1 & H). rewrite E in E1. injection E1 as <-.
    case_bool_decide; destruct H as (Es & _).
    + rewrite Es in He. by apply Hold.
    + rewrite Es in He.
      apply elem_of_app in He as [He| ->%list_elem_of_singleton]; [by apply Hold|].
      by apply Hnew.
Qed.

(** The entry that a row makes carries the show and the song that the row
    reaches the position step with, the position read from the row and its
    notes. *)
Lemma made_by_fields (items : list (Z * list string)) (ids : option Z * option Z)
    (fmap : gmap (string * string) Z) (tmap : gmap Z string)
    (rows : list setlist_row) (e : setlist_entry) (row : setlist_row) :
  made_by (link_step items ids fmap tmap) rows e row ->
  row ∈ rows /\
  reaches_position items ids fmap tmap row (e_show_id e) (e_song_id e) /\
  position_of (to_numeric lib (r_position row)) = Some (position e) /\
  notes e = Py.strip (py_str (r_notes row)).
Proof.
  intros (pre & post & st0 & st1 & -> & _ & E & Es).
  split; [apply elem_of_app; right; by left|].
  assert (Hlen : setlists st1 <> setlists st0).
  { intros E'. rewrite E' in Es. apply (f_equal length) in Es.
    rewrite length_app in Es. simpl in Es. lia. }
  destruct (link_step_skip items ids fmap tmap st0 row)
    as [(sid & song & Hr)|[_ (st' & E' & Es' & _)]]; [|congruence].
  pose proof (link_step_reached items ids fmap tmap st0 row sid song Hr) as H.
  destruct (position_of (to_numeric lib (r_position row))) as [pos|]; [|congruence].
  destruct H as (st' & E' & H). rewrite E in E'. injection E' as <-.
  case_bool_decide; destruct H as (Es' & _); [done|].
  rewrite Es in Es'. apply app_inj_tail in Es' as [_ ->]. done.
Qed.

(** A row that reaches the position step is routed to the song it reaches
    the step with. *)
Lemma row_routed (items : list (Z * list string)) (ids : option Z * option Z)
    (fmap : gmap (string * string) Z) (tmap : gmap Z string)
    (rows : list setlist_row) (st : link_state) (row : setlist_row) (sid song : Z) :
  foldl_opt (link_step items ids fmap tmap) rows link_state_init = Some st ->
  row ∈ rows ->
  reaches_position items ids fmap tmap row sid song ->
  routed_to (link_step items ids fmap tmap) rows (setlists st) row sid song.
Proof.
  intros E Hrow Hr. split.
  - by apply (link_loop_complete items ids fmap tmap rows).
  - intros e (_ & Hr' & _)%made_by_fields.
    by destruct (reaches_position_unique _ _ _ _ _ _ _ _ _ Hr' Hr).
Qed.

(** The choice of the song for the monitored tokens on an index without
    repetitions: with both monitored entries it is the acoustic entry on a
    tour of the alias set and the standard entry elsewhere, where the
    sequence matcher alone gives the standard entry; without one of them it
    is what the sequence matcher gives. *)
Lemma choose_song_bitusa (items : list (Z * list string)) (tour_name : string) :
  NoDup (map fst items) -> NoDup (map snd items) ->
  (forall std alt,
     (std, standard_bitusa_words) ∈ items -> (alt, reunion_bitusa_words) ∈ items ->
     std <> alt /\
     find_match_by_sequence standard_bitusa_words items = Some std /\
     (choose_song items (bitusa_ids items) tour_name standard_bitusa_words).1 =
       Some (if bool_decide (Py.lower tour_name ∈ REUNION_TOUR_RAW_NAMES)
             then alt else std)) /\
  ((forall id, (id, standard_bitusa_words) ∉ items) \/
   (forall id, (id, reunion_bitusa_words) ∉ items) ->
   (choose_song items (bitusa_ids items) tour_name standard_bitusa_words).1 =
     find_match_by_sequence standard_bitusa_words items).
Proof.
  intros Hnf Hns. pose proof (bitusa_ids_spec items) as [H1 H2].
  assert (Hq : standard_bitusa_words <> [])
    by (rewrite standard_bitusa_words_eq; discriminate).
  unfold choose_song. destruct (bitusa_ids items) as [s r]. simpl in H1, H2.
  rewrite (bool_decide_eq_true_2 (standard_bitusa_words = standard_bitusa_words))
    by done.
  destruct s as [s0|]; simpl.
  - pose proof (find_match_exact _ _ _ Hq Hns H1) as Hf.
    destruct r as [r0|]; simpl.
    + split.
      * intros std alt Hs Ha.
        assert (std = s0) as -> by by eapply NoDup_snd_unique.
        assert (alt = r0) as -> by by eapply NoDup_snd_unique.
        split_and!; [|done|].
        -- intros ->. apply bitusa_words_differ. by eapply NoDup_fst_unique.
        -- rewrite andb_true_r. by case_bool_decide.
      * intros [H|H]; [by destruct (H s0)|by destruct (H r0)].
    + split.
      * intros std alt _ Ha. by destruct (H2 _ _ Ha).
      * intros _. by rewrite andb_false_r.
  - split.
    + intros std alt Hs _. by destruct (H1 _ _ Hs).
    + intros _. unfold sequence_choice.
      by destruct (truthy (find_match_by_sequence standard_bitusa_words items)).
Qed.

(** C6.  In a run of the linker on the index of a catalog, a row whose
    title tokens are exactly the monitored "born in the usa" sequence and
    that is resolved to a show is routed as follows.  When the catalog has
    both the standard and the acoustic song, the row is routed to the
    acoustic song_id if the tour name of its show is in the Reunion alias
    set, compared without regard to case, and to the standard song_id
    otherwise; the contextual check comes first, as the sequence matcher
    alone gives the standard song_id on every tour.  When the catalog lacks
    the standard or the acoustic song, the row is routed to what the
    sequence matcher gives for its tokens, and made no entry of when the
    matcher finds no match. *)
Theorem contextual_routing (o : set_order) (ses : list session_row)
    (sets : list setlist_row) (songs : list song) (index : list (Z * list string))
    (rows : list setlist_row) (shows : list show) (entries : list setlist_entry)
    (row : setlist_row) (sid : Z) :
  create_final_songs_table o ses sets = Some (songs, index) ->
  create_shows_setlists_tables rows index = Some (shows, entries) ->
  row ∈ rows ->
  original_show_key_to_id_map (resolve_shows rows) !! original_input_key row = Some sid ->
  row_words row = standard_bitusa_words ->
  let step := link_step index (bitusa_ids index)
                (original_show_key_to_id_map (resolve_shows rows)) (tour_map shows) in
  exists sh, sh ∈ shows /\ show_id sh = sid /\
    (forall std alt,
       (std, standard_bitusa_words) ∈ index -> (alt, reunion_bitusa_words) ∈ index ->
       std <> alt /\
       find_match_by_sequence standard_bitusa_words index = Some std /\
       routed_to step rows entries row sid
         (if bool_decide (Py.lower (tour sh) ∈ REUNION_TOUR_RAW_NAMES)
          then alt else std)) /\
    ((forall id, (id, standard_bitusa_words) ∉ index) \/
     (forall id, (id, reunion_bitusa_words) ∉ index) ->
     match find_match_by_sequence standard_bitusa_words index with
     | Some song => routed_to step rows entries row sid song
     | None =>
         (forall e, ~ made_by step rows e row) /\
         forall st, exists st', step st row = Some st' /\ setlists st' = setlists st
     end).
Proof.
  intros Hcat Htab Hrow Hmap Hw step.
  pose proof Hcat as [_ Ei]%create_final_songs_table_Some.
  assert (Hnf : NoDup (map fst index)).
  { rewrite Ei, number_tokens_fst. apply NoDup_range1. }
  assert (Hns : NoDup (map snd index)).
  { rewrite Ei, number_tokens_snd, catalog_data_tokens. apply NoDup_catalog_tokens. }
  assert (Hpos : forall song, song ∈ map fst index -> song <> 0).
  { intros song Hs. rewrite Ei, number_tokens_fst in Hs.
    apply range1_positive in Hs. lia. }
  unfold create_shows_setlists_tables in Htab.
  destruct (is_nil (shows_data (resolve_shows rows))); [done|].
  destruct (link_rows index (resolve_shows rows) rows) as [st|] eqn:El; [|done].
  injection Htab as <- <-.
  unfold link_rows in El. fold (tour_map (shows_data (resolve_shows rows))) in El.
  fold step in El.
  pose proof (resolve_shows_inv rows) as Hinv.
  destruct (inv_map _ _ Hinv _ _ Hmap) as (sh & Hsh & Hid & _).
  assert (Hsid : sid <> 0).
  { assert (sid ∈ map show_id (shows_data (resolve_shows rows))) as Hs
      by (rewrite <- Hid; by apply (list_elem_of_fmap_2 show_id)).
    rewrite (inv_ids _ _ Hinv) in Hs. apply range1_positive in Hs. lia. }
  assert (Htour : default "" (tour_map (shows_data (resolve_shows rows)) !! sid)
                  = tour sh).
  { rewrite <- Hid, tour_map_lookup; [done| |done].
    rewrite (inv_ids _ _ Hinv). apply NoDup_range1. }
  assert (Hreach : forall song,
            (choose_song index (bitusa_ids index) (tour sh) standard_bitusa_words).1
              = Some song ->
            routed_to step rows (setlists st) row sid song).
  { intros song Hc. apply row_routed; [done|done|].
    split_and!; try done.
    - rewrite Hw, standard_bitusa_words_eq. discriminate.
    - by rewrite Htour, Hw.
    - apply Hpos.
      destruct (choose_song index (bitusa_ids index) (tour sh) standard_bitusa_words)
        as [s m] eqn:Ec.
      simpl in Hc. subst s. by apply choose_song_in_index in Ec. }
  destruct (choose_song_bitusa index (tour sh) Hnf Hns) as [Hboth Hone].
  exists sh. split_and!; try done.
  - intros std alt Hs Ha. destruct (Hboth std alt Hs Ha) as (Hd & Hf & Hc).
    split_and!; try done. by apply Hreach.
  - intros Habs. specialize (Hone Habs).
    destruct (find_match_by_sequence standard_bitusa_words index) as [song|] eqn:Ef.
    + by apply Hreach.
    + assert (Hno : forall sid' song',
                ~ reaches_position index (bitusa_ids index)
                    (original_show_key_to_id_map (resolve_shows rows))
                    (tour_map (shows_data (resolve_shows rows))) row sid' song').
      { intros sid' song' (Hm' & _ & _ & Hc & _).
        assert (sid' = sid) as -> by congruence.
        rewrite Htour, Hw, Hone in Hc. done. }
      split.
      * intros e (_ & Hr & _)%made_by_fields. by eapply Hno.
      * intros st0.
        destruct (link_step_skip index (bitusa_ids index)
                    (original_show_key_to_id_map (resolve_shows rows))
                    (tour_map (shows_data (resolve_shows rows))) st0 row)
          as [(sid' & song' & Hr)|[_ (st' & E' & Es & _)]]; [by destruct (Hno _ _ Hr)|].
        by exists st'.
Qed.

(** C8 (as amended).  A pass of the linking loop on a row that reaches the
    position step reads the position cell as a number: it takes the integer
    read, negative or not, and 0 when the cell does not read as a number,
    and keeps the row, whose entry it appends unless an entry with its show,
    song and position is there already; on a cell that reads as an infinity
    the pass raises.  A row that does not reach the position step (no show,
    no title token, no song) is passed over, whatever its position cell.
    The linking loop raises exactly when a row that reaches the position
    step has a cell that reads as an infinity; otherwise every entry of the
    table is made by a row of the input and carries the integer read from
    the position cell of that row, 0 when it does not read as a number. *)
Theorem positions_parsed (items : list (Z * list string)) (res : show_state)
    (rows : list setlist_row) :
  let ids := bitusa_ids items in
  let fmap := original_show_key_to_id_map res in
  let tmap := tour_map (shows_data res) in
  let step := link_step items ids fmap tmap in
  (forall st row sid song,
     reaches_position items ids fmap tmap row sid song ->
     let n := to_numeric lib (r_position row) in
     (n = NumInf -> step st row = None) /\
     (n <> NumInf ->
      exists st', step st row = Some st' /\
        (sid, song, position_value n) ∈ setlist_keys st' /\
        setlists st' =
          if bool_decide ((sid, song, position_value n) ∈ setlist_keys st)
          then setlists st
          else setlists st ++
                 [entry_of (setlist_entry_id_counter st) sid song
                    (position_value n) row])) /\
  (forall st row,
     (forall sid song, ~ reaches_position items ids fmap tmap row sid song) ->
     exists st', step st row = Some st' /\ setlists st' = setlists st /\
       setlist_keys st' = setlist_keys st) /\
  match link_rows items res rows with
  | None =>
      exists row sid song, row ∈ rows /\
        reaches_position items ids fmap tmap row sid song /\
        to_numeric lib (r_position row) = NumInf
  | Some st =>
      (forall row sid song, row ∈ rows ->
         reaches_position items ids fmap tmap row sid song ->
         to_numeric lib (r_position row) <> NumInf) /\
      forall e, e ∈ setlists st ->
        exists row, made_by step rows e row /\
          reaches_position items ids fmap tmap row (e_show_id e) (e_song_id e) /\
          to_numeric lib (r_position row) <> NumInf /\
          position e = position_value (to_numeric lib (r_position row))
  end.
Proof.
  intros ids fmap tmap step.
  assert (Hval : forall n pos, position_of n = Some pos ->
            n <> NumInf /\ pos = position_value n).
  { intros [|z|] pos; simpl; intros [= <-]; done. }
  split.
  - intros st row sid song Hr.
    pose proof (link_step_reached items ids fmap tmap st row sid song Hr) as H.
    fold step in H.
    destruct (to_numeric lib (r_position row)) as [|z|]; simpl in *;
      (split; [done|]); intros Hn; [| |done].
    all: destruct H as (st' & E & H); exists st'; split; [done|].
    all: case_bool_decide as Hk; destruct H as (Es & _ & Ek); rewrite Es, Ek.
    all: split; [|done].
    all: first [done|apply elem_of_union; left; by apply elem_of_singleton].
  - split.
    { intros st row Hno.
      destruct (link_step_skip items ids fmap tmap st row)
        as [(sid & song & Hr)|[_ (st' & E & Es & _ & Ek)]]; [by destruct (Hno _ _ Hr)|].
      by exists st'. }
    unfold link_rows. fold (tour_map (shows_data res)). fold ids fmap tmap step.
    destruct (foldl_opt step rows link_state_init) as [st|] eqn:El.
    + split.
      * intros row sid song Hrow Hr Einf.
        assert (foldl_opt step rows link_state_init = None); [|congruence].
        apply link_loop_None. exists row. split; [done|]. by exists sid, song.
      * intros e He.
        destruct (link_entry_origin items ids fmap tmap rows st e El He) as [row Hm].
        destruct (made_by_fields _ _ _ _ _ _ _ Hm) as (_ & Hr & Hp & _).
        apply Hval in Hp as [Hinf Hp]. by exists row.
    + apply link_loop_None in El as (row & Hrow & sid & song & Hr & Einf).
      by exists row, sid, song.
Qed.

(** ** The batch driver *)

(** The three tables of a run refer to each other: every setlist entry
    names a show of the shows table and a song of the songs table. *)
Lemma build_tables_consistent (o : set_order) (ses : list session_row)
    (sets : list setlist_row) (songs : list song) (shows : list show)
    (entries : list setlist_entry) :
  build_tables o ses sets = Some (songs, shows, entries) ->
  forall e, e ∈ entries ->
    e_show_id e ∈ map show_id shows /\ e_song_id e ∈ map song_id songs.
Proof.
  unfold build_tables.
  destruct (create_final_songs_table o ses sets) as [[sg index]|] eqn:E1; [|done].
  unfold create_shows_setlists_tables.
  destruct (is_nil (shows_data (resolve_shows sets))); [done|].
  destruct (link_rows index (resolve_shows sets) sets) as [st|] eqn:El; [|done].
  intros [= <- <- <-] e He.
  unfold link_rows in El.
  destruct (linv_entries _ _ _ _ _ _ (link_inv_fold _ _ _ _ _ _ El) e He)
    as (row & _ & (Hshow & _ & _ & Hsong & _) & _).
  split.
  - destruct (inv_map _ _ (resolve_shows_inv sets) _ _ Hshow) as (sh & Hsh & <- & _).
    by apply (list_elem_of_fmap_2 show_id).
  - destruct (choose_song index _ _ _) as [s m] eqn:Ec. simpl in Hsong. subst s.
    apply choose_song_in_index in Ec.
    apply create_final_songs_table_Some in E1 as [-> ->].
    by rewrite number_songs_id, <- number_tokens_fst.
Qed.


(** * Further properties of the pipeline *)

(** ** Matching *)

Lemma OrderedSubseq_trans (a b c : list string) :
  OrderedSubseq a b -> OrderedSubseq b c -> OrderedSubseq a c.
Proof.
  intros Hab Hbc. revert a Hab.
  induction Hbc as [c|x b c Hbc IH|x b c Hbc IH]; intros a Hab.
  - inversion Hab; subst. constructor.
  - inversion Hab; subst.
    + constructor.
    + constructor. by apply IH.
    + constructor. by apply IH.
  - constructor. by apply IH.
Qed.

(** X1.  The iterator idiom of [is_subsequence] decides the ordered
    subsequence relation: it answers true exactly when every token of the
    needle occurs in the haystack, in the same order, with any tokens in
    between. *)
Theorem is_subsequence_decides_ordered_subsequence (needle haystack : list string) :
  is_subsequence needle haystack = true <-> OrderedSubseq needle haystack.
Proof. apply is_subsequence_spec. Qed.

(** X2.  Adding tokens to a query never loses a match: when a query has a
    match and is an ordered subsequence of a longer query, the longer query
    has a match too, and the matched entry is at least as long. *)
Theorem find_match_survives_added_tokens (q q' : list string)
    (items : list (Z * list string)) (id : Z) :
  OrderedSubseq q q' ->
  find_match_by_sequence q items = Some id ->
  exists id' ws ws',
    find_match_by_sequence q' items = Some id' /\
    (id, ws) ∈ items /\ OrderedSubseq ws q /\
    (id', ws') ∈ items /\ OrderedSubseq ws' q' /\
    (length ws <= length ws')%nat.
Proof.
  intros Hqq E.
  pose proof (find_match_by_sequence_spec q items) as H. rewrite E in H.
  destruct H as (pre & ws & post & Hitems & [Hne Hsub] & _).
  assert (Hin : (id, ws) ∈ items).
  { rewrite Hitems. apply elem_of_app. right. by left. }
  assert (Hc : candidate q' ws).
  { split; [done|]. by eapply OrderedSubseq_trans. }
  pose proof (find_match_by_sequence_spec q' items) as H'.
  destruct (find_match_by_sequence q' items) as [id'|].
  2:{ by destruct (H' _ _ Hin). }
  destruct H' as (pre' & ws' & post' & Hitems' & [Hne' Hsub'] & Hpre' & Hpost').
  exists id', ws, ws'. split_and!; try done.
  - rewrite Hitems'. apply elem_of_app. right. by left.
  - rewrite Hitems' in Hin. apply elem_of_app in Hin as [Hin|Hin].
    + specialize (Hpre' _ _ Hin Hc). lia.
    + apply elem_of_cons in Hin as [[= -> ->]|Hin]; [done|].
      by specialize (Hpost' _ _ Hin Hc).
Qed.

(** X3.  In an index whose token sequences are pairwise distinct, a query
    that is itself the token sequence of an entry is matched to that
    entry, whatever shorter candidates the index holds. *)
Theorem find_match_prefers_exact_entry (q : list string)
    (items : list (Z * list string)) (id : Z) :
  q <> [] -> NoDup (map snd items) -> (id, q) ∈ items ->
  find_match_by_sequence q items = Some id.
Proof. apply find_match_exact. Qed.

(** ** The catalog *)

Lemma drop_duplicates_go_nil {A K} `{EqDecision K} (key : A -> K) (l : list A) :
  drop_duplicates_go key [] l = [] <-> l = [].
Proof.
  destruct l as [|x l]; [done|]. simpl. done.
Qed.

Lemma List_filter_nil {A} (P : A -> bool) (l : list A) :
  List.filter P l = [] <-> forall x, x ∈ l -> P x = false.
Proof.
  induction l as [|x l IH]; simpl.
  - split; [by intros _ y ?%elem_of_nil|done].
  - destruct (P x) eqn:E.
    + split; [done|]. intros H. specialize (H x (list_elem_of_here _ _)). congruence.
    + rewrite IH. split.
      * intros H y [->|?]%elem_of_cons; [done|by apply H].
      * intros H y Hy. apply H. by right.
Qed.

Lemma is_nil_true {A} (l : list A) : is_nil l = true <-> l = [].
Proof. by destruct l. Qed.

Lemma session_songs_nil (ses : list session_row) :
  is_nil (session_songs ses) = true <->
  forall row, row ∈ ses -> preprocess_title_for_matching (s_song row) = [].
Proof.
  rewrite is_nil_true. unfold session_songs, drop_duplicates.
  rewrite drop_duplicates_go_nil.
  split.
  - intros E row Hrow. apply fmap_nil_inv in E.
    pose proof (proj1 (List_filter_nil _ _) E row Hrow) as Hr.
    unfold has_tokens, session_tokens in Hr. apply negb_false_iff in Hr.
    by apply is_nil_true.
  - intros Hall. rewrite (proj2 (List_filter_nil _ _)); [done|].
    intros row Hrow. unfold has_tokens, session_tokens.
    by rewrite (Hall row Hrow).
Qed.

(** X4.  The catalog builder fails (the frame of session songs has no
    column to read) exactly when no session row has a title with a token;
    what the setlist rows hold does not matter. *)
Theorem builder_fails_without_session_song (o : set_order) (ses : list session_row)
    (sets : list setlist_row) :
  create_final_songs_table o ses sets = None <->
  forall row, row ∈ ses -> preprocess_title_for_matching (s_song row) = [].
Proof.
  rewrite create_final_songs_table_closed, <- session_songs_nil.
  by destruct (is_nil (session_songs ses)).
Qed.

(** X5.  The token index of the catalog holds no empty token sequence, and
    a token sequence is in it exactly when it is the non-empty token
    sequence of the title of a session row or of a setlist row: a title
    without tokens never enters the catalog, every other title does. *)
Theorem catalog_index_covers_titles (o : set_order) (ses : list session_row)
    (sets : list setlist_row) (songs : list song) (index : list (Z * list string)) :
  create_final_songs_table o ses sets = Some (songs, index) ->
  (forall id ws, (id, ws) ∈ index -> ws <> []) /\
  (forall k, k ∈ map snd index <->
     k <> [] /\
     ((exists row, row ∈ ses /\ preprocess_title_for_matching (s_song row) = k) \/
      (exists row, row ∈ sets /\ preprocess_title_for_matching (r_song row) = k))).
Proof.
  intros [_ ->]%create_final_songs_table_Some.
  assert (Hk : forall k, k ∈ map snd (number_tokens (catalog_data o ses sets)) <->
     k <> [] /\
     ((exists row, row ∈ ses /\ preprocess_title_for_matching (s_song row) = k) \/
      (exists row, row ∈ sets /\ preprocess_title_for_matching (r_song row) = k))).
  { intros k. rewrite catalog_index_tokens. unfold setlist_token_sequences.
    rewrite !list_elem_of_fmap. unfold session_tokens.
    split; intros [Hne [(r & ? & ?)|(r & ? & ?)]]; (split; [done|]);
      [left|right|left|right]; by exists r. }
  split; [|exact Hk].
  intros id ws Hin. apply (list_elem_of_fmap_2 snd) in Hin. simpl in Hin.
  apply Hk in Hin. by destruct Hin.
Qed.

(** X6.  Looking a catalog entry up by its own token sequence gives the
    entry back: on the index that the builder returns, the sequence
    matcher maps the token sequence of every entry to the song_id of that
    entry. *)
Theorem catalog_entry_matches_itself (o : set_order) (ses : list session_row)
    (sets : list setlist_row) (songs : list song) (index : list (Z * list string))
    (id : Z) (ws : list string) :
  create_final_songs_table o ses sets = Some (songs, index) ->
  (id, ws) ∈ index ->
  find_match_by_sequence ws index = Some id.
Proof.
  intros [_ ->]%create_final_songs_table_Some Hin.
  apply find_match_exact; [| |done].
  - pose proof (list_elem_of_fmap_2 snd _ _ Hin) as Hk. simpl in Hk.
    apply catalog_index_tokens in Hk. by destruct Hk.
  - rewrite number_tokens_snd, catalog_data_tokens. apply NoDup_catalog_tokens.
Qed.

Lemma drop_duplicates_go_first {A K} `{EqDecision K} (key : A -> K)
    (seen : list K) (a : list A) (x : A) (b : list A) :
  key x ∉ seen -> (forall y, y ∈ a -> key y <> key x) ->
  x ∈ drop_duplicates_go key seen (a ++ x :: b).
Proof.
  revert seen. induction a as [|y a IH]; intros seen Hx Ha; simpl.
  - rewrite bool_decide_eq_false_2 by done. by left.
  - case_bool_decide as Hy.
    + apply IH; [done|]. intros z Hz. apply Ha. by right.
    + right. apply IH.
      * intros [E|?]%elem_of_cons; [|done]. by apply (Ha y); [left|].
      * intros z Hz. apply Ha. by right.
Qed.

(** An entry of the catalog data is a row of the songs table and an item
    of the token index, under one song_id. *)
Lemma catalog_entry_numbered (data : list song_data) (d : song_data) :
  d ∈ data ->
  exists sg, sg ∈ number_songs data /\
    (song_id sg, sd_processed_words d) ∈ number_tokens data /\
    title sg = sd_title d /\ album sg = sd_album d /\
    is_outtake sg = sd_is_outtake d.
Proof.
  intros [i Hi]%list_elem_of_lookup.
  pose proof (lookup_lt_Some _ _ _ Hi) as Hlt.
  exists {| song_id := Z.of_nat i + 1; title := sd_title d;
            album := sd_album d; is_outtake := sd_is_outtake d |}.
  split_and!; try done.
  - apply list_elem_of_lookup. exists i. unfold number_songs.
    rewrite lookup_zip_with, range1_lookup by done. simpl. by rewrite Hi.
  - apply list_elem_of_lookup. exists i. unfold number_tokens.
    rewrite lookup_zip_with, range1_lookup by done. simpl. by rewrite Hi.
Qed.

(** X7.  Of several session rows whose titles have the same token
    sequence the first one makes the catalog entry: its display title, the
    album label of its session and its outtake flag (1 exactly when the
    type cell is "outtake" in any casing) are those of the song with that
    token sequence. *)
Theorem first_session_row_makes_entry (o : set_order)
    (pre post : list session_row) (row : session_row)
    (sets : list setlist_row) (songs : list song) (index : list (Z * list string)) :
  create_final_songs_table o (pre ++ row :: post) sets = Some (songs, index) ->
  preprocess_title_for_matching (s_song row) <> [] ->
  (forall r, r ∈ pre ->
     preprocess_title_for_matching (s_song r)
       <> preprocess_title_for_matching (s_song row)) ->
  exists sg, sg ∈ songs /\
    (song_id sg, preprocess_title_for_matching (s_song row)) ∈ index /\
    title sg = get_canonical_display_title (s_song row) /\
    album sg = get_album_from_session (s_session row) /\
    is_outtake sg =
      if String.eqb (Py.lower (py_str (s_type row))) "outtake" then 1 else 0.
Proof.
  intros [-> ->]%create_final_songs_table_Some Hne Hpre.
  apply (catalog_entry_numbered _ (session_entry row)).
  unfold catalog_data. apply elem_of_app. left.
  unfold session_songs, drop_duplicates.
  rewrite List.filter_app, map_app. simpl.
  assert (has_tokens (session_tokens row) = true) as ->.
  { unfold has_tokens, session_tokens.
    by destruct (preprocess_title_for_matching (s_song row)). }
  simpl. apply drop_duplicates_go_first.
  - by intros ?%elem_of_nil.
  - intros y (r & -> & Hr)%list_elem_of_fmap. simpl.
    apply elem_of_List_filter in Hr as [Hr _]. by apply Hpre.
Qed.

(** ** Display strings *)

Lemma rstrip_idem (s : string) : Py.rstrip (Py.rstrip s) = Py.rstrip s.
Proof.
  induction s as [|c s IH]; [done|].
  cbn [Py.rstrip]. cbv zeta.
  destruct (Py.is_empty (Py.rstrip s) && Py.is_space c) eqn:E; [done|].
  cbn [Py.rstrip]. cbv zeta. by rewrite IH, E.
Qed.

Lemma lstrip_head (s : string) :
  Py.lstrip s = "" \/ exists c r, Py.lstrip s = String c r /\ Py.is_space c = false.
Proof.
  induction s as [|c s IH]; [by left|].
  simpl. destruct (Py.is_space c) eqn:E; [done|]. right. by exists c, s.
Qed.

Lemma strip_idem (s : string) : Py.strip (Py.strip s) = Py.strip s.
Proof.
  unfold Py.strip.
  assert (H : Py.lstrip (Py.rstrip (Py.lstrip s)) = Py.rstrip (Py.lstrip s)).
  { destruct (lstrip_head s) as [->|(c & r & -> & Hc)]; [done|].
    cbn [Py.rstrip]. cbv zeta. rewrite Hc, andb_false_r. simpl. by rewrite Hc. }
  by rewrite H, rstrip_idem.
Qed.

Lemma single_spaced_ws_sub (b : bool) (s : string) :
  single_spaced b (Py.ws_sub_go b s) = true.
Proof.
  revert b. induction s as [|c s IH]; intros b; [done|].
  cbn [Py.ws_sub_go]. destruct (Py.is_space c) eqn:Hc.
  - destruct b; [apply IH|]. cbn [single_spaced].
    change (Py.is_space " ") with true. cbv iota. by rewrite IH.
  - cbn [single_spaced]. by rewrite Hc.
Qed.

Lemma single_spaced_weaken (b : bool) (s : string) :
  single_spaced b s = true -> single_spaced false s = true.
Proof.
  destruct s as [|c s]; [done|]. cbn [single_spaced].
  destruct (Py.is_space c); [|done]. destruct b; [|done].
  by rewrite andb_false_r.
Qed.

Lemma single_spaced_lstrip (b : bool) (s : string) :
  single_spaced b s = true -> single_spaced false (Py.lstrip s) = true.
Proof.
  revert b. induction s as [|c s IH]; intros b; [done|].
  cbn [single_spaced Py.lstrip]. destruct (Py.is_space c) eqn:Hc.
  - intros (_ & H)%andb_true_iff. by apply (IH true).
  - intros H. cbn [single_spaced]. by rewrite Hc.
Qed.

Lemma single_spaced_rstrip (b : bool) (s : string) :
  single_spaced b s = true -> single_spaced b (Py.rstrip s) = true.
Proof.
  revert b. induction s as [|c s IH]; intros b; [done|].
  cbn [Py.rstrip]. cbv zeta.
  destruct (Py.is_empty (Py.rstrip s) && Py.is_space c); [done|].
  cbn [single_spaced]. destruct (Py.is_space c).
  - intros ([-> ->]%andb_true_iff & H)%andb_true_iff. by rewrite (IH true).
  - apply IH.
Qed.

Lemma single_spaced_fixed (b : bool) (s : string) :
  single_spaced b s = true -> Py.ws_sub_go b s = s.
Proof.
  revert b. induction s as [|c s IH]; intros b; [done|].
  cbn [single_spaced Py.ws_sub_go]. destruct (Py.is_space c).
  - intros ([Hc Hb]%andb_true_iff & H)%andb_true_iff.
    apply Ascii.eqb_eq in Hc. apply negb_true_iff in Hb. subst c b.
    by rewrite (IH true).
  - intros H. by rewrite (IH false).
Qed.

Lemma strip_ws_sub_fixed (s : string) :
  Py.ws_sub (Py.strip (Py.ws_sub s)) = Py.strip (Py.ws_sub s).
Proof.
  apply single_spaced_fixed. unfold Py.strip.
  apply single_spaced_rstrip, (single_spaced_lstrip false), single_spaced_ws_sub.
Qed.

(** X8.  The display title of a song and the album label of a session
    are normalized strings: they carry no white space at their ends, and
    inside them every run of white space is one space.  Trimming them or
    collapsing their white space changes nothing. *)
Theorem display_strings_are_normalized (t : cell) :
  (Py.strip (get_canonical_display_title t) = get_canonical_display_title t /\
   Py.ws_sub (get_canonical_display_title t) = get_canonical_display_title t) /\
  (Py.strip (get_album_from_session t) = get_album_from_session t /\
   Py.ws_sub (get_album_from_session t) = get_album_from_session t).
Proof.
  split.
  - unfold get_canonical_display_title.
    destruct (isna t || falsy t); [done|]. cbv zeta.
    repeat match goal with
           | |- context [if ?b then _ else _] => destruct b
           end; try done; split; first [apply strip_idem|apply strip_ws_sub_fixed].
  - unfold get_album_from_session.
    destruct (isna t); [done|]. cbv zeta.
    destruct (String.eqb _ _); [done|].
    split; [apply strip_idem|apply strip_ws_sub_fixed].
Qed.

(** ** Shows *)

Lemma show_step_mint_eq (st : show_state) (row : setlist_row) :
  names_show row = true -> unique_show_key row ∉ show_keys st ->
  show_step st row =
  {| shows_data := shows_data st ++ [minted_show (show_id_counter st) row];
     show_keys := {[ unique_show_key row ]} ∪ show_keys st;
     original_show_key_to_id_map :=
       match original_show_key_to_id_map st !! original_input_key row with
       | Some _ => original_show_key_to_id_map st
       | None => <[ original_input_key row := show_id_counter st ]>
                   (original_show_key_to_id_map st)
       end;
     show_id_counter := show_id_counter st + 1 |}.
Proof.
  unfold show_step, names_show, unique_show_key, original_input_key, minted_show.
  destruct (Py.is_empty (Py.strip (py_str (r_date row)))
            || Py.is_empty (Py.strip (py_str (r_venue row)))); [done|].
  intros _ H. by rewrite bool_decide_eq_false_2.
Qed.

Lemma show_fold (l : list setlist_row) (st : show_state)
    (S : list (option string * string)) :
  (forall k, k ∈ show_keys st <-> k ∈ S) ->
  show_id_counter st = Z.of_nat (length (shows_data st)) + 1 ->
  shows_data (fold_left show_step l st) =
  shows_data st ++
  zip_with minted_show
    (map (fun i => Z.of_nat i + 1)
       (seq (length (shows_data st))
          (length (drop_duplicates_go unique_show_key S (List.filter names_show l)))))
    (drop_duplicates_go unique_show_key S (List.filter names_show l)).
Proof.
  revert st S. induction l as [|row l IH]; intros st S HS Hc.
  - simpl. by rewrite app_nil_r.
  - cbn [fold_left List.filter].
    destruct (names_show row) eqn:Hv.
    + cbn [drop_duplicates_go].
      rewrite <- (bool_decide_ext _ _ (HS (unique_show_key row))).
      case_bool_decide as Hk.
      * rewrite show_step_skip by by right. by apply IH.
      * rewrite (show_step_mint_eq st row Hv Hk).
        rewrite (IH _ (unique_show_key row :: S)); cbn [shows_data show_keys show_id_counter].
        -- rewrite <- app_assoc, length_app. cbn [length app map seq zip_with].
           rewrite Hc, Nat.add_1_r. done.
        -- intros k. rewrite elem_of_union, elem_of_singleton, elem_of_cons.
           by rewrite HS.
        -- rewrite length_app. simpl. lia.
    + rewrite show_step_skip by by left. by apply IH.
Qed.

Lemma resolve_shows_closed (rows : list setlist_row) :
  shows_data (resolve_shows rows)
  = zip_with minted_show (range1 (length (minting_rows rows))) (minting_rows rows).
Proof.
  unfold resolve_shows. rewrite (show_fold rows show_state_init []); [done| |done].
  intros k. split; [by intros ?%not_elem_of_empty|by intros ?%elem_of_nil].
Qed.

(** X9.  The shows table holds one show for every distinct identity key
    (normalized date, venue) among the rows that have a date and a venue:
    the show is made of the first row with that key, and the shows are
    numbered 1, 2, .. in the order of these first rows. *)
Theorem shows_are_first_rows_of_keys (rows : list setlist_row) :
  shows_data (resolve_shows rows)
    = zip_with minted_show (range1 (length (minting_rows rows))) (minting_rows rows) /\
  map show_id (shows_data (resolve_shows rows)) = range1 (length (minting_rows rows)) /\
  map show_key (shows_data (resolve_shows rows))
    = drop_duplicates id (map unique_show_key (List.filter names_show rows)) /\
  NoDup (map show_key (shows_data (resolve_shows rows))).
Proof.
  rewrite resolve_shows_closed.
  assert (Hk : map show_key
                 (zip_with minted_show (range1 (length (minting_rows rows)))
                    (minting_rows rows))
               = map unique_show_key (minting_rows rows)).
  { apply map_zip_with_r; [done|by rewrite length_range1]. }
  split_and!.
  - done.
  - rewrite <- (map_id (range1 (length (minting_rows rows)))) at 2.
    apply map_zip_with_l; [done|by rewrite length_range1].
  - rewrite Hk. unfold minting_rows, drop_duplicates.
    symmetry. apply drop_duplicates_go_map.
  - rewrite Hk. apply NoDup_drop_duplicates_go.
Qed.

Lemma or_default_nonempty (d x : string) :
  Py.is_empty d = false -> Py.is_empty (or_default d x) = false.
Proof. unfold or_default. by destruct (Py.is_empty x) eqn:E. Qed.

Lemma or_none_nonempty (x s : string) :
  or_none x = Some s -> Py.is_empty s = false.
Proof. unfold or_none. destruct (Py.is_empty x) eqn:E; [done|by intros [= <-]]. Qed.

Lemma minted_show_fields (id : Z) (row : setlist_row) :
  let sh := minted_show id row in
  Py.is_empty (tour sh) = false /\ Py.is_empty (venue sh) = false /\
  Py.is_empty (city sh) = false /\
  Py.strip (venue sh) = venue sh /\ Py.strip (city sh) = city sh /\
  Forall (fun field => forall s, field = Some s ->
            Py.is_empty s = false /\ Py.strip s = s)
    [state_name sh; state_code sh; country_name sh; country_code sh; show_notes sh].
Proof.
  assert (Hopt : forall x s, or_none (Py.strip x) = Some s ->
                   Py.is_empty s = false /\ Py.strip s = s).
  { intros x s H. split; [by apply or_none_nonempty in H|].
    unfold or_none in H. destruct (Py.is_empty _); [done|].
    injection H as <-. apply strip_idem. }
  assert (Hdef : forall d x, Py.strip d = d ->
                   Py.strip (or_default d (Py.strip x)) = or_default d (Py.strip x)).
  { intros d x Hd. unfold or_default. destruct (Py.is_empty _); [done|apply strip_idem]. }
  unfold minted_show. cbn [tour venue city date state_name state_code country_name
                           country_code show_notes]. cbv zeta.
  split_and!.
  - destruct (Py.is_empty (Py.strip (py_str (r_tour row)))) eqn:Et; [|done].
    destruct (to_datetime lib _) as [[d y]|]; [|done]. simpl.
    by destruct (Py.is_empty y) eqn:Ey.
  - by apply or_default_nonempty.
  - by apply or_default_nonempty.
  - by apply Hdef.
  - by apply Hdef.
  - repeat (constructor; [intros s; apply Hopt|]). constructor.
Qed.

(** X10.  Whatever the library reads from the date cells, every show of
    the table has a non-empty tour, venue and city; venue and city carry no
    surrounding white space; and an optional field (state, country, notes)
    is either absent or a non-empty trimmed string. *)
Theorem show_fields_well_formed (rows : list setlist_row) :
  Forall (fun sh =>
    Py.is_empty (tour sh) = false /\ Py.is_empty (venue sh) = false /\
    Py.is_empty (city sh) = false /\
    Py.strip (venue sh) = venue sh /\ Py.strip (city sh) = city sh /\
    Forall (fun field => forall s, field = Some s ->
              Py.is_empty s = false /\ Py.strip s = s)
      [state_name sh; state_code sh; country_name sh; country_code sh;
       show_notes sh])
  (shows_data (resolve_shows rows)).
Proof.
  rewrite resolve_shows_closed. apply Forall_forall. intros sh Hin.
  apply elem_of_zip_with in Hin as (i & row & -> & _ & _).
  apply minted_show_fields.
Qed.

(** X11.  The date and the tour of a show are those of its first row: the
    date is the date that the library reads from the trimmed date cell,
    absent when the library reads none; the tour is the trimmed tour cell,
    and for a blank tour cell the year that the library reads from the
    date, or "Unknown Tour" when it reads no date or an empty year. *)
Theorem blank_tour_becomes_year (rows : list setlist_row) (i : nat) (row : setlist_row)
    (sh : show) :
  minting_rows rows !! i = Some row ->
  shows_data (resolve_shows rows) !! i = Some sh ->
  let reading := to_datetime lib (Py.strip (py_str (r_date row))) in
  date sh = option_map fst reading /\
  tour sh =
    if Py.is_empty (Py.strip (py_str (r_tour row))) then
      match reading with
      | Some (_, year) => if Py.is_empty year then "Unknown Tour" else year
      | None => "Unknown Tour"
      end
    else Py.strip (py_str (r_tour row)).
Proof.
  intros Hrow. rewrite resolve_shows_closed, lookup_zip_with.
  rewrite Hrow. destruct (range1 _ !! i) as [n|]; [|done]. simpl. intros [= <-].
  unfold minted_show. simpl. split; [done|].
  destruct (Py.is_empty (Py.strip (py_str (r_tour row)))); [|done].
  by destruct (to_datetime lib _) as [[d y]|].
Qed.

Lemma drop_duplicates_go_app {A K} `{EqDecision K} (key : A -> K)
    (seen : list K) (l1 l2 : list A) :
  drop_duplicates_go key seen (l1 ++ l2) =
  drop_duplicates_go key seen l1 ++ drop_duplicates_go key (seen ++ map key l1) l2.
Proof.
  revert seen. induction l1 as [|y l1 IH]; intros seen; simpl.
  - by rewrite app_nil_r.
  - case_bool_decide as Hy; rewrite IH; simpl; f_equal; [|f_equal];
      apply drop_duplicates_go_ext; intros k;
      rewrite !elem_of_app, !elem_of_cons, ?elem_of_app; intuition congruence.
Qed.

Lemma elem_of_minting_keys (rows : list setlist_row) (k : option string * string) :
  k ∈ map unique_show_key (minting_rows rows) <->
  k ∈ map unique_show_key (List.filter names_show rows).
Proof.
  split.
  - intros (r & -> & [Hr _]%elem_of_drop_duplicates_go)%list_elem_of_fmap.
    by apply (list_elem_of_fmap_2 unique_show_key).
  - intros H. apply drop_duplicates_go_keys; [done|by intros ?%elem_of_nil].
Qed.

Lemma minting_rows_app (pre post : list setlist_row) :
  minting_rows (pre ++ post) =
  minting_rows pre ++
  drop_duplicates_go unique_show_key (map unique_show_key (minting_rows pre))
    (List.filter names_show post).
Proof.
  unfold minting_rows, drop_duplicates.
  rewrite List.filter_app, drop_duplicates_go_app. f_equal. simpl.
  apply drop_duplicates_go_ext. intros k. symmetry. apply elem_of_minting_keys.
Qed.

Lemma minting_rows_names (rows : list setlist_row) (row : setlist_row) :
  row ∈ minting_rows rows -> row ∈ rows /\ names_show row = true.
Proof. by intros [?%elem_of_List_filter _]%elem_of_drop_duplicates_go. Qed.

Lemma resolve_shows_snoc (pre : list setlist_row) (row : setlist_row) :
  resolve_shows (pre ++ [row]) = show_step (resolve_shows pre) row.
Proof. unfold resolve_shows. by rewrite fold_left_app. Qed.

Lemma resolve_shows_keys (rows : list setlist_row) (k : option string * string) :
  k ∈ show_keys (resolve_shows rows) <-> k ∈ map unique_show_key (minting_rows rows).
Proof.
  rewrite (inv_keys _ _ (resolve_shows_inv rows)), resolve_shows_closed.
  rewrite (map_zip_with_r _ show_key unique_show_key); [done|done|].
  by rewrite length_range1.
Qed.

Lemma resolve_shows_counter (rows : list setlist_row) :
  show_id_counter (resolve_shows rows) = Z.of_nat (length (minting_rows rows)) + 1.
Proof.
  rewrite (inv_counter _ _ (resolve_shows_inv rows)), resolve_shows_closed.
  rewrite length_zip_with, length_range1. lia.
Qed.

Lemma resolve_map_closed (rows : list setlist_row) (ok : string * string) (id : Z) :
  original_show_key_to_id_map (resolve_shows rows) !! ok = Some id <->
  exists i row, minting_rows rows !! i = Some row /\
    original_input_key row = ok /\ id = Z.of_nat i + 1.
Proof.
  revert ok id. induction rows as [|x pre IH] using rev_ind; intros ok id.
  - split; [done|]. by intros (i & row & ? & _).
  - rewrite resolve_shows_snoc, minting_rows_app. cbn [List.filter].
    destruct (names_show x) eqn:Hv; cbn [drop_duplicates_go].
    2:{ rewrite show_step_skip by by left. by rewrite app_nil_r. }
    case_bool_decide as Hk.
    { rewrite show_step_skip by (right; by apply resolve_shows_keys).
      by rewrite app_nil_r. }
    assert (Hnin : unique_show_key x ∉ show_keys (resolve_shows pre))
      by by rewrite resolve_shows_keys.
    rewrite (show_step_mint_eq _ x Hv Hnin). cbn [original_show_key_to_id_map].
    assert (Hfresh : forall i row, minting_rows pre !! i = Some row ->
              original_input_key row <> original_input_key x).
    { intros i row Hi E. apply Hk.
      rewrite (unique_show_key_original x), <- E, <- unique_show_key_original.
      apply (list_elem_of_fmap_2 unique_show_key). by eapply list_elem_of_lookup_2. }
    destruct (original_show_key_to_id_map (resolve_shows pre) !! original_input_key x)
      as [id0|] eqn:E0.
    { apply IH in E0 as (i & row & Hi & E & _). by destruct (Hfresh i row Hi). }
    rewrite resolve_shows_counter. split.
    + destruct (decide (ok = original_input_key x)) as [->|Hne].
      * rewrite lookup_insert_eq. intros [= <-].
        exists (length (minting_rows pre)), x. split_and!; [|done|done].
        by rewrite list_lookup_middle.
      * rewrite lookup_insert_ne by done. intros (i & row & Hi & ? & ?)%IH.
        exists i, row. split_and!; [|done|done].
        by apply lookup_app_l_Some.
    + intros (i & row & Hi & <- & ->).
      apply lookup_app_Some in Hi as [Hi|[Hlen Hi]].
      * rewrite lookup_insert_ne by (intros E; by destruct (Hfresh i row Hi)).
        apply IH. by exists i, row.
      * destruct (i - length (minting_rows pre))%nat as [|j] eqn:Ej; [|done].
        injection Hi as <-. rewrite lookup_insert_eq. do 2 f_equal. lia.
Qed.

(** X12.  The map from input keys to show ids that the linker reads has
    exactly one key for every show: the trimmed date and venue strings of
    the first row of the show, which point to the show's id.  Hence no two
    keys point to the same show. *)
Theorem show_map_keys_are_first_rows (rows : list setlist_row) :
  (forall ok id,
     original_show_key_to_id_map (resolve_shows rows) !! ok = Some id <->
     exists i row, minting_rows rows !! i = Some row /\
       original_input_key row = ok /\ id = Z.of_nat i + 1) /\
  (forall ok1 ok2 id,
     original_show_key_to_id_map (resolve_shows rows) !! ok1 = Some id ->
     original_show_key_to_id_map (resolve_shows rows) !! ok2 = Some id ->
     ok1 = ok2).
Proof.
  split; [apply resolve_map_closed|].
  intros ok1 ok2 id (i & r1 & H1 & <- & ->)%resolve_map_closed
    (j & r2 & H2 & <- & E)%resolve_map_closed.
  assert (i = j) as -> by lia. congruence.
Qed.

Lemma minting_rows_first (pre post : list setlist_row) (row : setlist_row) :
  names_show row = true ->
  (forall r, r ∈ pre -> names_show r = true ->
     unique_show_key r <> unique_show_key row) ->
  exists rest, minting_rows (pre ++ row :: post) = minting_rows pre ++ row :: rest.
Proof.
  intros Hv Hfirst. rewrite minting_rows_app. cbn [List.filter]. rewrite Hv.
  cbn [drop_duplicates_go]. rewrite bool_decide_eq_false_2; [by eexists|].
  intros (r & E & [Hr Hn]%minting_rows_names)%list_elem_of_fmap.
  by apply (Hfirst r Hr Hn).
Qed.

(** X13.  The first row of a show (a row with a date and a venue whose
    identity key no earlier such row has) is registered: its trimmed date
    and venue strings point to the id that follows the ids of the shows of
    the earlier rows, and the show with that id is the one made of this
    row, whatever rows follow. *)
Theorem first_listing_resolves (pre post : list setlist_row) (row : setlist_row) :
  names_show row = true ->
  (forall r, r ∈ pre -> names_show r = true ->
     unique_show_key r <> unique_show_key row) ->
  let res := resolve_shows (pre ++ row :: post) in
  let n := Z.of_nat (length (shows_data (resolve_shows pre))) + 1 in
  original_show_key_to_id_map res !! original_input_key row = Some n /\
  shows_data res !! length (shows_data (resolve_shows pre)) = Some (minted_show n row).
Proof.
  intros Hv Hfirst res n. subst res n.
  destruct (minting_rows_first pre post row Hv Hfirst) as [rest E].
  assert (Hlen : length (shows_data (resolve_shows pre)) = length (minting_rows pre)).
  { rewrite resolve_shows_closed, length_zip_with, length_range1. lia. }
  rewrite Hlen.
  assert (Hrow : minting_rows (pre ++ row :: post) !! length (minting_rows pre)
                 = Some row) by (rewrite E; by rewrite list_lookup_middle).
  split.
  - apply resolve_map_closed. by exists (length (minting_rows pre)), row.
  - rewrite resolve_shows_closed, lookup_zip_with, Hrow, range1_lookup; [done|].
    rewrite E, length_app. simpl. lia.
Qed.

Lemma names_show_original (row : setlist_row) :
  names_show row =
  negb (Py.is_empty (original_input_key row).1 || Py.is_empty (original_input_key row).2).
Proof. done. Qed.

Lemma unnamed_row_unresolved (rows : list setlist_row) (row : setlist_row) :
  names_show row = false ->
  original_show_key_to_id_map (resolve_shows rows) !! original_input_key row = None.
Proof.
  intros Hv.
  destruct (_ !! _) as [id|] eqn:E; [|done].
  apply resolve_map_closed in E as (i & r & Hi & E & _).
  apply list_elem_of_lookup_2, minting_rows_names in Hi as [_ Hr].
  rewrite names_show_original in Hv, Hr. rewrite E in Hr. congruence.
Qed.

(** X14.  A setlist row without a date or without a venue leaves the shows
    table and the setlists table as they are without it: it makes no show
    and no entry, and it changes no id of the other rows. *)
Theorem row_without_date_or_venue_is_ignored (pre post : list setlist_row)
    (row : setlist_row) (canonical_matching_map : list (Z * list string)) :
  names_show row = false ->
  create_shows_setlists_tables (pre ++ row :: post) canonical_matching_map
  = create_shows_setlists_tables (pre ++ post) canonical_matching_map.
Proof.
  intros Hv.
  assert (E : resolve_shows (pre ++ row :: post) = resolve_shows (pre ++ post)).
  { unfold resolve_shows. rewrite !fold_left_app. cbn [fold_left].
    by rewrite show_step_skip by by left. }
  unfold create_shows_setlists_tables. rewrite E.
  destruct (is_nil _); [done|].
  assert (El : link_rows canonical_matching_map (resolve_shows (pre ++ post))
                 (pre ++ row :: post)
               = link_rows canonical_matching_map (resolve_shows (pre ++ post))
                   (pre ++ post)).
  { unfold link_rows. rewrite !foldl_opt_app.
    destruct (foldl_opt _ pre link_state_init) as [st|]; [|done].
    cbn [foldl_opt]. unfold link_step at 1.
    by rewrite (unnamed_row_unresolved (pre ++ post) row Hv). }
  by rewrite El.
Qed.

Lemma first_key_unregistered (pre : list setlist_row) (x : setlist_row) :
  unique_show_key x ∉ show_keys (resolve_shows pre) ->
  original_show_key_to_id_map (resolve_shows pre) !! original_input_key x = None.
Proof.
  intros Hn. destruct (_ !! _) as [id|] eqn:E; [|done].
  apply resolve_map_closed in E as (i & row & Hi & E & _).
  destruct Hn. apply resolve_shows_keys.
  rewrite (unique_show_key_original x), <- E, <- unique_show_key_original.
  apply (list_elem_of_fmap_2 unique_show_key). by eapply list_elem_of_lookup_2.
Qed.

Lemma resolve_map_size (rows : list setlist_row) :
  size (original_show_key_to_id_map (resolve_shows rows))
  = length (shows_data (resolve_shows rows)).
Proof.
  induction rows as [|x pre IH] using rev_ind; [done|].
  rewrite resolve_shows_snoc.
  destruct (names_show x) eqn:Hv;
    [destruct (decide (unique_show_key x ∈ show_keys (resolve_shows pre))) as [Hin|Hn]|].
  - by rewrite show_step_skip by by right.
  - rewrite (show_step_mint_eq _ x Hv Hn).
    cbn [original_show_key_to_id_map shows_data].
    rewrite (first_key_unregistered pre x Hn).
    rewrite map_size_insert_None by by apply first_key_unregistered.
    rewrite length_app, IH. simpl. lia.
  - by rewrite show_step_skip by by left.
Qed.

(** X15.  The map from input keys to show ids has as many keys as there
    are shows, so the size check that follows the show loop never finds a
    difference. *)
Theorem show_map_size_is_number_of_shows (rows : list setlist_row) :
  size (original_show_key_to_id_map (resolve_shows rows))
  = length (shows_data (resolve_shows rows)) /\
  length (shows_data (resolve_shows rows))
  = length (drop_duplicates id (map unique_show_key (List.filter names_show rows))).
Proof.
  split; [apply resolve_map_size|].
  rewrite resolve_shows_closed, length_zip_with, length_range1.
  unfold minting_rows, drop_duplicates.
  rewrite (drop_duplicates_go_map unique_show_key), length_map. lia.
Qed.

(** ** Setlist entries *)

(** X16.  When the linking loop comes to its end, the entries of the
    setlists table are numbered 1, 2, .. in the order in which they were
    made, and no two of them agree in show, song and position at once. *)
Theorem entries_numbered_and_distinct (canonical_matching_map : list (Z * list string))
    (res : show_state) (rows : list setlist_row) (st : link_state) :
  link_rows canonical_matching_map res rows = Some st ->
  let entries := setlists st in
  map setlist_entry_id entries = range1 (length entries) /\
  NoDup (map entry_key entries) /\
  (forall e1 e2, e1 ∈ entries -> e2 ∈ entries ->
     e_show_id e1 = e_show_id e2 -> e_song_id e1 = e_song_id e2 ->
     position e1 = position e2 -> e1 = e2).
Proof.
  intros E entries. subst entries. unfold link_rows in E.
  destruct (link_inv_fold _ _ _ _ _ _ E) as [_ Hids _ _ Hnd].
  split_and!; [done|done|].
  intros e1 e2 [i Hi]%list_elem_of_lookup [j Hj]%list_elem_of_lookup E1 E2 E3.
  assert (i = j) as ->; [|congruence].
  eapply NoDup_lookup; [exact Hnd| |].
  - change (map entry_key ?l) with (entry_key <$> l).
    rewrite list_lookup_fmap, Hi. reflexivity.
  - change (map entry_key ?l) with (entry_key <$> l).
    rewrite list_lookup_fmap, Hj. simpl. unfold entry_key. congruence.
Qed.

(** X17.  The three tables fit together: the ids of the songs and of the
    shows are pairwise distinct, and every setlist entry names the id of
    one song of the songs table and the id of one show of the shows
    table. *)
Theorem tables_are_referentially_sound (o : set_order) (ses : list session_row)
    (sets : list setlist_row) (songs : list song) (shows : list show)
    (entries : list setlist_entry) :
  build_tables o ses sets = Some (songs, shows, entries) ->
  NoDup (map song_id songs) /\ NoDup (map show_id shows) /\
  Forall (fun e =>
    (exists sg, sg ∈ songs /\ song_id sg = e_song_id e) /\
    (exists sh, sh ∈ shows /\ show_id sh = e_show_id e)) entries.
Proof.
  intros H. pose proof (build_tables_consistent o ses sets songs shows entries H) as Hc.
  unfold build_tables in H.
  destruct (create_final_songs_table o ses sets) as [[sg index]|] eqn:E1; [|done].
  unfold create_shows_setlists_tables in H.
  destruct (is_nil (shows_data (resolve_shows sets))); [done|].
  destruct (link_rows index (resolve_shows sets) sets) as [st|]; [|done].
  injection H as <- <- <-.
  apply create_final_songs_table_Some in E1 as [-> _].
  split_and!.
  - rewrite number_songs_id. apply NoDup_range1.
  - rewrite (inv_ids _ _ (resolve_shows_inv sets)). apply NoDup_range1.
  - apply Forall_forall. intros e He. destruct (Hc e He) as [H1 H2].
    apply list_elem_of_fmap in H1 as (sh & ? & ?), H2 as (s & ? & ?).
    split; [by exists s|by exists sh].
Qed.

(** ** Failing runs *)

Lemma resolve_shows_nil (rows : list setlist_row) :
  is_nil (shows_data (resolve_shows rows)) = true <->
  forall row, row ∈ rows -> names_show row = false.
Proof.
  rewrite is_nil_true, <- List_filter_nil, resolve_shows_closed.
  unfold minting_rows, drop_duplicates.
  rewrite <- (drop_duplicates_go_nil unique_show_key (List.filter names_show rows)).
  destruct (drop_duplicates_go unique_show_key [] (List.filter names_show rows)); done.
Qed.

Lemma create_shows_setlists_tables_None (sets : list setlist_row)
    (items : list (Z * list string)) :
  create_shows_setlists_tables sets items = None <->
  (forall row, row ∈ sets -> names_show row = false) \/
  (exists row, row ∈ sets /\
     exists sid song,
       reaches_position items (bitusa_ids items)
         (original_show_key_to_id_map (resolve_shows sets))
         (tour_map (shows_data (resolve_shows sets))) row sid song /\
       to_numeric lib (r_position row) = NumInf).
Proof.
  rewrite <- resolve_shows_nil. unfold create_shows_setlists_tables.
  rewrite <- link_loop_None. fold (tour_map (shows_data (resolve_shows sets))).
  unfold link_rows. fold (tour_map (shows_data (resolve_shows sets))).
  destruct (is_nil (shows_data (resolve_shows sets))); [by split; [left|]|].
  destruct (foldl_opt _ sets link_state_init).
  - split; [done|]. by intros [?|?].
  - split; [by right|done].
Qed.

(** X18.  The shows and setlists tables cannot be made exactly when no
    setlist row has both a date and a venue (the frame of shows has no
    column to index), or a row that reaches the position step has a
    position cell that the library reads as an infinity (the conversion to
    an integer overflows, and nothing catches that).  With both input
    files loaded, the run ends in an uncaught exception exactly in these
    two cases and when no session row has a title with a token; it then
    leaves the output files as they were, and in every other case it runs
    to its end. *)
Theorem run_crashes_without_song_or_show (o : set_order) (ses : list session_row)
    (sets : list setlist_row) (canonical_matching_map : list (Z * list string))
    (fail_at : option nat) (fs : outputs) :
  let run := normalize_database_schema o (Loaded ses) (Loaded sets) fail_at fs in
  let overflows (items : list (Z * list string)) :=
    exists row, row ∈ sets /\
      exists sid song,
        reaches_position items (bitusa_ids items)
          (original_show_key_to_id_map (resolve_shows sets))
          (tour_map (shows_data (resolve_shows sets))) row sid song /\
        to_numeric lib (r_position row) = NumInf in
  (create_shows_setlists_tables sets canonical_matching_map = None <->
   (forall row, row ∈ sets -> names_show row = false) \/
   overflows canonical_matching_map) /\
  (run.1 = Crashed <->
   (forall row, row ∈ ses -> preprocess_title_for_matching (s_song row) = []) \/
   (forall row, row ∈ sets -> names_show row = false) \/
   overflows (number_tokens (catalog_data o ses sets))) /\
  (run.1 = Crashed /\ run.2 = fs \/ run.1 = Returned).
Proof.
  cbv zeta. split; [apply create_shows_setlists_tables_None|].
  rewrite <- create_shows_setlists_tables_None.
  unfold normalize_database_schema, build_tables.
  rewrite create_final_songs_table_closed, <- session_songs_nil.
  destruct (is_nil (session_songs ses)); simpl.
  { split; [split; [by left|done]|by left]. }
  destruct (create_shows_setlists_tables sets _) as [[shows entries]|] eqn:E; simpl.
  - split; [|by right]. split; [done|]. by intros [?|?].
  - split; [|by left]. split; [|done]. intros _. by right.
Qed.

(** ** Tokens *)

Lemma replace_char (k : ascii) (v : string) (c : ascii) (s : string) :
  Py.replace (String k "") v (String c s) =
  if Ascii.eqb k c then v +:+ Py.replace (String k "") v s
  else String c (Py.replace (String k "") v s).
Proof.
  unfold Py.replace. cbn [Py.is_empty Py.replace_go Py.is_prefix String.length Nat.sub].
  by destruct (Ascii.eqb k c).
Qed.

Lemma replace_char_space (k : ascii) (v : string) (c : ascii) (s : string) :
  Py.is_space k = false -> Py.is_space c = true ->
  Py.replace (String k "") v (String c s) = String c (Py.replace (String k "") v s).
Proof.
  intros Hk Hc. rewrite replace_char.
  destruct (Ascii.eqb_spec k c) as [->|]; [congruence|done].
Qed.

Lemma append_cons (c : ascii) (a b : string) : String c a +:+ b = String c (a +:+ b).
Proof. reflexivity. Qed.

Lemma append_assoc (a b c : string) : (a +:+ b) +:+ c = a +:+ (b +:+ c).
Proof. induction a as [|x a IH]; [done|]. rewrite !append_cons. by f_equal. Qed.

Lemma append_empty_r (a : string) : a +:+ "" = a.
Proof. induction a as [|x a IH]; [done|]. rewrite append_cons. by f_equal. Qed.

Lemma replace_char_app (k : ascii) (v a b : string) :
  Py.replace (String k "") v (a +:+ b) =
  Py.replace (String k "") v a +:+ Py.replace (String k "") v b.
Proof.
  induction a as [|c a IH]; [done|].
  rewrite append_cons, !replace_char, IH.
  destruct (Ascii.eqb k c); [by rewrite append_assoc|done].
Qed.

Lemma ws_thin_refl (a : string) : ws_thin a a.
Proof. induction a; by constructor. Qed.

Lemma ws_thin_app_l (x a b : string) : ws_thin a b -> ws_thin (x +:+ a) (x +:+ b).
Proof. intros H. induction x; [done|]. rewrite !append_cons. by constructor. Qed.

Lemma ws_thin_replace (k : ascii) (v a b : string) :
  Py.is_space k = false -> ws_thin a b ->
  ws_thin (Py.replace (String k "") v a) (Py.replace (String k "") v b).
Proof.
  intros Hk H. induction H as [|c a b H IH|c c' a b Hc Hc' H IH].
  - constructor.
  - rewrite !replace_char. destruct (Ascii.eqb k c).
    + by apply ws_thin_app_l.
    + by constructor.
  - rewrite (replace_char_space k v c) by done.
    rewrite (replace_char_space k v c') in * by done.
    by constructor.
Qed.

Lemma space_not_word (c : ascii) :
  Py.is_space c = true ->
  Py.is_word c = false /\ Py.is_apostrophe c = false /\ Py.to_lower c = c.
Proof. destruct c as [[] [] [] [] [] [] [] []]; vm_compute; done. Qed.

Lemma findall_go_space (tok pend : list ascii) (c : ascii) (s : string) :
  Py.is_space c = true ->
  Py.findall_go tok pend (String c s) = Py.flush tok ++ Py.findall_go [] [] s.
Proof.
  intros (Hw & Ha & _)%space_not_word. cbn [Py.findall_go]. by rewrite Hw, Ha.
Qed.

Lemma ws_thin_findall (a b : string) :
  ws_thin a b -> forall tok pend, Py.findall_go tok pend a = Py.findall_go tok pend b.
Proof.
  induction 1 as [|c a b H IH|c c' a b Hc Hc' H IH]; intros tok pend.
  - done.
  - cbn [Py.findall_go]. rewrite !IH. destruct tok; by rewrite ?IH.
  - rewrite IH, !findall_go_space by done. done.
Qed.

Lemma findall_go_snoc_space (s : string) (c : ascii) (tok pend : list ascii) :
  Py.is_space c = true ->
  Py.findall_go tok pend (s +:+ String c "") = Py.findall_go tok pend s.
Proof.
  intros Hc. revert tok pend. induction s as [|x s IH]; intros tok pend.
  - change ("" +:+ String c "") with (String c "").
    rewrite findall_go_space by done. simpl. apply app_nil_r.
  - rewrite append_cons. cbn [Py.findall_go]. rewrite !IH. destruct tok; by rewrite ?IH.
Qed.

Lemma hyphen_step (n : nat) (s : string) :
  (String.length s <= n)%nat ->
  ws_thin (Py.replace "-" " " (Py.replace " - " " " s)) (Py.replace "-" " " s).
Proof.
  revert s. induction n as [|n IH]; intros s Hn.
  { destruct s; [constructor|simpl in Hn; lia]. }
  destruct s as [|c s]; [constructor|].
  unfold Py.replace at 2. cbn [Py.is_empty Py.replace_go String.length Nat.sub].
  destruct (Py.is_prefix " - " (String c s)) eqn:E.
  - cbn [Py.is_prefix] in E.
    destruct (Ascii.eqb_spec " " c) as [<-|]; [|done].
    destruct s as [|c1 s]; [done|].
    destruct (Ascii.eqb_spec "-" c1) as [<-|]; [|done].
    destruct s as [|c2 s]; [done|].
    destruct (Ascii.eqb_spec " " c2) as [<-|]; [|done].
    cbn [Py.replace_go]. fold (Py.replace " - " " " s).
    change (" " +:+ ?x) with (String " " x).
    rewrite !replace_char. cbn [Ascii.eqb Bool.eqb].
    change (" " +:+ ?x) with (String " " x).
    apply ws_thin_drop; [done|done|]. apply ws_thin_drop; [done|done|].
    constructor. apply IH. simpl in Hn. lia.
  - fold (Py.replace " - " " " s). rewrite !replace_char.
    destruct (Ascii.eqb "-" c).
    + apply ws_thin_app_l, IH. simpl in Hn. lia.
    + constructor. apply IH. simpl in Hn. lia.
Qed.

Lemma char_replacements_eq :
  char_replacements =
  [ ("(", " "); (")", " "); ("[", " "); ("]", " "); ("{", " "); ("}", " ");
    ("!", ""); ("?", ""); (".", "");
    ("&", " and "); ("+", " and ");
    ("/", " "); ("\", " ");
    ("-", " "); ("_", " ");
    (":", ""); (";", ""); (dquote, "") ].
Proof. reflexivity. Qed.

Lemma findall_char_replacements (s : string) :
  Py.findall_words (apply_replacements s)
  = Py.findall_words (apply_char_replacements s).
Proof.
  unfold apply_char_replacements. rewrite char_replacements_eq.
  unfold apply_replacements, MINIMAL_REPLACEMENTS. cbn [fold_left].
  unfold Py.findall_words. apply ws_thin_findall.
  unfold dquote.
  do 4 (apply ws_thin_replace; [done|]).
  eapply hyphen_step. done.
Qed.

Lemma char_replacements_keys :
  Forall (fun p => exists k, p.1 = String k "" /\ Py.is_space k = false)
    char_replacements.
Proof.
  rewrite char_replacements_eq. unfold dquote.
  repeat (constructor; [by eexists|]). constructor.
Qed.

Lemma fold_replace_space (tbl : list (string * string)) (c : ascii) (s : string) :
  Forall (fun p => exists k, p.1 = String k "" /\ Py.is_space k = false) tbl ->
  Py.is_space c = true ->
  fold_left (fun acc '(old, new) => Py.replace old new acc) tbl (String c s)
  = String c (fold_left (fun acc '(old, new) => Py.replace old new acc) tbl s) /\
  fold_left (fun acc '(old, new) => Py.replace old new acc) tbl (s +:+ String c "")
  = fold_left (fun acc '(old, new) => Py.replace old new acc) tbl s +:+ String c "".
Proof.
  intros Htbl Hc. revert s.
  induction Htbl as [|[old new] tbl (k & Hk & Hs) _ IH]; intros s; [done|].
  simpl in Hk. subst old. cbn [fold_left].
  rewrite replace_char_app, !(replace_char_space k new c) by done.
  split; [apply IH|]. change (Py.replace (String k "") new "") with "". apply IH.
Qed.

Lemma lower_app (a b : string) : Py.lower (a +:+ b) = Py.lower a +:+ Py.lower b.
Proof.
  unfold Py.lower. induction a as [|c a IH]; [done|].
  rewrite append_cons. cbn [Py.smap]. by rewrite IH.
Qed.

Lemma rstrip_decomp (s : string) :
  exists w, s = Py.rstrip s +:+ w /\ all_space w = true.
Proof.
  induction s as [|c s (w & E & Hw)]; [by exists ""|].
  cbn [Py.rstrip]. cbv zeta.
  destruct (Py.is_empty (Py.rstrip s) && Py.is_space c) eqn:Hc.
  - apply andb_true_iff in Hc as [Hr Hc]. apply is_empty_true in Hr.
    rewrite Hr in E. exists (String c s). split; [done|].
    simpl. rewrite Hc. simpl. by rewrite E.
  - exists w. split; [|done]. rewrite append_cons. by f_equal.
Qed.

Lemma tokens_lstrip (s : string) :
  Py.findall_words (apply_char_replacements (Py.lower (Py.lstrip s)))
  = Py.findall_words (apply_char_replacements (Py.lower s)).
Proof.
  induction s as [|c s IH]; [done|].
  cbn [Py.lstrip]. destruct (Py.is_space c) eqn:Hc; [|done].
  rewrite IH. unfold Py.lower. cbn [Py.smap]. fold (Py.lower s).
  destruct (space_not_word c Hc) as (_ & _ & ->).
  unfold apply_char_replacements.
  rewrite (proj1 (fold_replace_space _ c _ char_replacements_keys Hc)).
  unfold Py.findall_words. by rewrite findall_go_space.
Qed.

Lemma tokens_trailing_space (w s : string) :
  all_space w = true ->
  Py.findall_words (apply_char_replacements (Py.lower (s +:+ w)))
  = Py.findall_words (apply_char_replacements (Py.lower s)).
Proof.
  revert s. induction w as [|c w IH]; intros s Hw.
  - by rewrite append_empty_r.
  - simpl in Hw. apply andb_true_iff in Hw as [Hc Hw].
    change (String c w) with (String c "" +:+ w).
    rewrite <- append_assoc, IH by done.
    rewrite lower_app. unfold Py.lower at 2. cbn [Py.smap].
    destruct (space_not_word c Hc) as (_ & _ & ->).
    unfold apply_char_replacements.
    rewrite (proj2 (fold_replace_space _ c _ char_replacements_keys Hc)).
    unfold Py.findall_words. by rewrite findall_go_snoc_space.
Qed.

Lemma preprocess_str (s : string) :
  preprocess_title_for_matching (Str s)
  = Py.findall_words (apply_char_replacements (Py.lower s)).
Proof.
  unfold preprocess_title_for_matching. simpl.
  destruct s; [done|]. simpl Py.is_empty. cbv iota.
  apply findall_char_replacements.
Qed.

Lemma preprocess_strip (s : string) :
  preprocess_title_for_matching (Str (Py.strip s))
  = preprocess_title_for_matching (Str s).
Proof.
  rewrite !preprocess_str. unfold Py.strip.
  destruct (rstrip_decomp (Py.lstrip s)) as (w & E & Hw).
  rewrite <- (tokens_lstrip s). rewrite E at 2. by rewrite tokens_trailing_space.
Qed.

(** X19.  The tokens of a title do not depend on white space around it:
    the catalog builder, which tokenizes the cell as it is, and the linker,
    which tokenizes the trimmed cell, read the same tokens from one
    title. *)
Theorem tokens_ignore_surrounding_space (s : string) :
  preprocess_title_for_matching (Str (Py.strip s))
  = preprocess_title_for_matching (Str s) /\
  preprocess_title_for_matching (Str (Py.lstrip s))
  = preprocess_title_for_matching (Str s) /\
  preprocess_title_for_matching (Str (Py.rstrip s))
  = preprocess_title_for_matching (Str s).
Proof.
  split; [apply preprocess_strip|]. rewrite !preprocess_str. split.
  - apply tokens_lstrip.
  - destruct (rstrip_decomp s) as (w & E & Hw).
    rewrite E at 2. by rewrite tokens_trailing_space.
Qed.

(** X20.  The entry " - " of the replacement table has no effect on the
    tokens of a title: the tokens are those read after the one-character
    replacements alone. *)
Theorem spaced_hyphen_entry_is_redundant (title : cell) :
  preprocess_title_for_matching title =
  if isna title || falsy title then []
  else Py.findall_words (apply_char_replacements (Py.lower (py_str title))).
Proof.
  unfold preprocess_title_for_matching.
  destruct (isna title || falsy title); [done|apply findall_char_replacements].
Qed.

(** ** The shape of tokens *)

Lemma clean_word_char (c : ascii) :
  clean_char c = true -> Py.is_word c = true -> token_char c = true.
Proof. destruct c as [[] [] [] [] [] [] [] []]; vm_compute; done. Qed.

Lemma to_lower_not_upper (c : ascii) : Py.is_upper (Py.to_lower c) = false.
Proof. destruct c as [[] [] [] [] [] [] [] []]; vm_compute; done. Qed.

Lemma chars_app (a b : string) :
  list_ascii_of_string (a +:+ b) = list_ascii_of_string a ++ list_ascii_of_string b.
Proof.
  induction a as [|c a IH]; [done|]. rewrite append_cons. simpl. by rewrite IH.
Qed.

Lemma chars_of_rev (l : list ascii) : list_ascii_of_string (Py.of_rev l) = rev l.
Proof. apply list_ascii_of_string_of_list_ascii. Qed.

Lemma lower_no_upper (s : string) :
  Forall (fun c => Py.is_upper c = false) (list_ascii_of_string (Py.lower s)).
Proof.
  unfold Py.lower. induction s as [|c s IH]; simpl; constructor; [|done].
  apply to_lower_not_upper.
Qed.

Lemma replace_char_chars (Q : ascii -> Prop) (k : ascii) (v s : string) :
  Forall Q (list_ascii_of_string v) ->
  Forall Q (list_ascii_of_string s) ->
  Forall Q (list_ascii_of_string (Py.replace (String k "") v s)).
Proof.
  intros Hv. induction s as [|c s IH]; intros Hs; [done|].
  simpl in Hs. apply Forall_cons in Hs as [Hc Hs].
  rewrite replace_char. destruct (Ascii.eqb k c).
  - rewrite chars_app. apply Forall_app. split; [done|by apply IH].
  - simpl. constructor; [done|by apply IH].
Qed.

Lemma replace_char_removes (k : ascii) (v s : string) :
  Forall (fun c => c <> k) (list_ascii_of_string v) ->
  Forall (fun c => c <> k) (list_ascii_of_string (Py.replace (String k "") v s)).
Proof.
  intros Hv. induction s as [|c s IH]; [constructor|].
  rewrite replace_char. destruct (Ascii.eqb_spec k c) as [->|Hne].
  - rewrite chars_app. apply Forall_app. by split.
  - simpl. constructor; [congruence|done].
Qed.

Lemma replaced_chars_clean (s : string) :
  Forall (fun c => clean_char c = true)
    (list_ascii_of_string (apply_char_replacements (Py.lower s))).
Proof.
  assert (H1 : Forall (fun c => Py.is_upper c = false)
                 (list_ascii_of_string (apply_char_replacements (Py.lower s)))).
  { unfold apply_char_replacements. rewrite char_replacements_eq.
    cbn [fold_left]. unfold dquote.
    repeat (apply replace_char_chars; [by repeat constructor|]).
    apply lower_no_upper. }
  assert (H2 : Forall (fun c => c <> "_"%char)
                 (list_ascii_of_string (apply_char_replacements (Py.lower s)))).
  { unfold apply_char_replacements. rewrite char_replacements_eq.
    cbn [fold_left]. unfold dquote.
    do 3 (apply replace_char_chars; [by repeat constructor|]).
    apply replace_char_removes. by repeat constructor. }
  apply Forall_forall. intros c Hc.
  rewrite Forall_forall in H1, H2. unfold clean_char.
  rewrite (H1 c Hc). destruct (Ascii.eqb_spec c "_") as [E|]; [|done].
  by destruct (H2 c Hc).
Qed.

Lemma last_rev_head {A} (l : list A) : last (rev l) = head l.
Proof. destruct l as [|x l]; [done|]. simpl. apply last_snoc. Qed.

Lemma head_rev_last {A} (l : list A) : head (rev l) = last l.
Proof. rewrite <- (rev_involutive l) at 2. symmetry. apply last_rev_head. Qed.

Lemma token_ok_single (c : ascii) : token_char c = true -> token_ok_list [c].
Proof.
  intros Hc. split_and!; [by exists c|by exists c|]. constructor; [by left|constructor].
Qed.

Lemma token_ok_extend (l q : list ascii) (c : ascii) :
  token_ok_list l -> Forall (fun x => Py.is_apostrophe x = true) q ->
  token_char c = true -> token_ok_list (l ++ q ++ [c]).
Proof.
  intros ((a & Ha & Hca) & _ & Hall) Hq Hc. split_and!.
  - exists a. split; [|done]. destruct l; [done|]. by simpl in *.
  - exists c. split; [|done]. by rewrite app_assoc, last_snoc.
  - apply Forall_app. split; [done|]. apply Forall_app. split.
    + eapply Forall_impl; [exact Hq|]. intros x Hx. by right.
    + constructor; [by left|constructor].
Qed.

Lemma findall_go_tokens (s : string) (tok pend : list ascii) (w : string) :
  Forall (fun c => clean_char c = true) (list_ascii_of_string s) ->
  (tok = [] /\ pend = []) \/
  (token_ok_list (rev tok) /\ Forall (fun x => Py.is_apostrophe x = true) (rev pend)) ->
  w ∈ Py.findall_go tok pend s -> token_ok w.
Proof.
  assert (Hflush : forall tok pend,
    (tok = [] /\ pend = []) \/
    (token_ok_list (rev tok) /\ Forall (fun x => Py.is_apostrophe x = true) (rev pend)) ->
    w ∈ Py.flush tok -> token_ok w).
  { intros t p [[-> _]|[Ht _]]; [by intros ?%elem_of_nil|].
    destruct t as [|x t]; [by intros ?%elem_of_nil|].
    intros ->%list_elem_of_singleton. unfold token_ok. by rewrite chars_of_rev. }
  revert tok pend. induction s as [|c s IH]; intros tok pend Hs Hst.
  { by apply (Hflush tok pend). }
  simpl in Hs. apply Forall_cons in Hs as [Hc Hs].
  cbn [Py.findall_go]. destruct (Py.is_word c) eqn:Hw.
  - apply IH; [done|]. right. split; [|constructor].
    pose proof (clean_word_char c Hc Hw) as Htc.
    destruct Hst as [[-> ->]|[Ht Hp]]; [by apply token_ok_single|].
    simpl. rewrite rev_app_distr, <- app_assoc. by apply token_ok_extend.
  - destruct (Py.is_apostrophe c) eqn:Ha.
    + destruct tok as [|x tok]; [apply IH; [done|by left]|].
      apply IH; [done|]. right.
      destruct Hst as [[? _]|[Ht Hp]]; [done|]. split; [done|].
      simpl. apply Forall_app. split; [done|]. by repeat constructor.
    + intros [Hin|Hin]%elem_of_app; [by apply (Hflush tok pend)|].
      revert Hin. apply IH; [done|by left].
Qed.

(** X21.  Every token that the tokenizer reads from a title of 7-bit
    characters is a word of lower-case letters, digits and apostrophes that
    begins and ends with a letter or a digit; in particular no token is
    empty, and no token holds an upper-case letter, an underscore, white
    space or punctuation other than the apostrophe. *)
Theorem tokens_are_lower_case_words (title : cell) :
  (forall s, title = Str s -> Py.isascii s = true) ->
  Forall token_ok (preprocess_title_for_matching title) /\
  Forall (fun w => w <> "") (preprocess_title_for_matching title).
Proof.
  intros _.
  assert (H : Forall token_ok (preprocess_title_for_matching title)).
  { unfold preprocess_title_for_matching.
    destruct (isna title || falsy title); [constructor|].
    rewrite findall_char_replacements. apply Forall_forall. intros w Hw.
    eapply findall_go_tokens; [apply replaced_chars_clean|by left|exact Hw]. }
  split; [done|]. eapply Forall_impl; [exact H|].
  intros w ((c & Hc & _) & _) ->. done.
Qed.

(** ** No row is lost *)

(** In an index with pairwise distinct token sequences, the choice of the
    song of a title whose tokens are those of an entry never fails: it is
    that entry, or the acoustic version that the contextual rule puts in
    its place. *)
Lemma choose_song_complete (items : list (Z * list string)) (tour_name : string)
    (q : list string) (id : Z) :
  q <> [] -> NoDup (map snd items) -> (id, q) ∈ items ->
  exists song method,
    choose_song items (bitusa_ids items) tour_name q = (Some song, method) /\
    ((song, q) ∈ items \/
     (q = standard_bitusa_words /\ (song, reunion_bitusa_words) ∈ items)).
Proof.
  intros Hq Hnd Hin.
  pose proof (bitusa_ids_spec items) as [H1 H2].
  unfold choose_song. destruct (bitusa_ids items) as [std reu]. simpl in H1, H2.
  destruct (bool_decide (q = standard_bitusa_words) && is_some std) eqn:E1.
  - apply andb_true_iff in E1 as [Eq%bool_decide_eq_true Es].
    destruct std as [s0|]; [|done].
    destruct (bool_decide (Py.lower tour_name ∈ REUNION_TOUR_RAW_NAMES)
              && is_some reu) eqn:E2.
    + destruct reu as [r|]; [|by rewrite andb_false_r in E2]. simpl.
      exists r, "Contextual (Reunion Tour)". split; [done|]. by right.
    + simpl. exists s0, "Contextual (Standard BITUSA)". split; [done|].
      left. by rewrite Eq.
  - simpl. unfold sequence_choice.
    rewrite (find_match_exact q items id Hq Hnd Hin).
    destruct (truthy (Some id)); eexists _, _; (split; [done|by left]).
Qed.

(** X22.  No titled row of a registered show is lost, and the matcher has
    nothing to guess: for a setlist row that is spelled as the first row of
    its show and whose title has a token, the setlists table holds an entry
    with this show, this position and the song of the catalog whose tokens
    are exactly those of the title; the one exception is the contextual
    rule, which may put the acoustic version in the place of the standard
    one. *)
Theorem every_titled_row_is_linked (o : set_order) (ses : list session_row)
    (sets : list setlist_row) (songs : list song) (index : list (Z * list string))
    (shows : list show) (entries : list setlist_entry)
    (i : nat) (first row : setlist_row) (s : string) :
  create_final_songs_table o ses sets = Some (songs, index) ->
  create_shows_setlists_tables sets index = Some (shows, entries) ->
  minting_rows sets !! i = Some first ->
  row ∈ sets ->
  original_input_key row = original_input_key first ->
  r_song row = Str s ->
  preprocess_title_for_matching (Str s) <> [] ->
  exists e, e ∈ entries /\
    e_show_id e = Z.of_nat i + 1 /\
    position_of (to_numeric lib (r_position row)) = Some (position e) /\
    ((e_song_id e, preprocess_title_for_matching (Str s)) ∈ index \/
     (preprocess_title_for_matching (Str s) = standard_bitusa_words /\
      (e_song_id e, reunion_bitusa_words) ∈ index)).
Proof.
  intros [_ ->]%create_final_songs_table_Some Htab Hfirst Hrow Hkey Hsong Hq.
  unfold create_shows_setlists_tables in Htab.
  destruct (is_nil (shows_data (resolve_shows sets))); [done|].
  destruct (link_rows _ _ sets) as [st|] eqn:El; [|done].
  injection Htab as <- <-.
  set (index := number_tokens (catalog_data o ses sets)) in *.
  assert (Hw : row_words row = preprocess_title_for_matching (Str s)).
  { unfold row_words. rewrite Hsong. simpl. apply preprocess_strip. }
  assert (Hin : preprocess_title_for_matching (Str s) ∈ map snd index).
  { apply catalog_index_tokens. split; [done|]. right.
    unfold setlist_token_sequences. rewrite <- Hsong.
    by apply (list_elem_of_fmap_2 (fun r => preprocess_title_for_matching (r_song r))). }
  apply list_elem_of_fmap in Hin as ([id q] & Eq & Hin). simpl in Eq. subst q.
  assert (Hnd : NoDup (map snd index)).
  { unfold index. rewrite number_tokens_snd, catalog_data_tokens.
    apply NoDup_catalog_tokens. }
  unfold link_rows in El. fold (tour_map (shows_data (resolve_shows sets))) in El.
  set (tmap := tour_map (shows_data (resolve_shows sets))) in *.
  destruct (choose_song_complete index (default "" (tmap !! (Z.of_nat i + 1)))
              _ id Hq Hnd Hin) as (song & method & Hc & Hs).
  assert (Hpos : song <> 0).
  { assert (song ∈ map fst index) as Hm.
    { destruct Hs as [Hs|[_ Hs]]; by apply (list_elem_of_fmap_2 fst) in Hs. }
    unfold index in Hm. rewrite number_tokens_fst in Hm.
    apply range1_positive in Hm. lia. }
  destruct (link_loop_complete index (bitusa_ids index)
              (original_show_key_to_id_map (resolve_shows sets)) tmap sets st row
              (Z.of_nat i + 1) song El Hrow) as (e & He & E1 & E2 & E3).
  { split_and!.
    - apply resolve_map_closed. by exists i, first.
    - lia.
    - by rewrite Hw.
    - by rewrite Hw, Hc.
    - done. }
  exists e. rewrite E1, E2. done.
Qed.

(** ** The workflow *)

Lemma run_script_outcome (o : set_order)
    (songs_sessions_file : input_file (list session_row))
    (setlists_raw_file : input_file (list setlist_row))
    (fail_at : option nat) (fs : outputs) :
  (exists ses sets songs shows entries,
     songs_sessions_file = Loaded ses /\ setlists_raw_file = Loaded sets /\
     build_tables o ses sets = Some (songs, shows, entries) /\
     run_script o songs_sessions_file setlists_raw_file fail_at fs
     = (Returned, save_outputs fail_at songs shows entries (with_output_dir fs))) \/
  (exit_status (run_script o songs_sessions_file setlists_raw_file fail_at fs).1 = 1 /\
   (run_script o songs_sessions_file setlists_raw_file fail_at fs).2 = with_output_dir fs /\
   forall ses sets, songs_sessions_file = Loaded ses -> setlists_raw_file = Loaded sets ->
     build_tables o ses sets = None).
Proof.
  unfold run_script, normalize_database_schema. fold (with_output_dir fs).
  destruct songs_sessions_file as [| |ses], setlists_raw_file as [| |sets];
    try (right; split_and!; [done|done|by intros ? ? [=] [=]]).
  destruct (build_tables o ses sets) as [[[songs shows] entries]|] eqn:E.
  - left. by exists ses, sets, songs, shows, entries.
  - right. split_and!; [done|done|]. by intros ? ? [= <-] [= <-].
Qed.

(** X23.  The workflow starts the population of the database exactly when
    both input files were loaded and the three tables could be built.  A
    missing or unreadable input file and a failing table construction stop
    it after the first step, with the three output files as they were; a
    failure while the files are saved does not stop it: the population
    then runs on the files as the failed save left them. *)
Theorem workflow_populates_after_tables_are_built (o : set_order)
    (songs_sessions_file : input_file (list session_row))
    (setlists_raw_file : input_file (list setlist_row))
    (fail_at : option nat) (populate : outputs -> option Z) (fs : outputs) :
  let w := run_workflow o songs_sessions_file setlists_raw_file fail_at populate fs in
  (exists ses sets songs shows entries,
     songs_sessions_file = Loaded ses /\ setlists_raw_file = Loaded sets /\
     build_tables o ses sets = Some (songs, shows, entries) /\
     w_populate_input w
       = Some (save_outputs fail_at songs shows entries (with_output_dir fs)) /\
     w_files w = save_outputs fail_at songs shows entries (with_output_dir fs) /\
     w_end w = (if workflow_run_script
                     (populate (save_outputs fail_at songs shows entries
                                  (with_output_dir fs)))
                then WorkflowCompleted else StoppedInPopulate)) \/
  (w_end w = StoppedInNormalize /\ w_populate_input w = None /\
   w_files w = with_output_dir fs /\
   forall ses sets, songs_sessions_file = Loaded ses -> setlists_raw_file = Loaded sets ->
     build_tables o ses sets = None).
Proof.
  cbv zeta. unfold run_workflow.
  destruct (run_script_outcome o songs_sessions_file setlists_raw_file fail_at fs)
    as [(ses & sets & songs & shows & entries & -> & -> & Hb & ->)|(Hs & Hf & Hn)].
  - left. exists ses, sets, songs, shows, entries. simpl.
    by destruct (workflow_run_script (populate _)).
  - right.
    destruct (run_script o songs_sessions_file setlists_raw_file fail_at fs)
      as [r fs'] eqn:E.
    simpl in Hs, Hf. subst fs'. simpl. by rewrite Hs.
Qed.

(** ** Appended rows *)

Lemma range1_app (n m : nat) :
  range1 (n + m) = range1 n ++ map (fun i => Z.of_nat i + 1) (seq n m).
Proof. unfold range1. by rewrite seq_app, map_app. Qed.

Lemma zip_with_range1_app {A B} (f : Z -> A -> B) (l k : list A) :
  zip_with f (range1 (length (l ++ k))) (l ++ k) =
  zip_with f (range1 (length l)) l ++
  zip_with f (map (fun i => Z.of_nat i + 1) (seq (length l) (length k))) k.
Proof.
  rewrite length_app, range1_app. apply zip_with_app. by rewrite length_range1.
Qed.

(** X24.  Rows appended to the setlist input keep the shows and their ids:
    the shows table of the longer input begins with the shows table of the
    shorter one, and every key of the map from input keys to show ids
    keeps its id. *)
Theorem appended_rows_keep_show_ids (rows more : list setlist_row) :
  (exists new_shows,
     shows_data (resolve_shows (rows ++ more))
     = shows_data (resolve_shows rows) ++ new_shows) /\
  (forall ok id,
     original_show_key_to_id_map (resolve_shows rows) !! ok = Some id ->
     original_show_key_to_id_map (resolve_shows (rows ++ more)) !! ok = Some id).
Proof.
  split.
  - rewrite !resolve_shows_closed, minting_rows_app, zip_with_range1_app.
    by eexists.
  - intros ok id (i & row & Hi & Hk & ->)%resolve_map_closed.
    apply resolve_map_closed. exists i, row. split_and!; [|done|done].
    rewrite minting_rows_app. by apply lookup_app_l_Some.
Qed.

(** X25.  Rows appended to the setlist input keep the songs and their ids:
    the token index of the longer input begins with the token index of the
    shorter one, so every song keeps its song_id and its token sequence;
    new covers come after them. *)
Theorem appended_rows_keep_song_ids (o : set_order) (ses : list session_row)
    (sets more : list setlist_row) (songs : list song) (index : list (Z * list string)) :
  create_final_songs_table o ses sets = Some (songs, index) ->
  exists songs' new_entries,
    create_final_songs_table o ses (sets ++ more) = Some (songs', index ++ new_entries) /\
    map song_id songs' = map fst (index ++ new_entries).
Proof.
  rewrite !create_final_songs_table_closed.
  destruct (is_nil (session_songs ses)); [done|]. intros [= <- <-].
  assert (E : cover_token_sequences ses (sets ++ more) =
              cover_token_sequences ses sets ++
              drop_duplicates_go id ([] ++ map id (cover_token_sequences ses sets))
                (List.filter (eligible (session_token_sequences ses))
                   (setlist_token_sequences more))).
  { unfold cover_token_sequences, drop_duplicates, setlist_token_sequences.
    rewrite map_app, List.filter_app, drop_duplicates_go_app. f_equal.
    apply drop_duplicates_go_ext. intros k. simpl. rewrite !map_id.
    symmetry. apply elem_of_drop_duplicates. }
  assert (H : exists new_entries,
            number_tokens (catalog_data o ses (sets ++ more))
            = number_tokens (catalog_data o ses sets) ++ new_entries).
  { rewrite !number_tokens_map, !catalog_data_tokens, E, app_assoc.
    rewrite zip_with_range1_app. by eexists. }
  destruct H as [new_entries H].
  exists (number_songs (catalog_data o ses (sets ++ more))), new_entries.
  rewrite <- H. split; [done|].
  by rewrite number_songs_id, number_tokens_fst.
Qed.

End Run.

(** * Two runs on the same input *)

Lemma fold_left_ext_elem {A B} (f g : B -> A -> B) (l : list A) (st : B) :
  (forall st x, x ∈ l -> f st x = g st x) -> fold_left f l st = fold_left g l st.
Proof.
  revert st. induction l as [|x l IH]; intros st H; simpl; [done|].
  rewrite H by by left. apply IH. intros st' y Hy. apply H. by right.
Qed.

Lemma foldl_opt_ext_elem {A B} (f g : B -> A -> option B) (l : list A) (st : B) :
  (forall st x, x ∈ l -> f st x = g st x) -> foldl_opt f l st = foldl_opt g l st.
Proof.
  revert st. induction l as [|x l IH]; intros st H; simpl; [done|].
  rewrite H by by left. destruct (g st x); [|done].
  apply IH. intros st' y Hy. apply H. by right.
Qed.

(** Two runs whose libraries read the date cells of the rows alike
    resolve the same shows. *)
Lemma resolve_shows_agree (lib1 lib2 : library) (rows : list setlist_row) :
  (forall row, row ∈ rows ->
     to_datetime lib1 (Py.strip (py_str (r_date row)))
     = to_datetime lib2 (Py.strip (py_str (r_date row)))) ->
  resolve_shows lib1 rows = resolve_shows lib2 rows.
Proof.
  intros H. unfold resolve_shows. apply fold_left_ext_elem.
  intros st row Hrow. unfold show_step. by rewrite (H row Hrow).
Qed.

(** Two runs whose libraries read the position cells of the rows alike
    link the same entries. *)
Lemma link_rows_agree (lib1 lib2 : library) (items : list (Z * list string))
    (res : show_state) (rows : list setlist_row) :
  (forall row, row ∈ rows ->
     to_numeric lib1 (r_position row) = to_numeric lib2 (r_position row)) ->
  link_rows lib1 items res rows = link_rows lib2 items res rows.
Proof.
  intros H. unfold link_rows. apply foldl_opt_ext_elem.
  intros st row Hrow. unfold link_step. by rewrite (H row Hrow).
Qed.

(** C7 (as amended).  Two runs of the pipeline on the same input rows,
    each with its own iteration order of the sets of strings and with
    libraries that read the date cells and the position cells of the input
    alike (as two runs in one environment do for every date cell whose
    reading does not depend on the clock), both fail or both succeed.  When
    they succeed they return the same shows and the same setlist entries
    (hence the same show_id and entry_id assignments), and songs tables with
    the same song_id, album and outtake flag in every row and the same
    session songs; the title of a cover is in either run the display form
    of a shortest raw spelling of the cover.  The titles agree as well, and
    the two songs tables are equal, when spellings of one cover that have
    the same length have the same display form. *)
Theorem two_runs_agree (lib1 lib2 : library) (o1 o2 : set_order)
    (ses : list session_row) (sets : list setlist_row) :
  (forall row, row ∈ sets ->
     to_datetime lib1 (Py.strip (py_str (r_date row)))
     = to_datetime lib2 (Py.strip (py_str (r_date row)))) ->
  (forall row, row ∈ sets ->
     to_numeric lib1 (r_position row) = to_numeric lib2 (r_position row)) ->
  match build_tables lib1 o1 ses sets, build_tables lib2 o2 ses sets with
  | Some (songs1, shows1, entries1), Some (songs2, shows2, entries2) =>
      shows1 = shows2 /\ entries1 = entries2 /\
      map untitled songs1 = map untitled songs2 /\
      (let n := length (session_token_sequences ses) in
       take n songs1 = take n songs2 /\
       Forall2 (cover_of sets) (drop n songs1) (cover_token_sequences ses sets) /\
       Forall2 (cover_of sets) (drop n songs2) (cover_token_sequences ses sets)) /\
      (cover_ties_agree ses sets -> songs1 = songs2)
  | None, None => True
  | _, _ => False
  end.
Proof.
  intros Hd Hn.
  unfold build_tables. rewrite !create_final_songs_table_closed.
  destruct (is_nil (session_songs ses)); [done|].
  rewrite (index_order_independent o1 o2).
  unfold create_shows_setlists_tables.
  rewrite (resolve_shows_agree lib1 lib2 sets Hd).
  rewrite (link_rows_agree lib1 lib2 _ _ sets Hn).
  destruct (is_nil (shows_data (resolve_shows lib2 sets))); [done|].
  destruct (link_rows lib2 _ _ sets) as [st|]; [|done].
  assert (Hcov : forall o,
            Forall2 (cover_of sets)
              (number_songs_from (length (session_songs ses))
                 (map (cover_entry o) (missing_map ses sets)))
              (cover_token_sequences ses sets)).
  { intros o.
    destruct (cover_entries_spec o sets (length (session_songs ses))
                (missing_map ses sets) (missing_map_complete ses sets)) as [H _].
    by rewrite missing_map_keys in H. }
  assert (Hlen : length (number_songs_from 0 (session_songs ses))
                 = length (session_token_sequences ses))
    by by rewrite length_number_songs_from, length_session_songs.
  unfold catalog_data. rewrite !number_songs_split.
  split_and!; try done.
  - rewrite !map_app. f_equal. apply covers_untitled.
  - by rewrite !take_app_length'.
  - rewrite drop_app_length' by done. apply Hcov.
  - rewrite drop_app_length' by done. apply Hcov.
  - intros Hties. by rewrite (covers_equal o1 o2).
Qed.

(** * Concrete runs *)

Lemma demo_catalog :
  create_final_songs_table order_id demo_sessions demo_setlists
  = Some (demo_songs, demo_index).
Proof. vm_compute. reflexivity. Qed.

Lemma reunion_catalog :
  create_final_songs_table order_id reunion_sessions reunion_setlists
  = Some (reunion_songs, reunion_index).
Proof. vm_compute. reflexivity. Qed.

Lemma find_match_by_sequence_witness :
  create_final_songs_table order_id demo_sessions demo_setlists
  = Some (demo_songs, demo_index) /\
  find_match_by_sequence ["zebra"; "thunder"; "road"] demo_index = Some 1 /\
  exists pre ws post,
    demo_index = pre ++ (1, ws) :: post /\
    OrderedSubseq ws ["zebra"; "thunder"; "road"] /\
    (["zebra"] ∈ map snd demo_index -> (length ["zebra"] <= length ws)%nat).
Proof.
  split; [exact demo_catalog|]. split; [reflexivity|].
  pose proof (find_match_by_sequence_longest_first order_id demo_sessions
                demo_setlists demo_songs demo_index ["zebra"; "thunder"; "road"]
                demo_catalog) as H.
  change (find_match_by_sequence _ _) with (Some 1) in H.
  destruct H as (pre & ws & post & E & Hs & Hmax & _).
  exists pre, ws, post. split_and!; [done|done|]. intros _.
  apply (Hmax 3 ["zebra"]).
  - apply (bool_decide_unpack _). vm_compute. exact I.
  - repeat constructor.
Defined.

Lemma catalog_unique_dense_witness :
  create_final_songs_table order_id demo_sessions demo_setlists
  = Some (demo_songs, demo_index) /\
  map fst demo_index = range1 (length demo_index) /\
  map song_id demo_songs = map fst demo_index.
Proof.
  split; [exact demo_catalog|].
  destruct (catalog_unique_dense order_id demo_sessions demo_setlists
              demo_songs demo_index demo_catalog) as (_ & H1 & H2 & _).
  by split.
Defined.

Lemma same_key_same_show_witness :
  exists sh1 sh2,
    sh1 ∈ shows_data (resolve_shows demo_library [listing1; listing2; listing4]) /\
    sh2 ∈ shows_data (resolve_shows demo_library [listing1; listing2; listing4]) /\
    venue sh1 = "The Bottom Line" /\ venue sh2 = "The Bottom Line" /\
    show_id sh1 = show_id sh2.
Proof.
  destruct (same_key_same_show demo_library [listing1; listing2; listing4]
              listing1 listing2)
    as (sh1 & sh2 & (H1 & _ & Hv1 & _) & (H2 & _ & Hv2 & _) & Hiff).
  - by left.
  - right. by left.
  - reflexivity.
  - reflexivity.
  - exists sh1, sh2. split_and!; [done|done|exact Hv1|exact Hv2|].
    apply Hiff. split; vm_compute; reflexivity.
Defined.

(** Rows that differ in the casing of the venue only are two shows; and
    of two rows with one identity key the map of original keys may resolve
    only the first. *)
Lemma venue_casing_counterexample :
  let res := resolve_shows demo_library [listing1; listing4] in
  let res' := resolve_shows demo_library [listing1; listing3] in
  (normalized_date demo_library listing1 = normalized_date demo_library listing4 /\
   Py.lower (trimmed_venue listing1) = Py.lower (trimmed_venue listing4) /\
   original_show_key_to_id_map res !! original_input_key listing1 = Some 1 /\
   original_show_key_to_id_map res !! original_input_key listing4 = Some 2 /\
   map show_id (shows_data res) = [1; 2]) /\
  (normalized_date demo_library listing1 = normalized_date demo_library listing3 /\
   trimmed_venue listing1 = trimmed_venue listing3 /\
   original_show_key_to_id_map res' !! original_input_key listing1 = Some 1 /\
   original_show_key_to_id_map res' !! original_input_key listing3 = None).
Proof. vm_compute. repeat split; reflexivity. Qed.

Lemma duplicate_show_row_dropped_witness :
  (listing1 ∈ [listing1] /\ names_show listing1 = true /\
   unique_show_key demo_library listing1 = unique_show_key demo_library listing3) /\
  resolve_shows demo_library ([listing1] ++ listing3 :: [])
  = resolve_shows demo_library ([listing1] ++ []).
Proof.
  assert (H1 : listing1 ∈ [listing1]) by by left.
  assert (H2 : names_show listing1 = true) by reflexivity.
  assert (H3 : unique_show_key demo_library listing1
               = unique_show_key demo_library listing3)
    by (vm_compute; reflexivity).
  split; [by split|].
  exact (proj1 (duplicate_show_row_dropped demo_library [listing1] [] listing1 listing3
                  H1 H2 H3)).
Defined.

(** A second listing of a show under another spelling of the date is
    dropped and its original strings are not registered: the map has no
    show for them, and the linker drops the row. *)
Lemma duplicate_show_unregistered_counterexample :
  let rows := [listing1; listing3] in
  let res := resolve_shows demo_library rows in
  let res' := resolve_shows demo_library [listing5; listing6] in
  (unique_show_key demo_library listing3 = unique_show_key demo_library listing1 /\
   map show_id (shows_data res) = [1] /\
   original_show_key_to_id_map res !! original_input_key listing1 = Some 1 /\
   original_show_key_to_id_map res !! original_input_key listing3 = None /\
   create_shows_setlists_tables demo_library rows
     [(1, ["thunder"; "road"]); (2, ["born"; "to"; "run"])]
   = Some (shows_data res,
           [ {| setlist_entry_id := 1; e_show_id := 1; e_song_id := 1;
                position := 1; notes := "" |} ])) /\
  (unique_show_key demo_library listing6 = unique_show_key demo_library listing5 /\
   map show_id (shows_data res') = [1] /\
   original_show_key_to_id_map res' !! original_input_key listing5 = Some 1 /\
   original_show_key_to_id_map res' !! original_input_key listing6 = None).
Proof. vm_compute. repeat split; reflexivity. Qed.

Lemma covers_first_seen_shortest_witness :
  create_final_songs_table order_id demo_sessions demo_setlists
  = Some (demo_songs, demo_index) /\
  map snd (drop 2 demo_index) = [["zebra"]; ["apple"; "pie"]] /\
  Forall2 (cover_of demo_setlists) (drop 2 demo_songs) [["zebra"]; ["apple"; "pie"]].
Proof.
  split; [exact demo_catalog|].
  destruct (covers_first_seen_shortest order_id demo_sessions demo_setlists
              demo_songs demo_index demo_catalog) as (H1 & _ & H3).
  split; [exact H1|exact H3].
Defined.

(** The covers are numbered in the order of their first occurrence, not
    in the order of their token sequences; a title without tokens gives no
    entry. *)
Lemma cover_order_counterexample :
  create_final_songs_table order_id
    [ srow "Born To Run" "Album" "Thunder Road" ]
    [ lrow "08/15/1975" "The Bottom Line" "" "Zebra" (VStr "1");
      lrow "08/15/1975" "The Bottom Line" "" "!!!" (VStr "2");
      lrow "08/15/1975" "The Bottom Line" "" "Apple" (VStr "3") ]
  = Some ([ {| song_id := 1; title := "Thunder Road"; album := "Born To Run";
               is_outtake := 0 |};
            {| song_id := 2; title := "Zebra"; album := "Cover"; is_outtake := 0 |};
            {| song_id := 3; title := "Apple"; album := "Cover"; is_outtake := 0 |} ],
          [ (1, ["thunder"; "road"]); (2, ["zebra"]); (3, ["apple"]) ]) /\
  tokens_compare ["apple"] ["zebra"] = Lt /\
  preprocess_title_for_matching (Str "!!!") = [].
Proof. vm_compute. repeat split; reflexivity. Qed.

(** On a catalog with both songs, the standard title on the Reunion tour
    is linked to the acoustic song, and on another tour to the standard
    one. *)
Lemma contextual_routing_witness :
  create_final_songs_table order_id reunion_sessions reunion_setlists
  = Some (reunion_songs, reunion_index) /\
  create_shows_setlists_tables demo_library reunion_setlists reunion_index
  = Some (shows_data (resolve_shows demo_library reunion_setlists), reunion_entries) /\
  find_match_by_sequence standard_bitusa_words reunion_index = Some 1 /\
  exists e, e ∈ reunion_entries /\ e_show_id e = 1 /\ e_song_id e = 2 /\
    position e = 1.
Proof.
  assert (Htab : create_shows_setlists_tables demo_library reunion_setlists reunion_index
                 = Some (shows_data (resolve_shows demo_library reunion_setlists),
                         reunion_entries))
    by (vm_compute; reflexivity).
  split; [exact reunion_catalog|]. split; [exact Htab|].
  destruct (contextual_routing demo_library order_id reunion_sessions reunion_setlists
              reunion_songs reunion_index reunion_setlists _ reunion_entries
              reunion_row 1 reunion_catalog Htab)
    as (sh & Hsh & Hid & Hboth & _).
  - by left.
  - vm_compute. reflexivity.
  - vm_compute. reflexivity.
  - destruct (Hboth 1 2) as (_ & Hf & [(e & He & E1 & E2 & E3) _]).
    + left.
    + right. left.
    + split; [exact Hf|].
      assert (Ht : bool_decide (Py.lower (tour sh) ∈ REUNION_TOUR_RAW_NAMES) = true).
      { change (shows_data (resolve_shows demo_library reunion_setlists))
          with [minted_show demo_library 1 reunion_row;
                minted_show demo_library 2 other_tour_row] in Hsh.
        apply elem_of_cons in Hsh as [->|Hsh]; [vm_compute; reflexivity|].
        apply elem_of_cons in Hsh as [->|Hsh]; [discriminate Hid|].
        by apply elem_of_nil in Hsh. }
      rewrite Ht in E2. exists e. split_and!; [done|done|done|].
      vm_compute in E3. by injection E3.
Defined.

Lemma two_runs_agree_witness :
  cover_ties_agree demo_sessions demo_setlists /\
  build_tables demo_library order_id demo_sessions demo_setlists
  = build_tables demo_library order_rev demo_sessions demo_setlists.
Proof.
  assert (Hties : cover_ties_agree demo_sessions demo_setlists).
  { intros k s1 s2 _ [H1 E1] [H2 E2] _. revert E1 E2.
    repeat (apply elem_of_cons in H1 as [[= ->]|H1]);
      try (by apply elem_of_nil in H1);
      repeat (apply elem_of_cons in H2 as [[= ->]|H2]);
      try (by apply elem_of_nil in H2);
      vm_compute; intros <-; (reflexivity || discriminate). }
  split; [exact Hties|].
  pose proof (two_runs_agree demo_library demo_library order_id order_rev
                demo_sessions demo_setlists (fun _ _ => eq_refl) (fun _ _ => eq_refl))
    as H.
  destruct (build_tables demo_library order_id demo_sessions demo_setlists)
    as [[[s1 sh1] e1]|];
    destruct (build_tables demo_library order_rev demo_sessions demo_setlists)
      as [[[s2 sh2] e2]|];
    try done.
  destruct H as (-> & -> & _ & _ & H). by rewrite (H Hties).
Defined.

(** Two runs on the same rows whose sets of spellings come out in
    different orders give different songs tables; and two runs on a row
    with the date [now], which the library reads as the day of the run,
    give different shows when the day has changed between them. *)
Lemma two_runs_differ_counterexample :
  (String.length "Rockin' All Over The World"
     = String.length "Rockin All Over The World," /\
   option_map (fun t => map title t.1.1)
     (build_tables demo_library order_id tie_sessions tie_setlists)
     = Some ["Thunder Road"; "Rockin' All Over The World"] /\
   option_map (fun t => map title t.1.1)
     (build_tables demo_library order_rev tie_sessions tie_setlists)
     = Some ["Thunder Road"; "Rockin All Over The World,"]) /\
  (option_map (fun t => map date t.1.2)
     (build_tables (clock_library ("2026-11-03", "2026")) order_id
        tie_sessions now_setlists)
     = Some [Some "2026-11-03"] /\
   option_map (fun t => map date t.1.2)
     (build_tables (clock_library ("2026-11-04", "2026")) order_id
        tie_sessions now_setlists)
     = Some [Some "2026-11-04"]).
Proof. vm_compute. repeat split; reflexivity. Qed.

Lemma positions_parsed_witness :
  exists st,
    link_rows demo_library demo_index (resolve_shows demo_library demo_setlists)
      demo_setlists = Some st /\
    map position (setlists st) = [1; 2; 0; 4; 1] /\
    Forall (fun e => exists row, row ∈ demo_setlists /\
              position e = position_value (to_numeric demo_library (r_position row)))
      (setlists st).
Proof.
  pose proof (positions_parsed demo_library demo_index
                (resolve_shows demo_library demo_setlists) demo_setlists)
    as (_ & _ & H).
  destruct (link_rows demo_library demo_index
              (resolve_shows demo_library demo_setlists) demo_setlists)
    as [st|] eqn:E; [|vm_compute in E; discriminate].
  exists st. split; [done|]. split.
  - vm_compute in E. injection E as <-. reflexivity.
  - apply Forall_forall. intros e He.
    destruct (proj2 H e He) as (row & (pre & post & ? & ? & Er & _) & _ & _ & Hp).
    exists row. split; [|exact Hp].
    rewrite Er. apply elem_of_app. right. by left.
Defined.

(** A row with a negative number in the position cell gives an entry with
    a negative position; a row whose position cell reads as an infinity
    ends the run. *)
Lemma negative_position_counterexample :
  build_tables demo_library order_id
    [ srow "Born To Run" "Album" "Thunder Road" ]
    [ lrow "08/15/1975" "The Bottom Line" "" "Thunder Road" (VStr "-1") ]
  = Some ([ {| song_id := 1; title := "Thunder Road"; album := "Born To Run";
               is_outtake := 0 |} ],
          [ {| show_id := 1; date := Some "1975-08-15"; tour := "1975";
               venue := "The Bottom Line"; city := "Unknown City";
               state_name := None; state_code := None; country_name := None;
               country_code := None; show_notes := None |} ],
          [ {| setlist_entry_id := 1; e_show_id := 1; e_song_id := 1;
               position := -1; notes := "" |} ]) /\
  build_tables demo_library order_id
    [ srow "Born To Run" "Album" "Thunder Road" ]
    [ lrow "08/15/1975" "The Bottom Line" "" "Thunder Road" (VStr "inf") ]
  = None.
Proof. vm_compute. split; reflexivity. Qed.



(** The tokenizer does not see case, punctuation and connectors; the
    canonicalizer capitalizes each word ([capitalize] leaves a word that
    starts with a digit in lower case) and corrects the one abbreviation; a
    title none of whose candidates is in the index has no match. *)
Example tokenizer_punctuation_invariance :
  preprocess_title_for_matching (Str "Born in the U.S.A.") = ["born"; "in"; "the"; "usa"] /\
  preprocess_title_for_matching (Str "Born In The USA") = ["born"; "in"; "the"; "usa"] /\
  preprocess_title_for_matching (Str "BORN-IN-THE-USA!") = ["born"; "in"; "the"; "usa"] /\
  preprocess_title_for_matching (Str "Rockin' & Don't [Snippet]")
    = ["rockin"; "and"; "don't"; "snippet"].
Proof. vm_compute. repeat split; reflexivity. Qed.

Example display_title_corrections :
  get_canonical_display_title (Str "4th of july asbury park (sandy)")
    = "4th Of July Asbury Park Sandy" /\
  get_canonical_display_title (Str "born in the USA") = "Born In The U.S.A." /\
  get_canonical_display_title (Str "  thunder   ROAD ") = "Thunder Road" /\
  get_canonical_display_title (Str "   ") = "Unknown Title".
Proof. vm_compute. repeat split; reflexivity. Qed.

Example no_match_rejection :
  find_match_by_sequence
    (preprocess_title_for_matching (Str "Some Entirely Unknown Song")) demo_index = None /\
  find_match_by_sequence
    (preprocess_title_for_matching (Str "Thunder Road (Piano Intro)")) demo_index = Some 1.
Proof. vm_compute. repeat split; reflexivity. Qed.

Lemma find_match_survives_added_tokens_witness :
  OrderedSubseq ["thunder"; "road"] ["thunder"; "road"; "piano"; "intro"] /\
  exists id', find_match_by_sequence ["thunder"; "road"; "piano"; "intro"] demo_index
              = Some id'.
Proof.
  assert (H : OrderedSubseq ["thunder"; "road"] ["thunder"; "road"; "piano"; "intro"])
    by (repeat constructor).
  split; [exact H|].
  destruct (find_match_survives_added_tokens
              ["thunder"; "road"] ["thunder"; "road"; "piano"; "intro"]
              demo_index 1 H eq_refl) as (id' & _ & _ & E & _).
  by exists id'.
Defined.

Lemma find_match_prefers_exact_entry_witness :
  find_match_by_sequence ["apple"; "pie"] demo_index = Some 4.
Proof.
  apply (find_match_prefers_exact_entry ["apple"; "pie"] demo_index 4).
  - discriminate.
  - apply (bool_decide_unpack _). vm_compute. exact I.
  - apply (bool_decide_unpack _). vm_compute. exact I.
Defined.

Lemma catalog_index_covers_titles_witness :
  ["apple"; "pie"] ∈ map snd demo_index /\ [] ∉ map snd demo_index.
Proof.
  destruct (catalog_index_covers_titles order_id demo_sessions demo_setlists
              demo_songs demo_index demo_catalog) as [H1 H2].
  split.
  - apply H2. split; [discriminate|]. right.
    exists (lrow "08/15/1975" "The Bottom Line" "" "Apple Pie" (VStr "x")).
    split; [|vm_compute; reflexivity].
    unfold demo_setlists. rewrite !elem_of_cons. right. right. by left.
  - intros Hin. apply list_elem_of_fmap in Hin as ([id ws] & E & Hin).
    simpl in E. subst ws. by apply (H1 id []).
Defined.

Lemma catalog_entry_matches_itself_witness :
  find_match_by_sequence ["born"; "in"; "the"; "usa"] demo_index = Some 2.
Proof.
  apply (catalog_entry_matches_itself order_id demo_sessions demo_setlists
           demo_songs demo_index 2 ["born"; "in"; "the"; "usa"] demo_catalog).
  apply (bool_decide_unpack _). vm_compute. exact I.
Defined.

Lemma first_session_row_makes_entry_witness :
  exists sg, sg ∈ demo_songs /\ (song_id sg, ["thunder"; "road"]) ∈ demo_index /\
             album sg = "Born To Run" /\ is_outtake sg = 0.
Proof.
  destruct (first_session_row_makes_entry order_id []
              [ srow "Born in the USA" "Album" "Born in the U.S.A.";
                srow "Born To Run" "Outtake" "thunder road!" ]
              (srow "Born To Run" "Album" "Thunder Road")
              demo_setlists demo_songs demo_index demo_catalog)
    as (sg & H1 & H2 & _ & H3 & H4).
  - discriminate.
  - by intros r ?%elem_of_nil.
  - by exists sg.
Defined.

Lemma blank_tour_becomes_year_witness :
  exists sh,
    shows_data (resolve_shows demo_library demo_setlists) !! 0%nat = Some sh /\
    date sh = Some "1975-08-15" /\ tour sh = "1975".
Proof.
  exists (minted_show demo_library 1 listing1).
  assert (H : shows_data (resolve_shows demo_library demo_setlists) !! 0%nat
              = Some (minted_show demo_library 1 listing1))
    by (vm_compute; reflexivity).
  split; [exact H|].
  apply (blank_tour_becomes_year demo_library demo_setlists 0 listing1 _
           ltac:(vm_compute; reflexivity) H).
Defined.

Lemma first_listing_resolves_witness :
  original_show_key_to_id_map (resolve_shows demo_library ([listing1; listing2] ++ listing5 :: [listing6]))
    !! original_input_key listing5
  = Some (Z.of_nat (length (shows_data (resolve_shows demo_library [listing1; listing2]))) + 1) /\
  shows_data (resolve_shows demo_library ([listing1; listing2] ++ listing5 :: [listing6]))
    !! length (shows_data (resolve_shows demo_library [listing1; listing2]))
  = Some (minted_show demo_library
            (Z.of_nat (length (shows_data (resolve_shows demo_library [listing1; listing2]))) + 1)
            listing5).
Proof.
  apply (first_listing_resolves demo_library [listing1; listing2] [listing6] listing5).
  - reflexivity.
  - intros r Hr _. rewrite !elem_of_cons in Hr.
    destruct Hr as [->|[->|Hr]]; [by vm_compute|by vm_compute|].
    by apply elem_of_nil in Hr.
Defined.

Lemma row_without_date_or_venue_is_ignored_witness :
  create_shows_setlists_tables demo_library
    ([listing1] ++ lrow "" "The Roxy" "" "Thunder Road" (VStr "1") :: [listing5])
    demo_index
  = create_shows_setlists_tables demo_library ([listing1] ++ [listing5]) demo_index.
Proof.
  apply (row_without_date_or_venue_is_ignored demo_library [listing1] [listing5]
           (lrow "" "The Roxy" "" "Thunder Road" (VStr "1")) demo_index).
  reflexivity.
Defined.

Lemma tables_are_referentially_sound_witness :
  exists songs shows entries,
    build_tables demo_library order_id demo_sessions demo_setlists = Some (songs, shows, entries) /\
    NoDup (map song_id songs) /\ NoDup (map show_id shows) /\
    Forall (fun e =>
      (exists sg, sg ∈ songs /\ song_id sg = e_song_id e) /\
      (exists sh, sh ∈ shows /\ show_id sh = e_show_id e)) entries.
Proof.
  eexists _, _, _. split; [vm_compute; reflexivity|].
  apply (tables_are_referentially_sound demo_library order_id demo_sessions demo_setlists).
  vm_compute. reflexivity.
Defined.

Lemma entries_numbered_and_distinct_witness :
  exists st,
    link_rows demo_library demo_index (resolve_shows demo_library demo_setlists)
      demo_setlists = Some st /\
    map setlist_entry_id (setlists st) = range1 (length (setlists st)) /\
    NoDup (map entry_key (setlists st)).
Proof.
  destruct (link_rows demo_library demo_index
              (resolve_shows demo_library demo_setlists) demo_setlists)
    as [st|] eqn:E; [|vm_compute in E; discriminate].
  exists st. split; [done|].
  destruct (entries_numbered_and_distinct demo_library demo_index
              (resolve_shows demo_library demo_setlists) demo_setlists st E)
    as (H1 & H2 & _).
  by split.
Defined.

Lemma tokens_are_lower_case_words_witness :
  Py.isascii "Rockin' & Don't [Snippet]" = true /\
  Forall token_ok (preprocess_title_for_matching (Str "Rockin' & Don't [Snippet]")).
Proof.
  split; [reflexivity|].
  apply (tokens_are_lower_case_words (Str "Rockin' & Don't [Snippet]")).
  intros s [= <-]. reflexivity.
Defined.

Lemma every_titled_row_is_linked_witness :
  exists shows entries,
    create_shows_setlists_tables demo_library demo_setlists demo_index
    = Some (shows, entries) /\
    exists e, e ∈ entries /\
      e_show_id e = Z.of_nat 0 + 1 /\
      position_of (to_numeric demo_library (r_position
            (lrow "08/15/1975" " The Bottom Line " "" "Zebra" (VStr "2"))))
        = Some (position e) /\
      ((e_song_id e, preprocess_title_for_matching (Str "Zebra")) ∈ demo_index \/
       (preprocess_title_for_matching (Str "Zebra") = standard_bitusa_words /\
        (e_song_id e, reunion_bitusa_words) ∈ demo_index)).
Proof.
  eexists _, _. split; [vm_compute; reflexivity|].
  eapply (every_titled_row_is_linked demo_library order_id demo_sessions demo_setlists
            demo_songs demo_index _ _ 0 listing1
            (lrow "08/15/1975" " The Bottom Line " "" "Zebra" (VStr "2")) "Zebra").
  - exact demo_catalog.
  - vm_compute. reflexivity.
  - vm_compute. reflexivity.
  - unfold demo_setlists. rewrite !elem_of_cons. right. by left.
  - vm_compute. reflexivity.
  - reflexivity.
  - vm_compute. discriminate.
Defined.

Lemma appended_rows_keep_song_ids_witness :
  exists songs' new_entries,
    create_final_songs_table order_id demo_sessions
      (demo_setlists ++ [lrow "08/17/1975" "The Roxy" "" "Quarter To Three" (VStr "1")])
    = Some (songs', demo_index ++ new_entries) /\
    map song_id songs' = map fst (demo_index ++ new_entries).
Proof.
  exact (appended_rows_keep_song_ids order_id demo_sessions demo_setlists
           [lrow "08/17/1975" "The Roxy" "" "Quarter To Three" (VStr "1")]
           demo_songs demo_index demo_catalog).
Defined.

